(** * vermouth.molecule: attributed molecule graphs, link predicates,
    interaction registry and molecule merging.

    A shallow embedding of [src/vermouth/molecule.py] and the properties
    proved of it.  Python objects are embedded as follows.

    - attribute values: [value] (None, bool, int, str) with Python's
      [==], truthiness and [+] written out;
    - a [dict] of attributes (node attributes, interaction [meta]): a
      [gmap string value]; the node store of a graph is an [OrderedDict],
      embedded as an association list whose order is the insertion order;
      the interaction registry is a [defaultdict(list)], embedded the same
      way;
    - exceptions: a [result] carrying an [error]; methods that mutate
      [self] are computations of the state-and-exception monad [M], in
      which the state reached when the exception was raised is kept. *)

From stdpp Require Import base option list gmap strings numbers.

Set Default Proof Using "Type".

(** ** Python values *)

Inductive value : Type :=
| VNone
| VBool (b : bool)
| VInt (z : Z)
| VStr (s : string).

#[global] Instance value_eq_dec : EqDecision value.
Proof. solve_decision. Defined.

(** [bool] is a subclass of [int]: [True == 1], [False == 0]. *)
Definition py_num (v : value) : option Z :=
  match v with
  | VBool b => Some (Z.b2z b)
  | VInt z => Some z
  | _ => None
  end.

(** [a == b] *)
Definition py_eq (a b : value) : bool :=
  match a, b with
  | VNone, VNone => true
  | VStr s, VStr t => bool_decide (s = t)
  | _, _ =>
      match py_num a, py_num b with
      | Some x, Some y => bool_decide (x = y)
      | _, _ => false
      end
  end.

(** [a != b] *)
Definition py_ne (a b : value) : bool := negb (py_eq a b).

(** [bool(v)] *)
Definition py_truthy (v : value) : bool :=
  match v with
  | VNone => false
  | VBool b => b
  | VInt z => negb (bool_decide (z = 0%Z))
  | VStr s => negb (bool_decide (s = EmptyString))
  end.

(** [x in values] for a list [values]: some element equals [x]. *)
Definition py_in (x : value) (values : list value) : bool :=
  existsb (fun e => py_eq e x) values.

(** [tuple(a) == tuple(b)]: same length, elementwise [==]. *)
Fixpoint py_seq_eq (a b : list value) : bool :=
  match a, b with
  | [], [] => true
  | x :: a', y :: b' => py_eq x y && py_seq_eq a' b'
  | _, _ => false
  end.

(** ** Exceptions *)

Inductive error : Type :=
| AtomNotFound        (* ValueError('Unknown atom ...') *)
| InvalidArity        (* ValueError('Unexpected number of keys ...') *)
| NoMatchFound        (* KeyError / ValueError raised by the remove methods *)
| ForceFieldMismatch  (* ValueError('Cannot merge ... different force fields.') *)
| NrexclMismatch      (* ValueError('Cannot merge ... different nrexcl. ...') *)
| KeyError            (* subscript of a dict with a key it does not hold *)
| IndexError          (* subscript of a tuple out of range *)
| TypeError           (* operand or subscript of the wrong type *)
| ValueError          (* max() of an empty sequence *)
| AttributeError.     (* attribute lookup that finds nothing *)

#[global] Instance error_eq_dec : EqDecision error.
Proof. solve_decision. Defined.

Inductive result (A : Type) : Type :=
| Ok (a : A)
| Err (e : error).
Arguments Ok {A} a.
Arguments Err {A} e.

Definition result_bind {A B} (r : result A) (k : A -> result B) : result B :=
  match r with
  | Ok a => k a
  | Err e => Err e
  end.

(** [a + b]: numbers add, strings concatenate, anything else is a TypeError. *)
Definition py_add (a b : value) : result value :=
  match py_num a, py_num b with
  | Some x, Some y => Ok (VInt (x + y))
  | _, _ =>
      match a, b with
      | VStr s, VStr t => Ok (VStr (s +:+ t))
      | _, _ => Err TypeError
      end
  end.

(** [[f(x) for x in l]] where [f] may raise: the first exception wins. *)
Fixpoint result_map {A B} (f : A -> result B) (l : list A) : result (list B) :=
  match l with
  | [] => Ok []
  | x :: l' =>
      result_bind (f x) (fun y =>
      result_bind (result_map f l') (fun ys => Ok (y :: ys)))
  end.

(** ** Methods that mutate [self]: state and exceptions *)

Definition M (S A : Type) : Type := S -> result A * S.

Definition ret {S A} (a : A) : M S A := fun s => (Ok a, s).
Definition raise {S A} (e : error) : M S A := fun s => (Err e, s).
Definition bind {S A B} (m : M S A) (k : A -> M S B) : M S B :=
  fun s =>
    match m s with
    | (Ok a, s') => k a s'
    | (Err e, s') => (Err e, s')
    end.
Definition get {S} : M S S := fun s => (Ok s, s).
Definition modify {S} (f : S -> S) : M S unit := fun s => (Ok tt, f s).
Definition lift {S A} (r : result A) : M S A := fun s => (r, s).

Declare Scope py_scope.
Delimit Scope py_scope with py.
Notation "x <- m ;; k" := (bind m (fun x => k))
  (at level 100, m at next level, right associativity) : py_scope.
Notation "m ;;; k" := (bind m (fun _ => k))
  (at level 100, right associativity) : py_scope.
Open Scope py_scope.

(** [for x in l: body(x)] *)
Fixpoint for_each {S A} (l : list A) (body : A -> M S unit) : M S unit :=
  match l with
  | [] => ret tt
  | x :: l' => body x ;;; for_each l' body
  end.

(** ** Insertion-ordered dictionaries *)

Section odict.
Context {K V : Type} `{EqDecision K}.

(** [d.get(k)] *)
Fixpoint od_get (d : list (K * V)) (k : K) : option V :=
  match d with
  | [] => None
  | (k', v) :: d' => if decide (k = k') then Some v else od_get d' k
  end.

(** [k in d] *)
Definition od_contains (d : list (K * V)) (k : K) : bool :=
  bool_decide (k ∈ d.*1).

(** [d[k]] *)
Definition od_getitem (d : list (K * V)) (k : K) : result V :=
  match od_get d k with
  | Some v => Ok v
  | None => Err KeyError
  end.

(** [d[k] = v]: a key the dict holds keeps its place, a new key goes last. *)
Fixpoint od_set (d : list (K * V)) (k : K) (v : V) : list (K * V) :=
  match d with
  | [] => [(k, v)]
  | (k', v') :: d' =>
      if decide (k = k') then (k', v) :: d' else (k', v') :: od_set d' k v
  end.

End odict.

(** ** Link predicates *)

(** The two subclasses of [LinkPredicate]; each holds its reference
    [value]. *)
Inductive LinkPredicate : Type :=
| Choice (value : list value)
| NotDefinedOrNot (value : value).

(** [Choice.match]: [node.get(key) in self.value] *)
Definition Choice_match (self_value : list value)
    (node : gmap string value) (key : string) : bool :=
  py_in (default VNone (node !! key)) self_value.

(** [NotDefinedOrNot.match]: [key not in node or node[key] != self.value] *)
Definition NotDefinedOrNot_match (self_value : value)
    (node : gmap string value) (key : string) : bool :=
  match node !! key with
  | None => true
  | Some v => py_ne v self_value
  end.

(** [predicate.match(node, key)], dispatched on the class of [predicate]. *)
Definition LinkPredicate_match (p : LinkPredicate)
    (node : gmap string value) (key : string) : bool :=
  match p with
  | Choice vs => Choice_match vs node key
  | NotDefinedOrNot v => NotDefinedOrNot_match v node key
  end.

(** A value of a template's attribute dict: a plain value, compared with
    [==], or a predicate. *)
Inductive tvalue : Type :=
| Plain (v : value)
| Pred (p : LinkPredicate).

(** The loop of [attributes_match] over [template_attributes.items()]. *)
Fixpoint attributes_match_items (attributes : gmap string value)
    (items : list (string * tvalue)) (ignore_keys : list string) : bool :=
  match items with
  | [] => true
  | (attr, value) :: rest =>
      if bool_decide (attr ∈ ignore_keys) then
        attributes_match_items attributes rest ignore_keys
      else
        match value with
        | Pred p =>
            if negb (LinkPredicate_match p attributes attr) then false
            else attributes_match_items attributes rest ignore_keys
        | Plain v =>
            if py_ne (default VNone (attributes !! attr)) v then false
            else attributes_match_items attributes rest ignore_keys
        end
  end.

Definition attributes_match (attributes : gmap string value)
    (template_attributes : gmap string tvalue)
    (ignore_keys : list string) : bool :=
  attributes_match_items attributes (map_to_list template_attributes) ignore_keys.

(** ** Link parameter effectors *)

Inductive effector_class : Type :=
| LinkParameterEffector
| ParamDistance
| ParamAngle
| ParamDihedral
| ParamDihedralPhase.

(** The class attribute [n_keys_asked]. *)
Definition n_keys_asked (cls : effector_class) : option nat :=
  match cls with
  | LinkParameterEffector => None
  | ParamDistance => Some 2%nat
  | ParamAngle => Some 3%nat
  | ParamDihedral => Some 4%nat
  | ParamDihedralPhase => Some 4%nat
  end.

(** The names each class statement binds. *)
Definition class_body (cls : effector_class) : list string :=
  match cls with
  | LinkParameterEffector =>
      ["n_keys_asked"; "__init__"; "__call__"; "_apply"]
  | _ => ["n_keys_asked"; "_apply"]
  end.

(** The other names a lookup on one of these classes finds (CPython
    3.11): those the class statement binds by itself, and those of
    [object] and of the metaclass [type].  ([__init__] and [__call__] are
    in the body of the base class; [__abstractmethods__], which [type]
    lists, raises AttributeError on a class that is not abstract.) *)
Definition class_builtin : list string :=
  [
   "__annotations__"; "__base__"; "__bases__"; "__basicsize__";
   "__class__"; "__delattr__"; "__dict__"; "__dictoffset__"; "__dir__";
   "__doc__"; "__eq__"; "__flags__"; "__format__"; "__ge__";
   "__getattribute__"; "__getstate__"; "__gt__"; "__hash__";
   "__init_subclass__"; "__instancecheck__"; "__itemsize__"; "__le__";
   "__lt__"; "__module__"; "__mro__"; "__name__"; "__ne__"; "__new__";
   "__or__"; "__prepare__"; "__qualname__"; "__reduce__";
   "__reduce_ex__"; "__repr__"; "__ror__"; "__setattr__"; "__sizeof__";
   "__str__"; "__subclasscheck__"; "__subclasses__"; "__subclasshook__";
   "__text_signature__"; "__weakref__"; "__weakrefoffset__"; "mro"
  ].

(** [cls.name] as an attribute lookup on the class object: the class body,
    the body of the base class, then [object] and the metaclass [type]. *)
Definition class_getattr (cls : effector_class) (name : string) : result unit :=
  if bool_decide (name ∈ class_body cls)
     || bool_decide (name ∈ class_body LinkParameterEffector)
     || bool_decide (name ∈ class_builtin)
  then Ok tt
  else Err AttributeError.

(** An instance: its class, [self.keys] and [self.format]. *)
Record effector (K : Type) : Type := mkEffector {
  eff_class : effector_class;
  keys : list K;
  format : option string;
}.
Arguments mkEffector {K} _ _ _.
Arguments eff_class {K} _.
Arguments keys {K} _.
Arguments format {K} _.

(** [LinkParameterEffector.__init__], inherited by every subclass.  The
    message of the ValueError is built with [str.format], whose arguments,
    [self.__class__.name] first, are evaluated before the exception
    exists. *)
Definition LinkParameterEffector_init {K} (cls : effector_class)
    (keys : list K) (format : option string) : result (effector K) :=
  match n_keys_asked cls with
  | Some n =>
      if negb (bool_decide (length keys = n)) then
        result_bind (class_getattr cls "name") (fun _ => Err InvalidArity)
      else Ok (mkEffector cls keys format)
  | None => Ok (mkEffector cls keys format)
  end.

(** ** Interactions *)

(** [Interaction = namedtuple('Interaction', 'atoms parameters meta')] *)
Record Interaction (K : Type) : Type := mkInteraction {
  atoms : list K;
  parameters : list value;
  meta : gmap string value;
}.
Arguments mkInteraction {K} _ _ _.
Arguments atoms {K} _.
Arguments parameters {K} _.
Arguments meta {K} _.

(** A template handed to [interaction_match]: an [Interaction] or a
    [DeleteInteraction] (['atoms atom_attrs parameters meta']) whose
    attribute dicts may hold predicates. *)
Inductive template (K : Type) : Type :=
| TInteraction (t_atoms : list K) (t_parameters : list value)
    (t_meta : gmap string tvalue)
| TDeleteInteraction (t_atoms : list K)
    (t_atom_attrs : list (gmap string tvalue))
    (t_parameters : list value) (t_meta : gmap string tvalue).
Arguments TInteraction {K} _ _ _.
Arguments TDeleteInteraction {K} _ _ _ _.

Definition template_atoms {K} (t : template K) : list K :=
  match t with
  | TInteraction a _ _ => a
  | TDeleteInteraction a _ _ _ => a
  end.

Definition template_parameters {K} (t : template K) : list value :=
  match t with
  | TInteraction _ p _ => p
  | TDeleteInteraction _ _ p _ => p
  end.

Definition template_meta {K} (t : template K) : gmap string tvalue :=
  match t with
  | TInteraction _ _ m => m
  | TDeleteInteraction _ _ _ m => m
  end.

(** [template_interaction.atom_attrs]; an [Interaction] has no such field. *)
Definition template_atom_attrs {K} (t : template K)
    : result (list (gmap string tvalue)) :=
  match t with
  | TInteraction _ _ _ => Err AttributeError
  | TDeleteInteraction _ aa _ _ => Ok aa
  end.

(** What a subscript of a namedtuple may be, and what it may give. *)
Inductive subscript : Type :=
| SubInt (i : Z)
| SubStr (s : string).

Inductive field (K : Type) : Type :=
| FAtoms (a : list K)
| FParameters (p : list value)
| FMeta (m : gmap string value).
Arguments FAtoms {K} _.
Arguments FParameters {K} _.
Arguments FMeta {K} _.

(** [interaction[index]]: a namedtuple is a tuple of three fields, indexed
    by position; tuple indices must be integers, not str. *)
Definition Interaction_getitem {K} (interaction : Interaction K)
    (index : subscript) : result (field K) :=
  match index with
  | SubInt i =>
      if bool_decide (i = 0 ∨ i = -3)%Z then Ok (FAtoms (atoms interaction))
      else if bool_decide (i = 1 ∨ i = -2)%Z then
        Ok (FParameters (parameters interaction))
      else if bool_decide (i = 2 ∨ i = -1)%Z then Ok (FMeta (meta interaction))
      else Err IndexError
  | SubStr _ => Err TypeError
  end.

(** [l[1:-1]] *)
Definition slice_1_m1 {A} (l : list A) : list A :=
  drop 1 (take (length l - 1) l).

(** [tuple(f[1:-1])]: a dict takes no slice. *)
Definition field_slice_1_m1 {K} (f : field K) : result (field K) :=
  match f with
  | FAtoms a => Ok (FAtoms (slice_1_m1 a))
  | FParameters p => Ok (FParameters (slice_1_m1 p))
  | FMeta _ => Err TypeError
  end.

(** [tuple(center) == f] for a tuple of atom keys [center]; keys and
    parameter values are kept apart, so only empty tuples of the two kinds
    are equal. *)
Definition tuple_eq_field {K} `{EqDecision K} (center : list K)
    (f : field K) : bool :=
  match f with
  | FAtoms a => bool_decide (center = a)
  | FParameters p => bool_decide (center = []) && bool_decide (p = [])
  | FMeta _ => false
  end.

(** A sequence of atom keys handed to a method: a tuple or a list. *)
Inductive sequence (K : Type) : Type :=
| PyTuple (items : list K)
| PyList (items : list K).
Arguments PyTuple {K} _.
Arguments PyList {K} _.

(** [tuple(s)] *)
Definition seq_items {K} (s : sequence K) : list K :=
  match s with
  | PyTuple items => items
  | PyList items => items
  end.

(** [t == s] for a tuple [t]: a tuple equals a tuple of the same items,
    and no list. *)
Definition tuple_eq_seq {K} `{EqDecision K} (t : list K) (s : sequence K)
    : bool :=
  match s with
  | PyTuple items => bool_decide (t = items)
  | PyList _ => false
  end.

(** ** Molecules *)

(** [Molecule(nx.Graph)].  Of the graph it keeps the node store
    ([OrderedDict]: key to attribute dict) and the edges; what [nx.Graph]
    does with them ([add_node], [add_edge], [in], [len]) is written below
    from networkx's contract. *)
Record Molecule (K FF : Type) : Type := mkMolecule {
  mol_meta : gmap string value;
  force_field : option FF;
  nrexcl : option Z;
  nodes : list (K * gmap string value);
  edges : list (K * K);
  interactions : list (string * list (Interaction K));
}.
Arguments mkMolecule {K FF} _ _ _ _ _ _.
Arguments mol_meta {K FF} _.
Arguments force_field {K FF} _.
Arguments nrexcl {K FF} _.
Arguments nodes {K FF} _.
Arguments edges {K FF} _.
Arguments interactions {K FF} _.

(** [Block(Molecule)]: a residue template, with a [name]. *)
Record Block (K FF : Type) : Type := mkBlock {
  block_molecule : Molecule K FF;
  name : option string;
}.
Arguments mkBlock {K FF} _ _.
Arguments block_molecule {K FF} _.
Arguments name {K FF} _.

Section molecule.
Context {K FF : Type} `{EqDecision K}.

Local Abbreviation Mol := (Molecule K FF).

(** [Molecule(meta=..., force_field=..., nrexcl=...)] *)
Definition Molecule_init (meta : gmap string value)
    (force_field : option FF) (nrexcl : option Z) : Mol :=
  mkMolecule meta force_field nrexcl [] [] [].

Definition set_nrexcl (v : option Z) (self : Mol) : Mol :=
  mkMolecule (mol_meta self) (force_field self) v
    (nodes self) (edges self) (interactions self).

Definition set_nodes (v : list (K * gmap string value)) (self : Mol) : Mol :=
  mkMolecule (mol_meta self) (force_field self) (nrexcl self)
    v (edges self) (interactions self).

Definition set_edges (v : list (K * K)) (self : Mol) : Mol :=
  mkMolecule (mol_meta self) (force_field self) (nrexcl self)
    (nodes self) v (interactions self).

Definition set_interactions (v : list (string * list (Interaction K)))
    (self : Mol) : Mol :=
  mkMolecule (mol_meta self) (force_field self) (nrexcl self)
    (nodes self) (edges self) v.

(** [atom in self] *)
Definition Molecule_contains (self : Mol) (atom : K) : bool :=
  od_contains (nodes self) atom.

(** The parameters of [Graph.add_node(self, node_for_adding, **attr)]. *)
Definition add_node_parameters : list string := ["self"; "node_for_adding"].

(** An attribute dict with a key that names one of these parameters. *)
Definition keyword_clash (attr : gmap string value) : bool :=
  existsb (fun p => bool_decide (is_Some (attr !! p))) add_node_parameters.

(** [self.add_node(n, **attr)]: the items of [attr] are passed as keyword
    arguments, so a key that names a parameter of [add_node] raises
    TypeError (multiple values for the argument) before anything is
    done.  Otherwise a new node goes last with [attr]; a node the graph
    holds has its attribute dict updated with [attr]. *)
Definition add_node (n : K) (attr : gmap string value) : M Mol unit :=
  if keyword_clash attr then raise TypeError
  else
    modify (fun self =>
      match od_get (nodes self) n with
      | None => set_nodes (nodes self ++ [(n, attr)]) self
      | Some old => set_nodes (od_set (nodes self) n (attr ∪ old)) self
      end).

(** [(u, v) in self.edges]: edges are unordered pairs. *)
Definition has_edge (self : Mol) (u v : K) : bool :=
  bool_decide ((u, v) ∈ edges self) || bool_decide ((v, u) ∈ edges self).

(** [self.add_edge(u, v)]: end points the graph lacks are added as nodes
    without attributes, then the edge, if it is new. *)
Definition add_edge (u v : K) : M Mol unit :=
  modify (fun self =>
    let self :=
      if Molecule_contains self u then self
      else set_nodes (nodes self ++ [(u, ∅)]) self in
    let self :=
      if Molecule_contains self v then self
      else set_nodes (nodes self ++ [(v, ∅)]) self in
    if has_edge self u v then self
    else set_edges (edges self ++ [(u, v)]) self).

(** [self.interactions[type_]] on the [defaultdict(list)]: a missing type
    is entered with an empty list. *)
Definition interactions_getitem (type_ : string)
    : M Mol (list (Interaction K)) :=
  fun self =>
    match od_get (interactions self) type_ with
    | Some l => (Ok l, self)
    | None =>
        (Ok [], set_interactions (od_set (interactions self) type_ []) self)
    end.

(** [self.interactions.get(type_, [])] *)
Definition interactions_get (self : Mol) (type_ : string)
    : list (Interaction K) :=
  default [] (od_get (interactions self) type_).

(** The list object under [type_] is replaced by [l] (the outcome of
    mutating it in place). *)
Definition interactions_store (type_ : string) (l : list (Interaction K))
    : M Mol unit :=
  modify (fun self =>
    set_interactions (od_set (interactions self) type_ l) self).

(** [add_interaction(type_, atoms, parameters, meta=None)]: every atom is
    looked up, then the interaction is appended. *)
Definition add_interaction (type_ : string) (atoms : list K)
    (parameters : list value) (meta : option (gmap string value))
    : M Mol unit :=
  let meta := default ∅ meta in
  for_each atoms (fun atom =>
    self <- get ;;
    if negb (Molecule_contains self atom) then raise AtomNotFound
    else ret tt) ;;;
  l <- interactions_getitem type_ ;;
  interactions_store type_ (l ++ [mkInteraction atoms parameters meta]).

(** [get_interaction(type_)] *)
Definition get_interaction (type_ : string) : M Mol (list (Interaction K)) :=
  interactions_getitem type_.

(** The test of the loop of [remove_interaction]:
    [interaction.atoms == atoms and interaction.meta.get('version', 0)] *)
Definition remove_interaction_test (atoms_ : sequence K)
    (interaction : Interaction K) : bool :=
  tuple_eq_seq (atoms interaction) atoms_
  && py_truthy (default (VInt 0) (meta interaction !! "version")).

(** [for idx, x in enumerate(l): if test(x): break], giving the [idx] at
    the [break], or nothing when the loop runs to its [else]. *)
Fixpoint first_index {A} (test : A -> bool) (l : list A) : option nat :=
  match l with
  | [] => None
  | x :: l' => if test x then Some 0%nat else S <$> first_index test l'
  end.

(** [remove_interaction(type_, atoms, version=0)]; [atoms] is compared as
    it is handed in, and [version] is only quoted in the message of the
    exception. *)
Definition remove_interaction (type_ : string) (atoms_ : sequence K)
    (version : value) : M Mol unit :=
  l <- interactions_getitem type_ ;;
  match first_index (remove_interaction_test atoms_) l with
  | None => raise NoMatchFound
  | Some idx => interactions_store type_ (delete idx l)
  end.

(** [Block.has_dihedral_around]: the centers are read as
    [dih['atoms'][1:-1]]. *)
Definition has_dihedral_around (self : Block K FF) (center : list K)
    : result bool :=
  result_bind
    (result_map
       (fun dih =>
          result_bind (Interaction_getitem dih (SubStr "atoms"))
            field_slice_1_m1)
       (interactions_get (block_molecule self) "dihedrals"))
    (fun all_centers => Ok (existsb (tuple_eq_field center) all_centers)).

(** [Block.has_improper_around]: the centers are read as
    [dih.atoms[1:-1]]. *)
Definition has_improper_around (self : Block K FF) (center : list K) : bool :=
  let all_centers :=
    map (fun dih => slice_1_m1 (atoms dih))
      (interactions_get (block_molecule self) "impropers") in
  bool_decide (center ∈ all_centers).

(** The loop of [interaction_match] over [zip(nodes, atom_attrs)]. *)
Fixpoint atom_attrs_match
    (pairs : list (gmap string value * gmap string tvalue)) : bool :=
  match pairs with
  | [] => true
  | (atom, template_atom) :: rest =>
      if negb (attributes_match atom template_atom []) then false
      else atom_attrs_match rest
  end.

(** [interaction_match(molecule, interaction, template_interaction)] *)
Definition interaction_match (molecule : Mol) (interaction : Interaction K)
    (template_interaction : template K) : result bool :=
  let atoms_match :=
    bool_decide (template_atoms template_interaction = atoms interaction) in
  let parameters_match :=
    bool_decide (template_parameters template_interaction = [])
    || py_seq_eq (template_parameters template_interaction)
         (parameters interaction) in
  if atoms_match && parameters_match then
    let atom_attrs :=
      match template_atom_attrs template_interaction with
      | Ok aa => aa
      | Err _ => replicate (length (template_atoms template_interaction)) ∅
      end in
    result_bind
      (result_map (od_getitem (nodes molecule)) (atoms interaction))
      (fun nodes_ =>
         if atom_attrs_match (zip nodes_ atom_attrs) then
           Ok (attributes_match (meta interaction)
                 (template_meta template_interaction) [])
         else Ok false)
  else Ok false.

(** [remove_matching_interaction]: the first interaction of the type that
    matches the template is deleted. *)
Fixpoint first_match (molecule : Mol) (template_interaction : template K)
    (l : list (Interaction K)) : result (option nat) :=
  match l with
  | [] => Ok None
  | interaction :: l' =>
      result_bind (interaction_match molecule interaction template_interaction)
        (fun b =>
           if b then Ok (Some 0%nat)
           else result_bind (first_match molecule template_interaction l')
                  (fun r => Ok (S <$> r)))
  end.

Definition remove_matching_interaction (type_ : string)
    (template_interaction : template K) : M Mol unit :=
  l <- interactions_getitem type_ ;;
  self <- get ;;
  r <- lift (first_match self template_interaction l) ;;
  match r with
  | Some idx => interactions_store type_ (delete idx l)
  | None => raise NoMatchFound
  end.

End molecule.

(** ** Merging molecules *)

(** [max(l)] *)
Definition py_max (l : list Z) : result Z :=
  match l with
  | [] => Err ValueError
  | x :: l' => Ok (foldl Z.max x l')
  end.

Section merge.
Context {K FF : Type} `{Countable K} `{EqDecision FF}.

(** [correspondence[node]] *)
Definition correspondence_getitem (correspondence : gmap K Z) (node : K)
    : result Z :=
  match correspondence !! node with
  | Some idx => Ok idx
  | None => Err KeyError
  end.

(** The first part of [merge_molecule]: the offsets, read off the node of
    [self] with the largest key, or 0 in an empty molecule. *)
Definition merge_offsets (self : Molecule Z FF) : result (Z * value * value) :=
  if negb (bool_decide (length (nodes self) = 0%nat)) then
    result_bind (py_max (nodes self).*1) (fun last_node_idx =>
    result_bind (od_getitem (nodes self) last_node_idx) (fun last_node =>
    result_bind
      (match last_node !! "resid" with
       | Some r => Ok r
       | None => Err KeyError
       end) (fun residue_offset =>
    let offset_charge_group :=
      default (VInt 1) (last_node !! "charge_group") in
    Ok (last_node_idx, residue_offset, offset_charge_group))))
  else Ok (0%Z, VInt 0, VInt 0).

(** The loop over [enumerate(molecule.nodes(), start=offset + 1)]. *)
Fixpoint merge_nodes (idx : Z) (l : list (K * gmap string value))
    (residue_offset offset_charge_group : value)
    (correspondence : gmap K Z) : M (Molecule Z FF) (gmap K Z) :=
  match l with
  | [] => ret correspondence
  | (node, attrs) :: l' =>
      let correspondence := <[node := idx]> correspondence in
      let new_atom := attrs in
      resid <- lift (py_add (default (VInt 1) (new_atom !! "resid"))
                       residue_offset) ;;
      let new_atom := <["resid" := resid]> new_atom in
      charge_group <-
        lift (py_add (default (VInt 1) (new_atom !! "charge_group"))
                offset_charge_group) ;;
      let new_atom := <["charge_group" := charge_group]> new_atom in
      add_node idx new_atom ;;;
      merge_nodes (idx + 1) l' residue_offset offset_charge_group
        correspondence
  end.

(** The loop over [molecule.interactions.items()]. *)
Definition merge_interactions (molecule : Molecule K FF)
    (correspondence : gmap K Z) : M (Molecule Z FF) unit :=
  for_each (interactions molecule) (fun item =>
    let '(name, interactions_) := item in
    for_each interactions_ (fun interaction =>
      atoms_ <- lift (result_map (correspondence_getitem correspondence)
                        (atoms interaction)) ;;
      add_interaction name atoms_ (parameters interaction)
        (Some (meta interaction)))).

(** The loop over [molecule.edges]. *)
Definition merge_edges (molecule : Molecule K FF)
    (correspondence : gmap K Z) : M (Molecule Z FF) unit :=
  for_each (edges molecule) (fun edge =>
    let '(node1, node2) := edge in
    c1 <- lift (correspondence_getitem correspondence node1) ;;
    c2 <- lift (correspondence_getitem correspondence node2) ;;
    if negb (bool_decide (c1 = c2)) then add_edge c1 c2 else ret tt).

(** [merge_molecule] from the computation of the offsets on. *)
Definition merge_body (molecule : Molecule K FF)
    : M (Molecule Z FF) (gmap K Z) :=
  self <- get ;;
  offsets <- lift (merge_offsets self) ;;
  let '(offset, residue_offset, offset_charge_group) := offsets in
  correspondence <-
    merge_nodes (offset + 1) (nodes molecule) residue_offset
      offset_charge_group ∅ ;;
  merge_interactions molecule correspondence ;;;
  merge_edges molecule correspondence ;;;
  ret correspondence.

(** [self.merge_molecule(molecule)], for a [molecule] that is another
    object than [self]: [self] has integer keys, [molecule] any keys. *)
Definition merge_molecule (molecule : Molecule K FF)
    : M (Molecule Z FF) (gmap K Z) :=
  self <- get ;;
  if negb (bool_decide (force_field self = force_field molecule)) then
    raise ForceFieldMismatch
  else
    (if bool_decide (nrexcl self = None)
        && bool_decide (length (nodes self) = 0%nat)
     then modify (set_nrexcl (nrexcl molecule))
     else ret tt) ;;;
    self <- get ;;
    if negb (bool_decide (nrexcl self = nrexcl molecule)) then
      raise NrexclMismatch
    else merge_body molecule.

End merge.

(** ** When an interaction matches a template, in words *)

(** The four conditions of a match: (a) the same atoms in the same order;
    (b) no parameters in the template, or parameters equal to those of the
    interaction; (c) for a [DeleteInteraction], at each position the
    constraints of [atom_attrs] match the attributes of the atom of the
    molecule at that position; (d) the [meta] of the template matches the
    [meta] of the interaction. *)
Definition interaction_match_conditions {K FF} `{EqDecision K}
    (molecule : Molecule K FF) (interaction : Interaction K)
    (t : template K) : Prop :=
  template_atoms t = atoms interaction
  ∧ (template_parameters t = []
     ∨ py_seq_eq (template_parameters t) (parameters interaction) = true)
  ∧ (∀ atom_attrs, template_atom_attrs t = Ok atom_attrs ->
       ∀ (j : nat) atom constraints node,
         atoms interaction !! j = Some atom ->
         atom_attrs !! j = Some constraints ->
         od_get (nodes molecule) atom = Some node ->
         attributes_match node constraints [] = true)
  ∧ attributes_match (meta interaction) (template_meta t) [] = true.

(** ** The data model's invariants, and what a merge makes of an atom *)

(** An attribute that is absent or holds an int. *)
Definition int_or_absent (attrs : gmap string value) (key : string) : Prop :=
  attrs !! key = None ∨ ∃ z, attrs !! key = Some (VInt z).

(** [attrs.get(key, 1)] for such an attribute. *)
Definition attr_int (attrs : gmap string value) (key : string) : Z :=
  match attrs !! key with
  | Some (VInt z) => z
  | _ => 1%Z
  end.

(** An incoming atom after the merge: its attributes, with [resid] and
    [charge_group] (1 when absent) raised by the two offsets. *)
Definition merged_atom (residue_offset offset_charge_group : Z)
    (attrs : gmap string value) : gmap string value :=
  <["charge_group" := VInt (attr_int attrs "charge_group" + offset_charge_group)]>
    (<["resid" := VInt (attr_int attrs "resid" + residue_offset)]> attrs).

Section invariants.
Context {K FF : Type}.

(** The keys of a dict are distinct. *)
Definition keys_unique (m : Molecule K FF) : Prop := NoDup (nodes m).*1.

(** A graph's edges join nodes of the graph. *)
Definition edges_closed (m : Molecule K FF) : Prop :=
  ∀ u v, (u, v) ∈ edges m -> u ∈ (nodes m).*1 ∧ v ∈ (nodes m).*1.

(** "Every interaction's atoms must exist as nodes." *)
Definition interactions_closed (m : Molecule K FF) : Prop :=
  ∀ type_ l interaction atom,
    (type_, l) ∈ interactions m -> interaction ∈ l ->
    atom ∈ atoms interaction -> atom ∈ (nodes m).*1.

(** [resid] and [charge_group], where an atom has them, are ints. *)
Definition atoms_typed (m : Molecule K FF) : Prop :=
  ∀ k attrs, (k, attrs) ∈ nodes m ->
    int_or_absent attrs "resid" ∧ int_or_absent attrs "charge_group".

(** No attribute of an atom is named as a parameter of [add_node], so
    the attributes can be passed on as keyword arguments. *)
Definition atoms_passable (m : Molecule K FF) : Prop :=
  ∀ k attrs, (k, attrs) ∈ nodes m -> keyword_clash attrs = false.

Definition Molecule_wf (m : Molecule K FF) : Prop :=
  keys_unique m ∧ edges_closed m ∧ interactions_closed m ∧ atoms_typed m.

End invariants.

(** ** Reasoning about computations *)

(** From a state in [P], [m] ends with a value and a state in [Q], or with
    an exception and a state in [E]. *)
Definition hoare {S A} (P : S -> Prop) (m : M S A)
    (Q : A -> S -> Prop) (E : error -> S -> Prop) : Prop :=
  ∀ s, P s ->
    match m s with
    | (Ok a, s') => Q a s'
    | (Err e, s') => E e s'
    end.

(** The state keeps its [nrexcl]; an exception is none of the two
    mismatches. *)
Definition keeps_nrexcl {K FF} (v : option Z) (s : Molecule K FF) : Prop :=
  nrexcl s = v.
Definition no_mismatch {K FF} (v : option Z) (e : error)
    (s : Molecule K FF) : Prop :=
  nrexcl s = v ∧ e ≠ ForceFieldMismatch ∧ e ≠ NrexclMismatch.

(** ** Example inputs *)

Module Examples.

(** A block with four named atoms and no interaction. *)
Definition block_abcd : Block string string :=
  mkBlock
    (mkMolecule ∅ None None
       [("a", ∅); ("b", ∅); ("c", ∅); ("d", ∅)] [] [])
    None.

(** A molecule with atoms 1 and 2, both in residue 1. *)
Definition mol_A : Molecule Z string :=
  mkMolecule ∅ None None
    [(1%Z, {["resid" := VInt 1]}); (2%Z, {["resid" := VInt 1]})] [] [].

(** A molecule with the single atom ['x'], in residue 1. *)
Definition mol_B : Molecule string string :=
  mkMolecule ∅ None None [("x", {["resid" := VInt 1]})] [] [].

(** [Molecule(nrexcl=3)] and [Molecule(nrexcl=1)], both without atoms. *)
Definition mol_empty_nrexcl3 : Molecule Z string :=
  Molecule_init ∅ None (Some 3%Z).
Definition mol_empty_nrexcl1 : Molecule string string :=
  Molecule_init ∅ None (Some 1%Z).

(** Two interactions over the same atoms, the first with the default
    version, the second with version 1. *)
Definition bond_v0 : Interaction Z := mkInteraction [1%Z; 2%Z] [] ∅.
Definition bond_v1 : Interaction Z :=
  mkInteraction [1%Z; 2%Z] [] {["version" := VInt 1]}.
Definition mol_bonds : Molecule Z string :=
  mkMolecule ∅ None None
    [(1%Z, {["resid" := VInt 1]}); (2%Z, {["resid" := VInt 1]})] []
    [("bonds", [bond_v0; bond_v1])].

(** Two molecules described for different force fields. *)
Definition mol_ff_a : Molecule Z string :=
  Molecule_init ∅ (Some "ff-a") None.
Definition mol_ff_b : Molecule string string :=
  Molecule_init ∅ (Some "ff-b") None.

(** [Molecule()], and a molecule with [nrexcl] 1 whose one atom has a
    [resid] and a [charge_group]. *)
Definition mol_empty : Molecule Z string := Molecule_init ∅ None None.
Definition mol_C : Molecule string string :=
  mkMolecule ∅ None (Some 1%Z)
    [("y", {["resid" := VInt 5; "charge_group" := VInt 2]})] [] [].

(** A molecule whose one atom has no [resid]; molecules whose one atom
    has a [resid] that is a string, or an attribute named ['self']. *)
Definition mol_no_resid : Molecule Z string :=
  mkMolecule ∅ None None [(1%Z, ∅)] [] [].
Definition mol_resid_str : Molecule string string :=
  mkMolecule ∅ None None [("y", {["resid" := VStr "A"]})] [] [].
Definition mol_attr_self : Molecule string string :=
  mkMolecule ∅ None None [("y", {["self" := VInt 1]})] [] [].

(** An interaction over an atom, and the template with the same atoms. *)
Definition lone : Interaction Z := mkInteraction [1%Z] [] ∅.
Definition lone_template : template Z := TInteraction [1%Z] [] ∅.

(** A [DeleteInteraction] over atoms 1 and 2 that constrains the first
    atom to residue 1. *)
Definition delete_bond : template Z :=
  TDeleteInteraction [1%Z; 2%Z] [{["resid" := Plain (VInt 1)]}] [] ∅.

End Examples.

(** ** More of [Molecule] *)

Section more_molecule.
Context {K FF : Type} `{EqDecision K}.

Local Abbreviation Mol := (Molecule K FF).

(** The test of the loop of [add_or_replace_interaction]:
    [interaction.atoms == tuple(atoms) and
     interaction.meta.get('version', 0) == meta.get('version', 0)] *)
Definition add_or_replace_test (atoms_ : list K)
    (meta_ : gmap string value) (interaction : Interaction K) : bool :=
  bool_decide (atoms interaction = atoms_)
  && py_eq (default (VInt 0) (meta interaction !! "version"))
       (default (VInt 0) (meta_ !! "version")).

(** [add_or_replace_interaction(type_, atoms, parameters, meta=None)]: the
    first interaction with these atoms and this version is overwritten in
    its place; when the loop finds none, the interaction is added. *)
Definition add_or_replace_interaction (type_ : string) (atoms_ : list K)
    (parameters_ : list value) (meta_ : option (gmap string value))
    : M Mol unit :=
  let meta_ := default ∅ meta_ in
  l <- interactions_getitem type_ ;;
  match first_index (add_or_replace_test atoms_ meta_) l with
  | Some idx =>
      let new_interaction := mkInteraction atoms_ parameters_ meta_ in
      interactions_store type_ (<[idx := new_interaction]> l)
  | None => add_interaction type_ atoms_ parameters_ (Some meta_)
  end.


(** [edges_between(n_bunch1, n_bunch2)]: the pairs of
    [itertools.product(n_bunch1, n_bunch2)] that are edges. *)
Definition edges_between (self : Mol) (n_bunch1 n_bunch2 : list K)
    : list (K * K) :=
  List.filter (fun e : K * K => has_edge self e.1 e.2)
    (list_prod n_bunch1 n_bunch2).

(** [Molecule.atoms]: the nodes with their attributes. *)
Definition Molecule_atoms (self : Mol) : list (K * gmap string value) :=
  nodes self.

(** [Block.atoms]: the attributes of the nodes that have some; a node
    without attributes stands for a particle of a neighbouring residue. *)
Definition Block_atoms (self : Block K FF) : list (gmap string value) :=
  omap (fun item : K * gmap string value =>
          if bool_decide (item.2 = ∅) then None else Some item.2)
    (nodes (block_molecule self)).

(** [self.add_edges_from(ebunch)] *)
Definition add_edges_from (ebunch : list (K * K)) : M Mol unit :=
  for_each ebunch (fun e => add_edge e.1 e.2).

(** [zip(atoms[:-1], atoms[1:])] *)
Definition consecutive_pairs {A} (l : list A) : list (A * A) :=
  zip (take (length l - 1) l) (drop 1 l).

(** [Block.make_edges_from_interaction_type(type_)], on the molecule a
    block is. *)
Definition make_edges_from_interaction_type (type_ : string) : M Mol unit :=
  self <- get ;;
  for_each (interactions_get self type_) (fun interaction =>
    if py_truthy (default (VBool true) (meta interaction !! "edge")) then
      add_edges_from (consecutive_pairs (atoms interaction))
    else ret tt).

(** [Block.make_edges_from_interactions()] *)
Definition make_edges_from_interactions : M Mol unit :=
  let known_types := ["bonds"; "angles"; "dihedrals"; "cmap"; "constraints"] in
  for_each known_types make_edges_from_interaction_type.

(** [self.neighbors(n)]: the nodes [n] shares an edge with, in the order
    the edges were added; nothing stands for the NetworkXError raised for
    a node the graph does not hold. *)
Definition neighbors (self : Mol) (n : K) : option (list K) :=
  if Molecule_contains self n then
    Some (omap (fun e : K * K =>
                  if decide (e.1 = n) then Some e.2
                  else if decide (e.2 = n) then Some e.1 else None)
            (edges self))
  else None.

(** [[f(x) for x in l]] flattened, where [f] may raise. *)
Fixpoint option_concat_map {A B} (f : A -> option (list B)) (l : list A)
    : option (list B) :=
  match l with
  | [] => Some []
  | x :: l' =>
      match f x with
      | Some ys =>
          match option_concat_map f l' with
          | Some zs => Some (ys ++ zs)
          | None => None
          end
      | None => None
      end
  end.

(** [list(self.guess_angles())] *)
Definition guess_angles (self : Mol) : option (list (K * K * K)) :=
  option_concat_map (fun a =>
    match neighbors self a with
    | Some nbrs_a =>
        option_concat_map (fun b =>
          match neighbors self b with
          | Some nbrs_b =>
              Some (omap (fun c =>
                            if decide (c = a) then None else Some (a, b, c))
                      nbrs_b)
          | None => None
          end) nbrs_a
    | None => None
    end) (nodes self).*1.

(** [list(self.guess_dihedrals(angles))]; without [angles], those of
    [guess_angles] are taken. *)
Definition guess_dihedrals (self : Mol) (angles : option (list (K * K * K)))
    : option (list (K * K * K * K)) :=
  match (match angles with Some l => Some l | None => guess_angles self end)
  with
  | Some angles_ =>
      option_concat_map (fun abc : K * K * K =>
        let '(a, b, c) := abc in
        match neighbors self c with
        | Some nbrs_c =>
            Some (omap (fun d =>
                          if bool_decide (d = a ∨ d = b) then None
                          else Some (a, b, c, d))
                    nbrs_c)
        | None => None
        end) angles_
  | None => None
  end.

End more_molecule.

(** [Molecule.__getattr__(name)], reached for a [name] that is no
    attribute: what the partial function returned stands for. *)
Inductive accessor : Type :=
| GetInteraction (type_ : string)     (* partial(self.get_interaction, type_) *)
| AddInteraction (type_ : string)     (* partial(self.add_interaction, type_) *)
| RemoveInteraction (type_ : string). (* partial(self.remove_interaction, type_) *)

(** [s[n:]] *)
Fixpoint str_drop (n : nat) (s : string) : string :=
  match n, s with
  | O, _ => s
  | S n', String _ s' => str_drop n' s'
  | S _, EmptyString => EmptyString
  end.

(** [s[:-1]] *)
Fixpoint str_removelast (s : string) : string :=
  match s with
  | EmptyString => EmptyString
  | String a EmptyString => EmptyString
  | String a s' => String a (str_removelast s')
  end.

(** [s.endswith(c)] for a one-character [c] *)
Fixpoint str_endswith_char (c : Ascii.ascii) (s : string) : bool :=
  match s with
  | EmptyString => false
  | String a EmptyString => bool_decide (a = c)
  | String _ s' => str_endswith_char c s'
  end.

(** The character ['s']. *)
Definition char_s : Ascii.ascii := Ascii.ascii_of_nat 115.

Definition Molecule_getattr (name : string) : result accessor :=
  if String.prefix "get_" name && str_endswith_char char_s name then
    Ok (GetInteraction (str_removelast (str_drop 4 name)))
  else if String.prefix "add_" name then
    Ok (AddInteraction (str_drop 4 name))
  else if String.prefix "remove_" name then
    Ok (RemoveInteraction (str_drop 7 name))
  else Err AttributeError.

(** ** [Block.to_molecule] *)

Section to_molecule.
Context {K FF : Type} `{Countable K} `{EqDecision FF}.

(** [self.name] as a value. *)
Definition Block_name_value (self : Block K FF) : value :=
  match name self with
  | Some s => VStr s
  | None => VNone
  end.

(** The loop over [enumerate(self.nodes, start=atom_offset)]. *)
Fixpoint to_molecule_nodes (self : Block K FF) (idx : Z)
    (l : list (K * gmap string value)) (offset_resid offset_charge_group : Z)
    (name_to_idx : gmap K Z) : M (Molecule Z FF) (gmap K Z) :=
  match l with
  | [] => ret name_to_idx
  | (node, atom) :: l' =>
      let name_to_idx := <[node := idx]> name_to_idx in
      let new_atom := atom in
      resid <- lift (py_add (default (VInt 1) (new_atom !! "resid"))
                       (VInt offset_resid)) ;;
      let new_atom := <["resid" := resid]> new_atom in
      let new_atom :=
        <["resname" := default (Block_name_value self) (atom !! "resname")]>
          new_atom in
      charge_group <-
        lift (py_add (default (VInt 1) (new_atom !! "charge_group"))
                (VInt offset_charge_group)) ;;
      let new_atom := <["charge_group" := charge_group]> new_atom in
      add_node idx new_atom ;;;
      to_molecule_nodes self (idx + 1) l' offset_resid offset_charge_group
        name_to_idx
  end.

(** The loops over the interactions and the edges, then [nrexcl]. *)
Definition to_molecule_body (self : Block K FF) (atom_offset : Z)
    (offset_resid offset_charge_group : Z) : M (Molecule Z FF) unit :=
  name_to_idx <-
    to_molecule_nodes self atom_offset (nodes (block_molecule self))
      offset_resid offset_charge_group ∅ ;;
  for_each (interactions (block_molecule self)) (fun item =>
    let '(name, interactions_) := item in
    for_each interactions_ (fun interaction =>
      atoms_ <- lift (result_map (correspondence_getitem name_to_idx)
                        (atoms interaction)) ;;
      add_interaction name atoms_ (parameters interaction) None)) ;;;
  for_each (edges (block_molecule self)) (fun edge =>
    c1 <- lift (correspondence_getitem name_to_idx edge.1) ;;
    c2 <- lift (correspondence_getitem name_to_idx edge.2) ;;
    add_edge c1 c2) ;;;
  modify (set_nrexcl (nrexcl (block_molecule self))).

(** [to_molecule(atom_offset=0, offset_resid=0, offset_charge_group=0,
    force_field=None)]: the molecule built, unless an exception ends the
    call. *)
Definition to_molecule (self : Block K FF) (atom_offset : Z)
    (offset_resid offset_charge_group : Z) (force_field_ : option FF)
    : result (Molecule Z FF) :=
  let force_field_ :=
    match force_field_ with
    | None => force_field (block_molecule self)
    | Some ff => Some ff
    end in
  let mol := Molecule_init ∅ force_field_ None in
  match to_molecule_body self atom_offset offset_resid offset_charge_group mol
  with
  | (Ok _, mol') => Ok mol'
  | (Err e, _) => Err e
  end.

End to_molecule.

(** ** A graph that only gained placeholder nodes and edges *)

(** [s'] is [s] with, at most, more nodes, all without attributes and
    after those of [s], and more edges, after those of [s]; the
    interactions and the rest are those of [s]. *)
Definition graph_extends {K FF} (s s' : Molecule K FF) : Prop :=
  interactions s' = interactions s
  ∧ nrexcl s' = nrexcl s
  ∧ force_field s' = force_field s
  ∧ mol_meta s' = mol_meta s
  ∧ (∃ extra, nodes s' = nodes s ++ extra ∧ ∀ p, p ∈ extra -> p.2 = ∅)
  ∧ (∃ more, edges s' = edges s ++ more).

(** [s'] is [s] but for its interactions. *)
Definition same_graph {K FF} (s s' : Molecule K FF) : Prop :=
  nodes s' = nodes s ∧ edges s' = edges s ∧ nrexcl s' = nrexcl s
  ∧ force_field s' = force_field s ∧ mol_meta s' = mol_meta s.

(** ** Interactions and atoms carried into another molecule *)

Section remap.
Context {K FF : Type} `{Countable K}.

(** An interaction with its atoms renamed by [correspondence] and the
    [meta] given. *)
Definition remap_interaction (correspondence : gmap K Z)
    (meta_ : gmap string value) (interaction : Interaction K)
    : Interaction Z :=
  mkInteraction
    ((fun k => default 0%Z (correspondence !! k)) <$> atoms interaction)
    (parameters interaction) meta_.

(** The loops that carry the interactions of a registry into [self],
    [add_interaction] being called with the [meta] that [meta_of] picks. *)
Definition add_remapped
    (meta_of : Interaction K -> option (gmap string value))
    (correspondence : gmap K Z)
    (registry : list (string * list (Interaction K)))
    : M (Molecule Z FF) unit :=
  for_each registry (fun item =>
    let '(name, interactions_) := item in
    for_each interactions_ (fun interaction =>
      atoms_ <- lift (result_map (correspondence_getitem correspondence)
                        (atoms interaction)) ;;
      add_interaction name atoms_ (parameters interaction)
        (meta_of interaction))).

(** An atom of a block in the molecule made of the block: its attributes,
    with [resid] and [charge_group] (1 when absent) raised by the offsets
    and [resname] set to the name of the block when absent. *)
Definition to_molecule_atom (self : Block K FF)
    (offset_resid offset_charge_group : Z) (attrs : gmap string value)
    : gmap string value :=
  <["charge_group" := VInt (attr_int attrs "charge_group" + offset_charge_group)]>
    (<["resname" := default (Block_name_value self) (attrs !! "resname")]>
       (<["resid" := VInt (attr_int attrs "resid" + offset_resid)]> attrs)).

End remap.

(** ** More example inputs *)

Module MoreExamples.

(** The path 1 - 2 - 3 - 4. *)
Definition path4 : Molecule Z string :=
  mkMolecule ∅ None None
    [(1%Z, ∅); (2%Z, ∅); (3%Z, ∅); (4%Z, ∅)]
    [(1%Z, 2%Z); (2%Z, 3%Z); (3%Z, 4%Z)] [].

(** A block with two atoms, a bond between them that carries a comment,
    and the edge of the bond. *)
Definition block_ab : Block string string :=
  mkBlock
    (mkMolecule ∅ None (Some 3%Z)
       [("a", {["atomname" := VStr "a"]});
        ("b", {["atomname" := VStr "b"; "resid" := VInt 4]})]
       [("a", "b")]
       [("bonds",
         [mkInteraction ["a"; "b"] [VStr "1"]
            {["comment" := VStr "c"]}])])
    (Some "ALA").

End MoreExamples.

(** * Properties *)

(** ** Python values *)

Lemma py_eq_refl v : py_eq v v = true.
Proof.
  destruct v; simpl; try reflexivity; by apply bool_decide_eq_true_2.
Qed.

Lemma py_ne_neq v w : py_ne v w = true -> v ≠ w.
Proof.
  unfold py_ne. intros Hne ->. by rewrite py_eq_refl in Hne.
Qed.

Lemma py_in_spec x values :
  py_in x values = true <-> ∃ e, e ∈ values ∧ py_eq e x = true.
Proof.
  unfold py_in. rewrite existsb_exists.
  split; intros (e & He & Heq); exists e; split; try done;
    by apply list_elem_of_In.
Qed.

(** ** Link predicates *)

(** X3: [Choice(values).match(attributes, key)] is [True] exactly when
    some element of the values equals [attributes.get(key)], which is
    [None] for an absent key. *)
Lemma Choice_match_spec vs (node : gmap string value) key :
  Choice_match vs node key = true <->
  ∃ e, e ∈ vs ∧ py_eq e (default VNone (node !! key)) = true.
Proof. unfold Choice_match. apply py_in_spec. Qed.

(** A key that is absent is looked up as [None], so it matches as soon as
    [None] is one of the values. *)
Lemma Choice_match_absent vs (node : gmap string value) key :
  node !! key = None ->
  Choice_match vs node key = bool_decide (VNone ∈ vs).
Proof.
  intros Hk. apply eq_true_iff_eq. unfold Choice_match.
  rewrite py_in_spec, Hk, bool_decide_eq_true. simpl. split.
  - intros (e & He & Heq). by destruct e.
  - intros He. by exists VNone.
Qed.

(** C5 (the code departs from its docstring, "Test if an attribute is
    defined and in a predefined list"): [Choice([None]).match({}, 'k')]
    is [True] although ['k'] is not a key of the attributes; the spec's
    own two examples, [Choice([1, 2])] on [{'k': 3}] and on [{}], are
    [False]. *)
Theorem Choice_match_absent_key_None_listed :
  (∅ : gmap string value) !! "k" = None
  ∧ Choice_match [VNone] ∅ "k" = true
  ∧ Choice_match [VInt 1; VInt 2] {["k" := VInt 3]} "k" = false
  ∧ Choice_match [VInt 1; VInt 2] ∅ "k" = false.
Proof. repeat split. Qed.

(** C8: [NotDefinedOrNot(value).match(attributes, key)] is [True] exactly
    when [key] is absent from [attributes] or is there with a value [v]
    such that [v != value]; with [None] as the reference an attribute set
    to [None] does not match, and an absent one does. *)
Theorem NotDefinedOrNot_match_spec (reference : value)
    (attributes : gmap string value) (key : string) :
  (NotDefinedOrNot_match reference attributes key = true <->
     attributes !! key = None
     ∨ ∃ v, attributes !! key = Some v ∧ py_ne v reference = true)
  ∧ NotDefinedOrNot_match VNone (<[key := VNone]> attributes) key = false
  ∧ NotDefinedOrNot_match VNone (delete key attributes) key = true.
Proof.
  unfold NotDefinedOrNot_match. split; [|split].
  - destruct (attributes !! key) as [v|]; [|by intuition].
    split.
    + intros Hv. right. by exists v.
    + intros [?|(w & [= <-] & Hw)]; done.
  - by rewrite lookup_insert_eq.
  - by rewrite lookup_delete_eq.
Qed.

(** ** Link parameter effectors *)

Lemma class_getattr_name cls : class_getattr cls "name" = Err AttributeError.
Proof. by destruct cls. Qed.

Lemma LinkParameterEffector_init_unfold {K} (cls : effector_class)
    (keys_ : list K) (format_ : option string) :
  LinkParameterEffector_init cls keys_ format_ =
    match n_keys_asked cls with
    | Some n =>
        if bool_decide (length keys_ = n)
        then Ok (mkEffector cls keys_ format_)
        else Err AttributeError
    | None => Ok (mkEffector cls keys_ format_)
    end.
Proof.
  unfold LinkParameterEffector_init.
  destruct (n_keys_asked cls) as [n|]; [|done].
  case_bool_decide; simpl; [done|].
  by rewrite class_getattr_name.
Qed.

(** C4 (the code departs from its docstring, "Raises ValueError"): with a
    number of keys other than [n_keys_asked] (2 for a distance, 3 for an
    angle, 4 for the two dihedrals), [__init__] raises AttributeError, on
    [self.__class__.name], and not the ValueError it was about to build;
    with that number of keys the instance is made.  So
    [ParamDistance(['a'])] raises AttributeError. *)
Theorem LinkParameterEffector_init_arity :
  (∀ (K : Type) (cls : effector_class) (n : nat) (keys_ : list K)
     (format_ : option string),
     n_keys_asked cls = Some n ->
     LinkParameterEffector_init cls keys_ format_ =
       if bool_decide (length keys_ = n)
       then Ok (mkEffector cls keys_ format_)
       else Err AttributeError)
  ∧ n_keys_asked ParamDistance = Some 2%nat
  ∧ n_keys_asked ParamAngle = Some 3%nat
  ∧ n_keys_asked ParamDihedral = Some 4%nat
  ∧ n_keys_asked ParamDihedralPhase = Some 4%nat
  ∧ LinkParameterEffector_init ParamDistance ["a"] None = Err AttributeError
  ∧ LinkParameterEffector_init ParamDistance ["a"; "b"] None
    = Ok (mkEffector ParamDistance ["a"; "b"] None).
Proof.
  split; [|by repeat split].
  intros K cls n keys_ format_ Hn.
  by rewrite LinkParameterEffector_init_unfold, Hn.
Qed.

(** ** Insertion-ordered dictionaries *)

Section odict_facts.
Context {K V : Type} `{EqDecision K}.
Implicit Types (d : list (K * V)) (k : K) (v : V).

Lemma od_get_None d k : od_get d k = None <-> k ∉ d.*1.
Proof.
  induction d as [|[k' v'] d IH]; simpl.
  - split; [intros _; apply not_elem_of_nil | done].
  - rewrite not_elem_of_cons. destruct (decide (k = k')); [|tauto].
    split; [done | tauto].
Qed.

Lemma od_get_is_Some d k : is_Some (od_get d k) <-> k ∈ d.*1.
Proof.
  rewrite <- not_eq_None_Some, od_get_None.
  destruct (decide (k ∈ d.*1)); tauto.
Qed.

Lemma od_contains_true d k : od_contains d k = true <-> k ∈ d.*1.
Proof. unfold od_contains. apply bool_decide_eq_true. Qed.

Lemma od_get_set_eq d k v : od_get (od_set d k v) k = Some v.
Proof.
  induction d as [|[k' v'] d IH]; simpl.
  - by rewrite decide_True.
  - destruct (decide (k = k')) as [->|Hne]; simpl.
    + by rewrite decide_True.
    + by rewrite decide_False.
Qed.

Lemma od_get_set_ne d k k' v :
  k ≠ k' -> od_get (od_set d k v) k' = od_get d k'.
Proof.
  intros Hne. induction d as [|[k'' v''] d IH]; simpl.
  - by rewrite decide_False.
  - destruct (decide (k = k'')) as [->|Hne']; simpl.
    + by rewrite !decide_False.
    + by rewrite IH.
Qed.

Lemma od_set_set d k v v' : od_set (od_set d k v) k v' = od_set d k v'.
Proof.
  induction d as [|[k' w] d IH]; simpl.
  - by rewrite decide_True.
  - destruct (decide (k = k')) as [->|Hne]; simpl.
    + by rewrite decide_True.
    + by rewrite decide_False, IH.
Qed.

Lemma od_get_app_fresh d k v k' :
  k ∉ d.*1 ->
  od_get (d ++ [(k, v)]) k' = if decide (k' = k) then Some v else od_get d k'.
Proof.
  induction d as [|[k'' w] d IH]; simpl; [done|].
  rewrite not_elem_of_cons. intros [Hne Hnin].
  destruct (decide (k' = k'')) as [->|Hne'].
  - by rewrite decide_False.
  - by apply IH.
Qed.

End odict_facts.

(** ** The interaction registry *)

Section registry_facts.
Context {K FF : Type} `{EqDecision K}.
Implicit Types (self : Molecule K FF).

(** The loop of [add_interaction] over the atoms changes nothing, and
    raises as soon as an atom is not a node. *)
Lemma add_interaction_check self (atoms_ : list K) :
  for_each atoms_ (fun atom =>
    self <- get ;;
    if negb (Molecule_contains self atom) then raise AtomNotFound
    else ret tt) self
  = if forallb (Molecule_contains self) atoms_ then (Ok tt, self)
    else (Err AtomNotFound, self).
Proof.
  induction atoms_ as [|atom atoms_ IH]; simpl; [done|].
  unfold bind at 1. unfold bind at 1. unfold get at 1.
  destruct (Molecule_contains self atom); simpl; [|done].
  apply IH.
Qed.

(** What [self.interactions[type_].append(x)] leaves in the registry. *)
Lemma interactions_append self (type_ : string) (x : Interaction K) :
  (l <- interactions_getitem type_ ;; interactions_store type_ (l ++ [x])) self
  = (Ok tt,
     set_interactions
       (od_set (interactions self) type_ (interactions_get self type_ ++ [x]))
       self).
Proof.
  unfold bind, interactions_getitem, interactions_store, modify,
    interactions_get.
  destruct (od_get (interactions self) type_) as [l|]; simpl; [done|].
  by rewrite od_set_set.
Qed.

Lemma add_interaction_unfold self (type_ : string) (atoms_ : list K) parameters_ meta_ :
  add_interaction type_ atoms_ parameters_ meta_ self
  = if forallb (Molecule_contains self) atoms_ then
      (Ok tt,
       set_interactions
         (od_set (interactions self) type_
            (interactions_get self type_
               ++ [mkInteraction atoms_ parameters_ (default ∅ meta_)]))
         self)
    else (Err AtomNotFound, self).
Proof.
  unfold add_interaction. unfold bind at 1.
  rewrite add_interaction_check.
  destruct (forallb _ _); [|done].
  apply interactions_append.
Qed.

Lemma forallb_contains self (atoms_ : list K) :
  forallb (Molecule_contains self) atoms_ = true <->
  ∀ atom, atom ∈ atoms_ -> atom ∈ (nodes self).*1.
Proof.
  rewrite forallb_forall. unfold Molecule_contains.
  setoid_rewrite od_contains_true. setoid_rewrite list_elem_of_In. done.
Qed.

(** C9: [add_interaction] raises AtomNotFound when an atom is not a node,
    and then the molecule, its registry included, is as it was; when all
    atoms are nodes it succeeds, the list of [type_] is the former list
    with the one entry [Interaction(atoms, parameters, meta or {})] added
    last, the lists of the other types are the same, and so is the graph. *)
Theorem add_interaction_atomic self (type_ : string) (atoms_ : list K)
    (parameters_ : list value) (meta_ : option (gmap string value)) :
  ((∃ atom, atom ∈ atoms_ ∧ atom ∉ (nodes self).*1) ->
     add_interaction type_ atoms_ parameters_ meta_ self
     = (Err AtomNotFound, self))
  ∧ ((∀ atom, atom ∈ atoms_ -> atom ∈ (nodes self).*1) ->
     ∃ self',
       add_interaction type_ atoms_ parameters_ meta_ self = (Ok tt, self')
       ∧ interactions_get self' type_
         = interactions_get self type_
             ++ [mkInteraction atoms_ parameters_ (default ∅ meta_)]
       ∧ (∀ t, t ≠ type_ ->
            od_get (interactions self') t = od_get (interactions self) t)
       ∧ nodes self' = nodes self ∧ edges self' = edges self
       ∧ nrexcl self' = nrexcl self ∧ force_field self' = force_field self
       ∧ mol_meta self' = mol_meta self).
Proof.
  rewrite add_interaction_unfold. split.
  - intros (atom & Hin & Hnot).
    destruct (forallb _ _) eqn:Hall; [|done].
    rewrite forallb_contains in Hall. by destruct Hnot; apply Hall.
  - intros Hall. apply forallb_contains in Hall. rewrite Hall.
    eexists. split; [done|]. simpl. repeat split.
    + unfold interactions_get at 1. simpl. by rewrite od_get_set_eq.
    + intros t Hne. by apply od_get_set_ne.
Qed.

End registry_facts.

(** ** Removing interactions *)

Section remove_facts.
Context {K FF : Type} `{EqDecision K}.
Implicit Types (self : Molecule K FF).

Lemma first_index_None {A} (test : A -> bool) (l : list A) :
  first_index test l = None <-> ∀ x, x ∈ l -> test x = false.
Proof.
  induction l as [|y l IH]; simpl.
  - split; [|done]. intros _ x Hx. by apply elem_of_nil in Hx.
  - destruct (test y) eqn:Hy.
    + split; [done|]. intros Hall.
      rewrite Hall in Hy; [done | apply elem_of_cons; by left].
    + rewrite fmap_None, IH. split.
      * intros Hall x [->|Hx]%elem_of_cons; auto.
      * intros Hall x Hx. apply Hall, elem_of_cons. by right.
Qed.

Lemma first_index_Some {A} (test : A -> bool) (l : list A) idx :
  first_index test l = Some idx ->
  ∃ l1 x l2,
    l = l1 ++ x :: l2 ∧ length l1 = idx ∧ test x = true
    ∧ (∀ y, y ∈ l1 -> test y = false)
    ∧ delete idx l = l1 ++ l2.
Proof.
  revert idx. induction l as [|y l IH]; simpl; intros idx; [done|].
  destruct (test y) eqn:Hy.
  - intros [= <-]. exists [], y, l. repeat split; try done.
    intros z Hz. by apply elem_of_nil in Hz.
  - intros (idx' & Hidx & ->)%fmap_Some.
    destruct (IH idx' Hidx) as (l1 & x & l2 & -> & <- & Hx & Hl1 & Hdel).
    exists (y :: l1), x, l2. repeat split; try done.
    + intros z [->|Hz]%elem_of_cons; auto.
    + simpl. by rewrite Hdel.
Qed.

Lemma remove_interaction_unfold self (type_ : string)
    (atoms_ : sequence K) (version : value) :
  remove_interaction type_ atoms_ version self =
  match first_index (remove_interaction_test atoms_)
          (interactions_get self type_) with
  | None =>
      (Err NoMatchFound,
       match od_get (interactions self) type_ with
       | Some _ => self
       | None => set_interactions (od_set (interactions self) type_ []) self
       end)
  | Some idx =>
      (Ok tt,
       set_interactions
         (od_set (interactions self) type_
            (delete idx (interactions_get self type_))) self)
  end.
Proof.
  unfold remove_interaction, bind, interactions_getitem, interactions_get.
  destruct (od_get (interactions self) type_) as [l|]; simpl; [|done].
  by destruct (first_index _ l).
Qed.

(** C2: an entry with the atoms asked for whose [meta] version is not
    truthy (0, the default, among them) is never the one
    [remove_interaction] removes.  The call either succeeds, and then the
    list lost exactly one entry, with the atoms asked for and a truthy
    version; or it raises NoMatchFound, the list is as it was, and no
    entry with these atoms has a truthy version.  (The atoms of an entry
    are those asked for when the tuple stored equals the argument.) *)
Theorem remove_interaction_keeps_version_0 self (type_ : string)
    (atoms_ : sequence K) (version : value) (e : Interaction K) :
  e ∈ interactions_get self type_ ->
  tuple_eq_seq (atoms e) atoms_ = true ->
  py_truthy (default (VInt 0) (meta e !! "version")) = false ->
  ∃ r self',
    remove_interaction type_ atoms_ version self = (r, self')
    ∧ e ∈ interactions_get self' type_
    ∧ ((r = Ok tt
        ∧ ∃ l1 x l2,
            interactions_get self type_ = l1 ++ x :: l2
            ∧ interactions_get self' type_ = l1 ++ l2
            ∧ tuple_eq_seq (atoms x) atoms_ = true
            ∧ py_truthy (default (VInt 0) (meta x !! "version")) = true)
       ∨ (r = Err NoMatchFound
          ∧ interactions_get self' type_ = interactions_get self type_
          ∧ ∀ x, x ∈ interactions_get self type_ ->
              tuple_eq_seq (atoms x) atoms_ = true ->
              py_truthy (default (VInt 0) (meta x !! "version")) = false)).
Proof.
  intros He Hatoms Hversion. rewrite remove_interaction_unfold.
  destruct (first_index _ _) as [idx|] eqn:Hidx.
  - apply first_index_Some in Hidx
      as (l1 & x & l2 & Hl & _ & Hx & _ & Hdel).
    unfold remove_interaction_test in Hx.
    apply andb_true_iff in Hx as [Hxa Hxv].
    assert (interactions_get
              (set_interactions
                 (od_set (interactions self) type_
                    (delete idx (interactions_get self type_))) self) type_
            = l1 ++ l2) as Hafter.
    { unfold interactions_get at 1. simpl. by rewrite od_get_set_eq, Hdel. }
    eexists _, _. split; [done|]. rewrite Hafter. split.
    + rewrite Hl in He. apply elem_of_app in He as [He|He].
      * apply elem_of_app. by left.
      * apply elem_of_cons in He as [->|He]; [congruence|].
        apply elem_of_app. by right.
    + left. split; [done|]. by exists l1, x, l2.
  - assert (interactions_get
              match od_get (interactions self) type_ with
              | Some _ => self
              | None =>
                  set_interactions (od_set (interactions self) type_ []) self
              end type_
            = interactions_get self type_) as Hafter.
    { unfold interactions_get.
      destruct (od_get (interactions self) type_) eqn:Hget; simpl.
      - by rewrite Hget.
      - by rewrite od_get_set_eq. }
    eexists _, _. split; [done|]. rewrite Hafter. split; [done|].
    right. repeat split.
    intros x Hx Hxa.
    pose proof (proj1 (first_index_None _ _) Hidx x Hx) as Htest.
    unfold remove_interaction_test in Htest.
    by rewrite Hxa in Htest.
Qed.

(** ** Dihedrals and impropers of a block *)

Lemma has_dihedral_around_unfold (self : Block K FF) (center : list K) :
  has_dihedral_around self center =
  match interactions_get (block_molecule self) "dihedrals" with
  | [] => Ok false
  | _ :: _ => Err TypeError
  end.
Proof.
  unfold has_dihedral_around.
  by destruct (interactions_get (block_molecule self) "dihedrals").
Qed.

(** X2: the sibling method reads the atoms as [dih.atoms] and answers:
    [has_improper_around(center)] is [True] exactly when some improper has
    [atoms[1:-1]] equal to the center. *)
Lemma has_improper_around_spec (self : Block K FF) (center : list K) :
  has_improper_around self center = true <->
  ∃ dih, dih ∈ interactions_get (block_molecule self) "impropers"
         ∧ slice_1_m1 (atoms dih) = center.
Proof.
  unfold has_improper_around. rewrite bool_decide_eq_true, list_elem_of_fmap.
  split; intros (dih & ? & ?); by exists dih.
Qed.

End remove_facts.

(** C3 (the code departs from its sibling [has_improper_around], which
    reads [dih.atoms]): [has_dihedral_around] subscripts the namedtuple
    with the string ['atoms'], so it answers [False] when no dihedral is
    recorded and raises TypeError as soon as one is.  On a block with atoms
    a, b, c, d and the dihedral (a, b, c, d) added by [add_interaction],
    asking for the center (b, c) raises, where the same entries recorded
    as impropers give [True]. *)
Theorem has_dihedral_around_raises_TypeError :
  (∀ (K FF : Type) `(EqDecision K) (self : Block K FF) (center : list K),
     has_dihedral_around self center =
     match interactions_get (block_molecule self) "dihedrals" with
     | [] => Ok false
     | _ :: _ => Err TypeError
     end)
  ∧ (let mol :=
       (add_interaction "dihedrals" ["a"; "b"; "c"; "d"] [] None
          (block_molecule Examples.block_abcd)).2 in
     interactions_get mol "dihedrals"
     = [mkInteraction ["a"; "b"; "c"; "d"] [] ∅]
     ∧ has_dihedral_around (mkBlock mol None) ["b"; "c"] = Err TypeError)
  ∧ (let mol :=
       (add_interaction "impropers" ["a"; "b"; "c"; "d"] [] None
          (block_molecule Examples.block_abcd)).2 in
     has_improper_around (mkBlock mol None) ["b"; "c"] = true).
Proof.
  split; [|split].
  - intros. apply has_dihedral_around_unfold.
  - vm_compute. split; reflexivity.
  - vm_compute. reflexivity.
Qed.

(** ** Matching an interaction with a template *)

Lemma attributes_match_empty (attributes : gmap string value) ignore_keys :
  attributes_match attributes ∅ ignore_keys = true.
Proof. unfold attributes_match. by rewrite map_to_list_empty. Qed.

Lemma attributes_match_items_spec (attributes : gmap string value)
    (items : list (string * tvalue)) (ignore_keys : list string) :
  attributes_match_items attributes items ignore_keys = true <->
  ∀ attr tv, (attr, tv) ∈ items -> attr ∉ ignore_keys ->
    match tv with
    | Plain v => py_eq (default VNone (attributes !! attr)) v = true
    | Pred p => LinkPredicate_match p attributes attr = true
    end.
Proof.
  induction items as [|[attr tv] items IH]; simpl.
  - split; [|done]. intros _ attr tv Hin. by apply elem_of_nil in Hin.
  - case_bool_decide as Hign.
    + rewrite IH. split.
      * intros Hall attr' tv' [[= -> ->]|Hin]%elem_of_cons Hnot; [done|].
        by apply Hall.
      * intros Hall attr' tv' Hin. apply Hall, elem_of_cons. by right.
    + assert ((if match tv with
                   | Plain v => py_ne (default VNone (attributes !! attr)) v
                   | Pred p => negb (LinkPredicate_match p attributes attr)
                   end
               then false
               else attributes_match_items attributes items ignore_keys)
              = match tv with
                | Plain v =>
                    if py_ne (default VNone (attributes !! attr)) v then false
                    else attributes_match_items attributes items ignore_keys
                | Pred p =>
                    if negb (LinkPredicate_match p attributes attr) then false
                    else attributes_match_items attributes items ignore_keys
                end) as <- by (by destruct tv).
      destruct (match tv with
                | Plain v => py_ne (default VNone (attributes !! attr)) v
                | Pred p => negb (LinkPredicate_match p attributes attr)
                end) eqn:Hhead.
      * split; [done|]. intros Hall.
        specialize (Hall attr tv (proj2 (elem_of_cons _ _ _) (or_introl eq_refl))
                      Hign).
        unfold py_ne in Hhead. destruct tv; rewrite Hall in Hhead; done.
      * rewrite IH. split.
        -- intros Hall attr' tv' [[= -> ->]|Hin]%elem_of_cons Hnot.
           ++ unfold py_ne in Hhead.
              destruct tv; by apply negb_false_iff in Hhead.
           ++ by apply Hall.
        -- intros Hall attr' tv' Hin. apply Hall, elem_of_cons. by right.
Qed.

(** X1: [attributes_match] asks, of every entry of the template whose key
    is not ignored, that its predicate matches or that its value equals
    [attributes.get(key)]; an empty template matches. *)
Lemma attributes_match_spec (attributes : gmap string value)
    (template_attributes : gmap string tvalue) (ignore_keys : list string) :
  attributes_match attributes template_attributes ignore_keys = true <->
  ∀ attr tv, template_attributes !! attr = Some tv -> attr ∉ ignore_keys ->
    match tv with
    | Plain v => py_eq (default VNone (attributes !! attr)) v = true
    | Pred p => LinkPredicate_match p attributes attr = true
    end.
Proof.
  unfold attributes_match. rewrite attributes_match_items_spec.
  split; intros Hall attr tv Hin; apply Hall; by apply elem_of_map_to_list.
Qed.

Lemma atom_attrs_match_spec pairs :
  atom_attrs_match pairs = true <->
  Forall (fun p => attributes_match p.1 p.2 [] = true) pairs.
Proof.
  induction pairs as [|[atom template_atom] pairs IH]; simpl.
  - split; [by constructor | done].
  - rewrite list.Forall_cons. simpl.
    destruct (attributes_match atom template_atom []); simpl.
    + rewrite IH. tauto.
    + split; [done | by intros [? _]].
Qed.

Section match_facts.
Context {K FF : Type} `{EqDecision K}.

Lemma result_map_od_getitem {V} (d : list (K * V)) (l : list K) :
  (∀ k, k ∈ l -> k ∈ d.*1) ->
  ∃ vs, result_map (od_getitem d) l = Ok vs.
Proof.
  induction l as [|k l IH]; intros Hall; simpl.
  - by exists [].
  - destruct IH as (vs & ->).
    { intros k' Hk'. apply Hall, elem_of_cons. by right. }
    assert (is_Some (od_get d k)) as [v Hv].
    { apply od_get_is_Some, Hall, elem_of_cons. by left. }
    unfold od_getitem at 1. rewrite Hv. simpl. by exists (v :: vs).
Qed.

Lemma result_map_od_getitem_Ok {V} (d : list (K * V)) (l : list K) vs :
  result_map (od_getitem d) l = Ok vs ->
  Forall2 (fun k v => od_get d k = Some v) l vs.
Proof.
  revert vs. induction l as [|k l IH]; intros vs; simpl.
  - intros [= <-]. constructor.
  - unfold od_getitem at 1. destruct (od_get d k) as [v|] eqn:Hv; [|done].
    simpl. destruct (result_map (od_getitem d) l) as [vs'|]; [|done].
    simpl. intros [= <-]. constructor; [done | by apply IH].
Qed.

Lemma result_map_od_getitem_Err {V} (d : list (K * V)) (l : list K) :
  (∃ k, k ∈ l ∧ k ∉ d.*1) ->
  result_map (od_getitem d) l = Err KeyError.
Proof.
  induction l as [|k l IH]; intros (k' & Hin & Hout); simpl.
  - by apply elem_of_nil in Hin.
  - unfold od_getitem at 1. destruct (od_get d k) as [v|] eqn:Hv; [|done].
    simpl. rewrite IH; [done|].
    apply elem_of_cons in Hin as [->|Hin]; [|by exists k'].
    exfalso. apply Hout, od_get_is_Some. by exists v.
Qed.

(** With the same atoms and matching parameters, the atoms are looked up
    in the molecule, and one that is not a node raises KeyError. *)
Lemma interaction_match_missing_atom (molecule : Molecule K FF)
    (interaction : Interaction K) (t : template K) :
  template_atoms t = atoms interaction ->
  template_parameters t = []
  ∨ py_seq_eq (template_parameters t) (parameters interaction) = true ->
  (∃ atom, atom ∈ atoms interaction ∧ atom ∉ (nodes molecule).*1) ->
  interaction_match molecule interaction t = Err KeyError.
Proof.
  intros Hatoms Hparams Hmissing. unfold interaction_match.
  rewrite (bool_decide_eq_true_2 _ Hatoms). simpl.
  assert (bool_decide (template_parameters t = [])
          || py_seq_eq (template_parameters t) (parameters interaction)
          = true) as ->.
  { apply orb_true_iff. destruct Hparams as [Hp|Hp]; [left|right]; [|done].
    by apply bool_decide_eq_true. }
  by rewrite (result_map_od_getitem_Err _ _ Hmissing).
Qed.

(** Without the same atoms in the same order the answer is [False], and
    no node is looked up. *)
Lemma interaction_match_atoms_differ (molecule : Molecule K FF)
    (interaction : Interaction K) (t : template K) :
  template_atoms t ≠ atoms interaction ->
  interaction_match molecule interaction t = Ok false.
Proof.
  intros Hne. unfold interaction_match.
  by rewrite bool_decide_eq_false_2.
Qed.

(** [True] is only returned after every atom was found. *)
Lemma interaction_match_true_found (molecule : Molecule K FF)
    (interaction : Interaction K) (t : template K) :
  interaction_match molecule interaction t = Ok true ->
  ∃ nodes_,
    result_map (od_getitem (nodes molecule)) (atoms interaction) = Ok nodes_.
Proof.
  unfold interaction_match. destruct (_ && _); [|done].
  destruct (result_map _ _) as [nodes_|]; [by exists nodes_ | done].
Qed.

(** Once the atoms are found, the answer is a boolean that says whether
    the four conditions hold. *)
Lemma interaction_match_found (molecule : Molecule K FF)
    (interaction : Interaction K) (t : template K) nodes_ :
  result_map (od_getitem (nodes molecule)) (atoms interaction) = Ok nodes_ ->
  ∃ b,
    interaction_match molecule interaction t = Ok b
    ∧ (b = true <-> interaction_match_conditions molecule interaction t).
Proof.
  intros Hfound. unfold interaction_match_conditions.
  apply result_map_od_getitem_Ok in Hfound as Hnodes.
  destruct (decide (template_atoms t = atoms interaction)) as [Ha|Ha]; cycle 1.
  { exists false. split; [by apply interaction_match_atoms_differ|].
    split; [done | by intros [? _]]. }
  unfold interaction_match. rewrite (bool_decide_eq_true_2 _ Ha). simpl.
  destruct (bool_decide (template_parameters t = [])
            || py_seq_eq (template_parameters t) (parameters interaction))
    eqn:Hp; cycle 1.
  { exists false. split; [done|]. split; [done|].
    intros (_ & Hp' & _). apply orb_false_iff in Hp as [Hp1 Hp2].
    destruct Hp' as [Hp'|Hp'].
    - by rewrite (bool_decide_eq_true_2 _ Hp') in Hp1.
    - by rewrite Hp' in Hp2. }
  assert (template_parameters t = []
          ∨ py_seq_eq (template_parameters t) (parameters interaction) = true)
    as Hp'.
  { apply orb_true_iff in Hp as [Hp%bool_decide_eq_true|Hp]; auto. }
  rewrite Hfound. simpl.
  set (aa := match template_atom_attrs t with
             | Ok aa => aa
             | Err _ => replicate (length (template_atoms t)) ∅
             end).
  assert (atom_attrs_match (zip nodes_ aa) = true <->
          ∀ atom_attrs, template_atom_attrs t = Ok atom_attrs ->
            ∀ (j : nat) atom constraints node,
              atoms interaction !! j = Some atom ->
              atom_attrs !! j = Some constraints ->
              od_get (nodes molecule) atom = Some node ->
              attributes_match node constraints [] = true) as Hc.
  { rewrite atom_attrs_match_spec, Forall_lookup. split.
    - intros Hall atom_attrs Haa j atom constraints node Hj Hcj Hnode.
      subst aa. rewrite Haa in Hall.
      destruct (Forall2_lookup_l _ _ _ _ _ Hnodes Hj) as (node' & Hj' & Hget).
      assert (node' = node) as -> by congruence.
      apply (Hall j (node, constraints)).
      rewrite lookup_zip_with, Hj'. simpl. by rewrite Hcj.
    - intros Hall j [node constraints] Hj. simpl.
      rewrite lookup_zip_with in Hj.
      destruct (nodes_ !! j) as [node'|] eqn:Hj'; [|done]. simpl in Hj.
      destruct (aa !! j) as [constraints'|] eqn:Hcj; [|done].
      simpl in Hj. injection Hj as -> ->.
      destruct (Forall2_lookup_r _ _ _ _ _ Hnodes Hj') as (atom & Hatom & Hget).
      subst aa. destruct (template_atom_attrs t) as [atom_attrs|] eqn:Haa.
      + by eapply Hall.
      + apply lookup_replicate in Hcj as [-> _].
        apply attributes_match_empty. }
  destruct (atom_attrs_match (zip nodes_ aa)) eqn:Hzip.
  - exists (attributes_match (meta interaction) (template_meta t) []).
    split; [done|]. split.
    + intros Hd. repeat split; try done. by apply Hc.
    + by intros (_ & _ & _ & Hd).
  - exists false. split; [done|]. split; [done|].
    intros (_ & _ & Hc' & _). apply Hc in Hc'. done.
Qed.

(** C7, amended: [interaction_match] returns [True] only when the four
    conditions hold: (a) the atoms of the template are those of the
    interaction, in the same order; (b) the parameters of the template are
    empty or equal those of the interaction; (c) for a
    [DeleteInteraction], the constraints at each position of [atom_attrs]
    match, by [attributes_match], the attributes of the atom at that
    position; (d) the [meta] of the interaction matches the [meta] of the
    template by [attributes_match].  When the atoms differ, be it in their
    order only, it returns [False].  For an interaction whose atoms are
    nodes of the molecule (the molecule "contains the interaction") it
    returns a boolean, which is [True] exactly when the four conditions
    hold.  When (a) and (b) hold and an atom of the interaction is not a
    node of the molecule, it raises KeyError. *)
Theorem interaction_match_spec (molecule : Molecule K FF)
    (interaction : Interaction K) (t : template K) :
  (interaction_match molecule interaction t = Ok true ->
     interaction_match_conditions molecule interaction t)
  ∧ (template_atoms t ≠ atoms interaction ->
     interaction_match molecule interaction t = Ok false)
  ∧ ((∀ atom, atom ∈ atoms interaction -> atom ∈ (nodes molecule).*1) ->
     ∃ b,
       interaction_match molecule interaction t = Ok b
       ∧ (b = true <-> interaction_match_conditions molecule interaction t))
  ∧ (template_atoms t = atoms interaction ->
     template_parameters t = []
     ∨ py_seq_eq (template_parameters t) (parameters interaction) = true ->
     (∃ atom, atom ∈ atoms interaction ∧ atom ∉ (nodes molecule).*1) ->
     interaction_match molecule interaction t = Err KeyError).
Proof.
  split; [|split; [|split]].
  - intros Htrue.
    destruct (interaction_match_true_found _ _ _ Htrue) as (nodes_ & Hfound).
    destruct (interaction_match_found _ _ t _ Hfound) as (b & Hrun & Hiff).
    rewrite Htrue in Hrun. injection Hrun as <-. by apply Hiff.
  - apply interaction_match_atoms_differ.
  - intros Hin.
    destruct (result_map_od_getitem (nodes molecule) (atoms interaction) Hin)
      as (nodes_ & Hfound).
    by apply (interaction_match_found _ _ t nodes_).
  - apply interaction_match_missing_atom.
Qed.

End match_facts.

(** ** Computations *)

Section hoare_facts.
Context {S : Type}.
Implicit Types (P : S -> Prop) (E : error -> S -> Prop).

Lemma hoare_ret {A} (a : A) (Q : A -> S -> Prop) E :
  hoare (Q a) (ret a) Q E.
Proof. by intros s Hs. Qed.

Lemma hoare_raise {A} e (Q : A -> S -> Prop) E :
  hoare (E e) (raise e) Q E.
Proof. by intros s Hs. Qed.

Lemma hoare_lift {A} (r : result A) P :
  hoare P (lift r) (fun a s => r = Ok a ∧ P s) (fun e s => r = Err e ∧ P s).
Proof. intros s Hs. unfold lift. by destruct r. Qed.

Lemma hoare_get P E :
  hoare P get (fun a s => a = s ∧ P s) E.
Proof. by intros s Hs. Qed.

Lemma hoare_modify (f : S -> S) (Q : unit -> S -> Prop) E :
  hoare (fun s => Q tt (f s)) (modify f) Q E.
Proof. by intros s Hs. Qed.

Lemma hoare_bind {A B} P (m : M S A) (Q : A -> S -> Prop) E
    (k : A -> M S B) (R : B -> S -> Prop) :
  hoare P m Q E -> (∀ a, hoare (Q a) (k a) R E) -> hoare P (bind m k) R E.
Proof.
  intros Hm Hk s Hs. unfold bind. specialize (Hm s Hs).
  destruct (m s) as [[a|e] s']; [by apply Hk | done].
Qed.

Lemma hoare_conseq {A} P P' (m : M S A) (Q Q' : A -> S -> Prop) E E' :
  hoare P m Q E ->
  (∀ s, P' s -> P s) -> (∀ a s, Q a s -> Q' a s) -> (∀ e s, E e s -> E' e s) ->
  hoare P' m Q' E'.
Proof.
  intros Hm HP HQ HE s Hs. specialize (Hm s (HP s Hs)).
  destruct (m s) as [[a|e] s']; auto.
Qed.

(** A loop keeps what each turn keeps. *)
Lemma hoare_for_each {A} (I : S -> Prop) E (l : list A) (body : A -> M S unit) :
  (∀ x, x ∈ l -> hoare I (body x) (fun _ => I) E) ->
  hoare I (for_each l body) (fun _ => I) E.
Proof.
  induction l as [|x l IH]; intros Hbody; simpl.
  - by intros s Hs.
  - eapply hoare_bind.
    + apply Hbody, elem_of_cons. by left.
    + intros u. apply IH. intros y Hy. apply Hbody, elem_of_cons. by right.
Qed.

(** A computation that cannot raise gives a value. *)
Lemma hoare_total {A} P (m : M S A) (Q : A -> S -> Prop) s :
  hoare P m Q (fun _ _ => False) -> P s ->
  ∃ a s', m s = (Ok a, s') ∧ Q a s'.
Proof.
  intros Hm Hs. specialize (Hm s Hs).
  destruct (m s) as [[a|e] s']; [by exists a, s' | done].
Qed.

End hoare_facts.

(** ** Merging molecules *)

Lemma py_add_int (attrs : gmap string value) key (off : Z) :
  int_or_absent attrs key ->
  py_add (default (VInt 1) (attrs !! key)) (VInt off)
  = Ok (VInt (attr_int attrs key + off)).
Proof.
  unfold attr_int. by intros [->|[z ->]].
Qed.

Lemma py_max_upper (l : list Z) (x : Z) :
  x ∈ l -> (∀ k, k ∈ l -> (k ≤ x)%Z) -> py_max l = Ok x.
Proof.
  destruct l as [|y l]; [by intros ?%elem_of_nil|]. simpl.
  revert y. induction l as [|z l IH]; intros y Hx Hle; simpl.
  - apply list_elem_of_singleton in Hx. by subst.
  - assert (y ≤ x)%Z as Hy by (apply Hle, elem_of_cons; by left).
    assert (z ≤ x)%Z as Hz.
    { apply Hle, elem_of_cons. right. apply elem_of_cons. by left. }
    apply IH.
    + apply elem_of_cons in Hx as [->|Hx]; [apply elem_of_cons; left; lia|].
      apply elem_of_cons in Hx as [->|Hx]; [apply elem_of_cons; left; lia|].
      apply elem_of_cons. by right.
    + intros k [->|Hk]%elem_of_cons; [lia|].
      apply Hle, elem_of_cons. right. apply elem_of_cons. by right.
Qed.

Lemma od_get_NoDup {K V} `{EqDecision K} (d : list (K * V)) k v :
  NoDup d.*1 -> (k, v) ∈ d -> od_get d k = Some v.
Proof.
  induction d as [|[k' v'] d IH]; simpl; [by intros _ ?%elem_of_nil|].
  intros [Hnin Hnd]%list.NoDup_cons [[= -> ->]|Hin]%elem_of_cons.
  - by rewrite decide_True.
  - rewrite decide_False; [by apply IH|].
    intros ->. apply Hnin. apply list_elem_of_fmap. by exists (k', v).
Qed.

Section merge_facts.
Context {K FF : Type} `{Countable K} `{EqDecision FF}.
Implicit Types (self : Molecule Z FF) (other : Molecule K FF).

Lemma keyword_clash_merged_atom (roff cgoff : Z) (attrs : gmap string value) :
  keyword_clash (merged_atom roff cgoff attrs) = keyword_clash attrs.
Proof.
  unfold keyword_clash, merged_atom. simpl.
  by rewrite !lookup_insert_ne by done.
Qed.

(** The nodes added for the atoms [l], numbered from [idx] on. *)
Lemma merge_nodes_spec (roff cgoff : Z) (l : list (K * gmap string value)) :
  ∀ (idx : Z) (corr : gmap K Z) self,
    (∀ k, k ∈ (nodes self).*1 -> (k < idx)%Z) ->
    (∀ k attrs, (k, attrs) ∈ l ->
       int_or_absent attrs "resid" ∧ int_or_absent attrs "charge_group") ->
    (∀ k attrs, (k, attrs) ∈ l -> keyword_clash attrs = false) ->
    NoDup l.*1 ->
    ∃ corr',
      merge_nodes idx l (VInt roff) (VInt cgoff) corr self
      = (Ok corr',
         set_nodes
           (nodes self
              ++ imap (fun i ka => ((idx + Z.of_nat i)%Z,
                                    merged_atom roff cgoff ka.2)) l)
           self)
      ∧ (∀ k, k ∉ l.*1 -> corr' !! k = corr !! k)
      ∧ (∀ (i : nat) k,
           l.*1 !! i = Some k -> corr' !! k = Some (idx + Z.of_nat i)%Z).
Proof.
  induction l as [|[k attrs] l IH]; intros idx corr self Hlt Htyped Hpass Hnd.
  - exists corr. simpl. rewrite app_nil_r. split; [by destruct self|].
    split; [done|]. intros i k Hi. by rewrite lookup_nil in Hi.
  - simpl in Hnd. apply list.NoDup_cons in Hnd as [Hk Hnd].
    destruct (Htyped k attrs) as [Hr Hc]; [apply elem_of_cons; by left|].
    simpl. unfold bind at 1. unfold lift at 1.
    rewrite (py_add_int _ _ _ Hr).
    unfold bind at 1. unfold lift at 1.
    rewrite lookup_insert_ne by done.
    rewrite (py_add_int _ _ _ Hc).
    fold (merged_atom roff cgoff attrs).
    unfold bind at 1. unfold add_node at 1.
    rewrite keyword_clash_merged_atom, (Hpass k attrs)
      by (apply elem_of_cons; by left).
    unfold modify at 1.
    assert (od_get (nodes self) idx = None) as ->.
    { apply od_get_None. intros Hin. apply Hlt in Hin. lia. }
    edestruct (IH (idx + 1)%Z (<[k:=idx]> corr)
                 (set_nodes (nodes self ++ [(idx, merged_atom roff cgoff attrs)])
                    self)) as (corr' & -> & Hout & Hin).
    { simpl. intros k'. rewrite fmap_app, elem_of_app. simpl.
      intros [Hk'|Hk'%list_elem_of_singleton]; [apply Hlt in Hk'|]; lia. }
    { intros k' attrs' Hin. apply (Htyped k' attrs'), elem_of_cons. by right. }
    { intros k' attrs' Hin. apply (Hpass k' attrs'), elem_of_cons. by right. }
    { done. }
    exists corr'. split; [|split].
    + f_equal. unfold set_nodes. simpl. f_equal.
      rewrite <- app_assoc. simpl. f_equal. f_equal.
      * f_equal. lia.
      * apply imap_ext. intros i ka _. simpl. f_equal. lia.
    + intros k' Hk'. simpl in Hk'. apply not_elem_of_cons in Hk' as [Hne Hk'].
      rewrite Hout by done. by rewrite lookup_insert_ne.
    + intros [|i] k' Hi; simpl in Hi.
      * injection Hi as <-. rewrite Hout by done.
        rewrite lookup_insert_eq. f_equal. lia.
      * rewrite (Hin i k' Hi). f_equal. lia.
Qed.

Lemma py_add_Err a b e : py_add a b = Err e -> e = TypeError.
Proof.
  unfold py_add.
  destruct (py_num a), (py_num b), a, b; simpl; intros [=]; done.
Qed.

Lemma result_map_Err {A B} (f : A -> result B) (l : list A) e :
  result_map f l = Err e -> ∃ x, x ∈ l ∧ f x = Err e.
Proof.
  induction l as [|x l IH]; simpl; [done|].
  destruct (f x) as [y|e'] eqn:Hx; simpl.
  - destruct (result_map f l) as [ys|e'']; simpl; [done|].
    intros [= ->]. destruct IH as (x' & Hin & Hx'); [done|].
    exists x'. split; [apply elem_of_cons; by right | done].
  - intros [= ->]. exists x. split; [apply elem_of_cons; by left | done].
Qed.

Lemma result_map_Ok {A B} (f : A -> result B) (P : B -> Prop) (l : list A) :
  (∀ x, x ∈ l -> ∃ y, f x = Ok y ∧ P y) ->
  ∃ ys, result_map f l = Ok ys ∧ ∀ y, y ∈ ys -> P y.
Proof.
  induction l as [|x l IH]; intros Hall; simpl.
  - exists []. split; [done|]. by intros y ?%elem_of_nil.
  - destruct (Hall x) as (y & -> & Hy); [apply elem_of_cons; by left|].
    destruct IH as (ys & -> & Hys).
    { intros x' Hx'. apply Hall, elem_of_cons. by right. }
    exists (y :: ys). split; [done|].
    intros y' [->|Hy']%elem_of_cons; auto.
Qed.

Lemma correspondence_getitem_Err (corr : gmap K Z) node e :
  correspondence_getitem corr node = Err e -> e = KeyError.
Proof.
  unfold correspondence_getitem. destruct (corr !! node); by intros [=].
Qed.

Lemma merge_offsets_Err self e :
  merge_offsets self = Err e -> e = ValueError ∨ e = KeyError.
Proof.
  unfold merge_offsets. case_bool_decide; simpl; [done|].
  destruct (py_max _) as [last|e'] eqn:Hmax; simpl.
  - unfold od_getitem. destruct (od_get _ _) as [last_node|]; simpl.
    + destruct (last_node !! "resid"); simpl; intros [=]; auto.
    + intros [=]; auto.
  - intros [= <-]. left. unfold py_max in Hmax.
    destruct (nodes self).*1; by simplify_eq.
Qed.

(** *** What a merge leaves of [nrexcl], and what it may raise *)

Section nrexcl_frame.
Context (v : option Z).

Lemma hoare_nrexcl_lift {A} (r : result A) :
  (∀ e, r = Err e -> e ≠ ForceFieldMismatch ∧ e ≠ NrexclMismatch) ->
  hoare (keeps_nrexcl (K:=Z) (FF:=FF) v) (lift r)
    (fun _ => keeps_nrexcl v) (no_mismatch v).
Proof.
  intros Hr s Hs. unfold lift. destruct r as [a|e]; [done|].
  split; [done | by apply Hr].
Qed.

Lemma hoare_nrexcl_add_node n attr :
  hoare (keeps_nrexcl (K:=Z) (FF:=FF) v) (add_node n attr)
    (fun _ => keeps_nrexcl v) (no_mismatch v).
Proof.
  intros s Hs. unfold add_node, raise, modify, keeps_nrexcl.
  destruct (keyword_clash attr); [by repeat split|].
  by destruct (od_get (nodes s) n).
Qed.

Lemma hoare_nrexcl_add_edge (u w : Z) :
  hoare (keeps_nrexcl (K:=Z) (FF:=FF) v) (add_edge u w)
    (fun _ => keeps_nrexcl v) (no_mismatch v).
Proof.
  intros s Hs. unfold add_edge, modify, keeps_nrexcl.
  repeat (case_match; simpl); done.
Qed.

Lemma hoare_nrexcl_add_interaction type_ (atoms_ : list Z) parameters_ meta_ :
  hoare (keeps_nrexcl (K:=Z) (FF:=FF) v)
    (add_interaction type_ atoms_ parameters_ meta_)
    (fun _ => keeps_nrexcl v) (no_mismatch v).
Proof.
  intros s Hs. rewrite add_interaction_unfold.
  destruct (forallb _ _); [done|]. by repeat split.
Qed.

Lemma hoare_nrexcl_merge_nodes l :
  ∀ idx roff cgoff (corr : gmap K Z),
    hoare (keeps_nrexcl (FF:=FF) v) (merge_nodes idx l roff cgoff corr)
      (fun _ => keeps_nrexcl v) (no_mismatch v).
Proof.
  induction l as [|[k attrs] l IH]; intros idx roff cgoff corr; simpl.
  - by intros s Hs.
  - eapply hoare_bind.
    { apply hoare_nrexcl_lift. intros e ->%py_add_Err. done. }
    intros resid. eapply hoare_bind.
    { apply hoare_nrexcl_lift. intros e ->%py_add_Err. done. }
    intros charge_group. eapply hoare_bind.
    { apply hoare_nrexcl_add_node. }
    intros u. apply IH.
Qed.

Lemma hoare_nrexcl_merge_interactions other (corr : gmap K Z) :
  hoare (keeps_nrexcl (FF:=FF) v) (merge_interactions other corr)
    (fun _ => keeps_nrexcl v) (no_mismatch v).
Proof.
  apply hoare_for_each. intros [type_ l] _.
  apply hoare_for_each. intros interaction _.
  eapply hoare_bind.
  { apply hoare_nrexcl_lift.
    intros e (atom & _ & ->%correspondence_getitem_Err)%result_map_Err.
    done. }
  intros atoms_. apply hoare_nrexcl_add_interaction.
Qed.

Lemma hoare_nrexcl_merge_edges other (corr : gmap K Z) :
  hoare (keeps_nrexcl (FF:=FF) v) (merge_edges other corr)
    (fun _ => keeps_nrexcl v) (no_mismatch v).
Proof.
  apply hoare_for_each. intros [node1 node2] _.
  eapply hoare_bind.
  { apply hoare_nrexcl_lift. intros e ->%correspondence_getitem_Err. done. }
  intros c1. eapply hoare_bind.
  { apply hoare_nrexcl_lift. intros e ->%correspondence_getitem_Err. done. }
  intros c2. destruct (negb _); [apply hoare_nrexcl_add_edge | by intros s Hs].
Qed.

Lemma hoare_nrexcl_merge_body other :
  hoare (keeps_nrexcl (FF:=FF) v) (merge_body other)
    (fun _ => keeps_nrexcl v) (no_mismatch v).
Proof.
  unfold merge_body. eapply hoare_bind; [apply hoare_get|].
  intros self.
  eapply (hoare_conseq (keeps_nrexcl v) _ _ (fun _ => keeps_nrexcl v) _
            (no_mismatch v) _); [| by intros s [_ Hs] | done | done].
  eapply hoare_bind.
  { apply hoare_nrexcl_lift. intros e [->| ->]%merge_offsets_Err; done. }
  intros [[offset residue_offset] offset_charge_group].
  eapply hoare_bind; [apply hoare_nrexcl_merge_nodes|].
  intros correspondence.
  eapply hoare_bind; [apply hoare_nrexcl_merge_interactions|].
  intros u1.
  eapply hoare_bind; [apply hoare_nrexcl_merge_edges|].
  by intros u2 s Hs.
Qed.

End nrexcl_frame.

(** *** A merge of a well-formed molecule succeeds *)

Lemma bind_Ok {S A B} (m : M S A) (k : A -> M S B) s a s' :
  m s = (Ok a, s') -> bind m k s = k a s'.
Proof. unfold bind. by intros ->. Qed.

Lemma hoare_nodes_merge_interactions other (corr : gmap K Z)
    (N : list (Z * gmap string value)) :
  (∀ type_ l interaction atom,
     (type_, l) ∈ interactions other -> interaction ∈ l ->
     atom ∈ atoms interaction -> ∃ z, corr !! atom = Some z ∧ z ∈ N.*1) ->
  hoare (fun s : Molecule Z FF => nodes s = N)
    (merge_interactions other corr)
    (fun _ s => nodes s = N) (fun _ _ => False).
Proof.
  intros Hclosed. apply hoare_for_each. intros [type_ l] Hl.
  apply hoare_for_each. intros interaction Hi s Hs.
  destruct (result_map_Ok (correspondence_getitem corr) (fun z => z ∈ N.*1)
              (atoms interaction)) as (zs & Hzs & Hin).
  { intros atom Hatom.
    destruct (Hclosed type_ l interaction atom Hl Hi Hatom) as (z & Hz & HzN).
    exists z. unfold correspondence_getitem. by rewrite Hz. }
  unfold bind at 1, lift at 1. rewrite Hzs, add_interaction_unfold.
  rewrite (proj2 (forallb_contains s zs)); [done|].
  intros atom Hatom. rewrite Hs. by apply Hin.
Qed.

Lemma hoare_nodes_merge_edges other (corr : gmap K Z)
    (N : list (Z * gmap string value)) :
  (∀ node, (∃ node', (node, node') ∈ edges other ∨ (node', node) ∈ edges other) ->
     ∃ z, corr !! node = Some z ∧ z ∈ N.*1) ->
  hoare (fun s : Molecule Z FF => nodes s = N)
    (merge_edges other corr)
    (fun _ s => nodes s = N) (fun _ _ => False).
Proof.
  intros Hclosed. apply hoare_for_each. intros [node1 node2] Hedge s Hs.
  destruct (Hclosed node1) as (z1 & Hz1 & Hin1); [exists node2; by left|].
  destruct (Hclosed node2) as (z2 & Hz2 & Hin2); [exists node1; by right|].
  unfold bind, lift, correspondence_getitem. rewrite Hz1, Hz2.
  destruct (negb _); [|done].
  unfold add_edge, modify, Molecule_contains.
  rewrite (proj2 (od_contains_true (nodes s) z1)) by (by rewrite Hs).
  rewrite (proj2 (od_contains_true (nodes s) z2)) by (by rewrite Hs).
  by destruct (has_edge s z1 z2).
Qed.

Lemma merge_body_spec self other (offset roff cgoff : Z) :
  merge_offsets self = Ok (offset, VInt roff, VInt cgoff) ->
  (∀ k, k ∈ (nodes self).*1 -> (k ≤ offset)%Z) ->
  Molecule_wf other ->
  atoms_passable other ->
  ∃ corr self',
    merge_body other self = (Ok corr, self')
    ∧ nodes self'
      = nodes self
          ++ imap (fun i ka => ((offset + 1 + Z.of_nat i)%Z,
                                merged_atom roff cgoff ka.2)) (nodes other)
    ∧ (∀ (i : nat) k, (nodes other).*1 !! i = Some k ->
         corr !! k = Some (offset + 1 + Z.of_nat i)%Z)
    ∧ (∀ k, k ∉ (nodes other).*1 -> corr !! k = None).
Proof.
  intros Hoff Hle (Hnd & Hedges & Hints & Htyped) Hpass.
  destruct (merge_nodes_spec roff cgoff (nodes other) (offset + 1)%Z ∅ self)
    as (corr & Hnodes & Hout & Hin);
    [| exact Htyped | exact Hpass | exact Hnd |].
  { intros k Hk. apply Hle in Hk. lia. }
  set (N := nodes self
              ++ imap (fun i ka => ((offset + 1 + Z.of_nat i)%Z,
                                    merged_atom roff cgoff ka.2))
                   (nodes other)) in *.
  assert (∀ node, node ∈ (nodes other).*1 ->
            ∃ z, corr !! node = Some z ∧ z ∈ N.*1) as Hmapped.
  { intros node (i & Hi)%list_elem_of_lookup_1.
    exists (offset + 1 + Z.of_nat i)%Z. split; [by apply Hin|].
    subst N. rewrite fmap_app, elem_of_app. right.
    rewrite list_lookup_fmap in Hi.
    destruct (nodes other !! i) as [[k attrs]|] eqn:Hi'; [|done].
    apply list_elem_of_fmap.
    exists ((offset + 1 + Z.of_nat i)%Z, merged_atom roff cgoff attrs).
    split; [done|]. apply list_elem_of_lookup_2 with i.
    by rewrite list_lookup_imap, Hi'. }
  destruct (hoare_total _ _ _
              (set_nodes N self)
              (hoare_nodes_merge_interactions other corr N
                 (fun type_ l interaction atom Hl Hi Ha =>
                    Hmapped atom (Hints type_ l interaction atom Hl Hi Ha)))
              eq_refl) as ([] & s2 & Hs2 & HN2).
  destruct (hoare_total _ _ _ s2
              (hoare_nodes_merge_edges other corr N
                 (fun node Hnode => Hmapped node
                    match Hnode with
                    | ex_intro _ node' (or_introl He) => proj1 (Hedges _ _ He)
                    | ex_intro _ node' (or_intror He) => proj2 (Hedges _ _ He)
                    end))
              HN2) as ([] & s3 & Hs3 & HN3).
  exists corr, s3. split; [|split; [done|split; [done|]]].
  - unfold merge_body. unfold bind at 1. unfold get at 1.
    unfold bind at 1. unfold lift at 1. rewrite Hoff.
    rewrite (bind_Ok _ _ _ _ _ Hnodes).
    rewrite (bind_Ok _ _ _ _ _ Hs2).
    by rewrite (bind_Ok _ _ _ _ _ Hs3).
  - intros k Hk. rewrite Hout by done. apply lookup_empty.
Qed.

(** *** The checks at the head of [merge_molecule] *)

Lemma merge_molecule_unfold self other :
  merge_molecule other self =
  if bool_decide (force_field self = force_field other) then
    let self1 :=
      if bool_decide (nrexcl self = None)
         && bool_decide (length (nodes self) = 0%nat)
      then set_nrexcl (nrexcl other) self else self in
    if bool_decide (nrexcl self1 = nrexcl other) then merge_body other self1
    else (Err NrexclMismatch, self1)
  else (Err ForceFieldMismatch, self).
Proof.
  unfold merge_molecule, bind, get.
  destruct (bool_decide (force_field self = force_field other)); [|done].
  simpl.
  destruct (bool_decide (nrexcl self = None)
            && bool_decide (length (nodes self) = 0%nat)); simpl.
  - unfold modify. by destruct (bool_decide (_ = _)).
  - unfold ret. by destruct (bool_decide (_ = _)).
Qed.

(** A molecule without atoms and with [nrexcl] unset takes the [nrexcl]
    of the other molecule, and the merge goes on. *)
Lemma merge_molecule_adopts self other :
  force_field self = force_field other ->
  nrexcl self = None -> nodes self = [] ->
  merge_molecule other self
  = merge_body other (set_nrexcl (nrexcl other) self).
Proof.
  intros Hff Hnone Hempty.
  rewrite merge_molecule_unfold, (bool_decide_eq_true_2 _ Hff). simpl.
  rewrite (bool_decide_eq_true_2 _ Hnone), Hempty. simpl.
  by rewrite bool_decide_eq_true_2.
Qed.

(** C6, amended: with different force fields the merge raises
    ForceFieldMismatch and [self] is as it was; with the same force field
    and different [nrexcl] it raises NrexclMismatch, [self] unchanged,
    unless [self] has no atom and its [nrexcl] is [None]; in that case
    [self] takes the [nrexcl] of the other molecule, the merge goes on from
    there, its outcome is none of the two mismatches, and [self] ends with
    the [nrexcl] of the other molecule. *)
Theorem merge_molecule_mismatch self other :
  (force_field self ≠ force_field other ->
     merge_molecule other self = (Err ForceFieldMismatch, self))
  ∧ (force_field self = force_field other ->
     nrexcl self ≠ nrexcl other ->
     ¬ (nrexcl self = None ∧ nodes self = []) ->
     merge_molecule other self = (Err NrexclMismatch, self))
  ∧ (force_field self = force_field other ->
     nrexcl self = None -> nodes self = [] ->
     merge_molecule other self
     = merge_body other (set_nrexcl (nrexcl other) self)
     ∧ nrexcl (merge_molecule other self).2 = nrexcl other
     ∧ (merge_molecule other self).1 ≠ Err ForceFieldMismatch
     ∧ (merge_molecule other self).1 ≠ Err NrexclMismatch).
Proof.
  rewrite merge_molecule_unfold. split; [|split].
  - intros Hff. by rewrite bool_decide_eq_false_2.
  - intros Hff Hnrexcl Hadopt. rewrite (bool_decide_eq_true_2 _ Hff). simpl.
    assert (bool_decide (nrexcl self = None)
            && bool_decide (length (nodes self) = 0%nat) = false) as ->.
    { apply andb_false_iff.
      destruct (decide (nrexcl self = None)) as [Hnone|Hsome].
      - right. apply bool_decide_eq_false_2. intros Hlen.
        apply Hadopt. split; [done|]. by apply nil_length_inv.
      - left. by apply bool_decide_eq_false_2. }
    by rewrite bool_decide_eq_false_2.
  - intros Hff Hnone Hempty.
    rewrite <- merge_molecule_unfold.
    rewrite (merge_molecule_adopts _ _ Hff Hnone Hempty).
    split; [done|].
    pose proof (hoare_nrexcl_merge_body (nrexcl other) other
                  (set_nrexcl (nrexcl other) self) eq_refl) as Hframe.
    destruct (merge_body other (set_nrexcl (nrexcl other) self))
      as [[corr|e] self']; simpl.
    + done.
    + destruct Hframe as (Hv & Hff' & Hnr). repeat split; congruence.
Qed.

(** *** Merging into a molecule that has atoms *)

Lemma merge_molecule_nonempty self other (last_id : Z)
    (last_attrs : gmap string value) (resid_last : Z) :
  keys_unique self ->
  list.last (nodes self) = Some (last_id, last_attrs) ->
  (∀ k, k ∈ (nodes self).*1 -> (k ≤ last_id)%Z) ->
  last_attrs !! "resid" = Some (VInt resid_last) ->
  int_or_absent last_attrs "charge_group" ->
  force_field self = force_field other ->
  nrexcl self = nrexcl other ->
  Molecule_wf other ->
  atoms_passable other ->
  ∃ correspondence self',
    merge_molecule other self = (Ok correspondence, self')
    ∧ (∀ (i : nat) k, (nodes other).*1 !! i = Some k ->
         correspondence !! k = Some (last_id + 1 + Z.of_nat i)%Z)
    ∧ (∀ k, k ∉ (nodes other).*1 -> correspondence !! k = None)
    ∧ nodes self'
      = nodes self
          ++ imap (fun i ka =>
                     ((last_id + 1 + Z.of_nat i)%Z,
                      merged_atom resid_last
                        (attr_int last_attrs "charge_group") ka.2))
               (nodes other).
Proof.
  intros Hnd Hlast Hmax Hresid Hcg Hff Hnrexcl Hwf Hpass.
  apply last_Some_elem_of in Hlast as Hin.
  assert (merge_offsets self
          = Ok (last_id, VInt resid_last,
                VInt (attr_int last_attrs "charge_group"))) as Hoff.
  { unfold merge_offsets. rewrite bool_decide_eq_false_2; cycle 1.
    { intros Hlen. apply nil_length_inv in Hlen. by rewrite Hlen in Hlast. }
    simpl. rewrite (py_max_upper _ last_id); [|by apply
      (list_elem_of_fmap_2 fst _ (last_id, last_attrs))|done].
    simpl. unfold od_getitem. rewrite (od_get_NoDup _ _ _ Hnd Hin). simpl.
    rewrite Hresid. simpl. unfold attr_int.
    by destruct Hcg as [->|[z ->]]. }
  destruct (merge_body_spec self other _ _ _ Hoff Hmax Hwf Hpass)
    as (corr & self' & Hrun & Hnodes & Hcorr & Hout).
  exists corr, self'. split; [|done].
  rewrite merge_molecule_unfold, (bool_decide_eq_true_2 _ Hff). simpl.
  rewrite bool_decide_eq_false_2 with (P := length (nodes self) = 0%nat);
    cycle 1.
  { intros Hlen. apply nil_length_inv in Hlen. by rewrite Hlen in Hlast. }
  rewrite andb_false_r. by rewrite (bool_decide_eq_true_2 _ Hnrexcl).
Qed.

(** The [resid] of the last atom is read without a default. *)
Lemma merge_molecule_no_resid self other (last_id : Z)
    (last_attrs : gmap string value) :
  keys_unique self ->
  list.last (nodes self) = Some (last_id, last_attrs) ->
  (∀ k, k ∈ (nodes self).*1 -> (k ≤ last_id)%Z) ->
  last_attrs !! "resid" = None ->
  force_field self = force_field other ->
  nrexcl self = nrexcl other ->
  merge_molecule other self = (Err KeyError, self).
Proof.
  intros Hnd Hlast Hmax Hresid Hff Hnrexcl.
  apply last_Some_elem_of in Hlast as Hin.
  assert (merge_offsets self = Err KeyError) as Hoff.
  { unfold merge_offsets. rewrite bool_decide_eq_false_2; cycle 1.
    { intros Hlen. apply nil_length_inv in Hlen. by rewrite Hlen in Hlast. }
    simpl. rewrite (py_max_upper _ last_id); [|by apply
      (list_elem_of_fmap_2 fst _ (last_id, last_attrs))|done].
    simpl. unfold od_getitem. rewrite (od_get_NoDup _ _ _ Hnd Hin). simpl.
    by rewrite Hresid. }
  rewrite merge_molecule_unfold, (bool_decide_eq_true_2 _ Hff). simpl.
  rewrite bool_decide_eq_false_2 with (P := length (nodes self) = 0%nat);
    cycle 1.
  { intros Hlen. apply nil_length_inv in Hlen. by rewrite Hlen in Hlast. }
  rewrite andb_false_r. rewrite (bool_decide_eq_true_2 _ Hnrexcl).
  unfold merge_body, bind, get, lift. by rewrite Hoff.
Qed.

(** What the merge into an empty molecule makes of an atom. *)
Lemma merged_atom_0 (attrs : gmap string value) :
  int_or_absent attrs "resid" -> int_or_absent attrs "charge_group" ->
  merged_atom 0 0 attrs !! "resid" = Some (default (VInt 1) (attrs !! "resid"))
  ∧ merged_atom 0 0 attrs !! "charge_group"
    = Some (default (VInt 1) (attrs !! "charge_group"))
  ∧ (∀ key, key ≠ "resid" -> key ≠ "charge_group" ->
       merged_atom 0 0 attrs !! key = attrs !! key)
  ∧ (is_Some (attrs !! "resid") -> is_Some (attrs !! "charge_group") ->
     merged_atom 0 0 attrs = attrs).
Proof.
  intros Hr Hc. unfold merged_atom, attr_int. rewrite !Z.add_0_r.
  split; [|split; [|split]].
  - rewrite lookup_insert_ne by done. rewrite lookup_insert_eq.
    by destruct Hr as [->|[z ->]].
  - rewrite lookup_insert_eq. by destruct Hc as [->|[z ->]].
  - intros key Hk1 Hk2. by rewrite !lookup_insert_ne.
  - intros [r Hr'] [c Hc'].
    destruct Hr as [Hr|[z Hr]]; [congruence|].
    destruct Hc as [Hc|[z' Hc]]; [congruence|].
    rewrite Hr, Hc. rewrite (insert_id _ "resid") by done.
    by rewrite insert_id.
Qed.

(** C10, amended: a molecule that meets the data model, whose atoms hold
    ints for the [resid] and [charge_group] they have and no attribute
    named as a parameter of [add_node], is merged into a molecule without
    atoms whose [nrexcl] is unset without an exception.  Its atoms get the
    ids 1, 2, ... in their order, which is what the correspondence
    returned maps their keys to; each atom keeps its attributes, its
    [resid] and [charge_group] included when it has them, and gets 1 for
    the one it lacks; [self] takes the [nrexcl] of the other molecule. *)
Theorem merge_molecule_into_empty self other :
  nodes self = [] ->
  nrexcl self = None ->
  force_field self = force_field other ->
  Molecule_wf other ->
  atoms_passable other ->
  ∃ correspondence self',
    merge_molecule other self = (Ok correspondence, self')
    ∧ (∀ (i : nat) k, (nodes other).*1 !! i = Some k ->
         correspondence !! k = Some (1 + Z.of_nat i)%Z)
    ∧ (∀ k, k ∉ (nodes other).*1 -> correspondence !! k = None)
    ∧ nodes self'
      = imap (fun i ka => ((1 + Z.of_nat i)%Z, merged_atom 0 0 ka.2))
          (nodes other)
    ∧ (∀ k attrs, (k, attrs) ∈ nodes other ->
         merged_atom 0 0 attrs !! "resid"
         = Some (default (VInt 1) (attrs !! "resid"))
         ∧ merged_atom 0 0 attrs !! "charge_group"
           = Some (default (VInt 1) (attrs !! "charge_group"))
         ∧ (∀ key, key ≠ "resid" -> key ≠ "charge_group" ->
              merged_atom 0 0 attrs !! key = attrs !! key)
         ∧ (is_Some (attrs !! "resid") ->
            is_Some (attrs !! "charge_group") ->
            merged_atom 0 0 attrs = attrs))
    ∧ nrexcl self' = nrexcl other.
Proof.
  intros Hempty Hnone Hff Hwf Hpass.
  pose proof (merge_molecule_adopts _ _ Hff Hnone Hempty) as Hrun.
  pose proof (hoare_nrexcl_merge_body (nrexcl other) other
                (set_nrexcl (nrexcl other) self) eq_refl) as Hnrexcl.
  destruct (merge_body_spec (set_nrexcl (nrexcl other) self) other 0 0 0)
    as (corr & self' & Hbody & Hnodes & Hcorr & Hout); [| |done|done|].
  { unfold merge_offsets. simpl. by rewrite Hempty. }
  { simpl. rewrite Hempty. by intros k ?%elem_of_nil. }
  exists corr, self'. rewrite Hrun, Hbody in *. simpl in *.
  rewrite Hempty in Hnodes. simpl in Hnodes.
  repeat split; try done.
  all: destruct Hwf as (_ & _ & _ & Htyped);
    destruct (Htyped k attrs) as [Hr Hc]; [done|];
    by apply merged_atom_0.
Qed.

End merge_facts.

(** C1, amended: for [self] with atoms, whose last node holds the largest
    id, an int [resid] and an int [charge_group] or none, and an [other]
    with the same force field and [nrexcl] that meets the data model and
    whose atoms hold ints for the [resid] and [charge_group] they have and
    no attribute named as a parameter of [add_node], [merge_molecule]
    succeeds; the correspondence it returns maps the keys of [other], in
    their order, to [offset + 1], [offset + 2], ... where [offset] is that
    largest id, and to nothing else; the nodes of [self] are the former
    ones followed by one node per atom of [other], under its new id, with
    the attributes of the atom, [resid] (1 if absent) raised by the
    [resid] of the last atom of [self], and [charge_group] (1 if absent)
    raised by its [charge_group] (1 if absent).  When the last atom of
    [self] has no [resid], the merge raises KeyError and [self] is as it
    was.  Merging B (atom ['x'], resid 1) into A (atoms 1 and 2, resid 1)
    gives the atoms 1, 2, 3, resid 2 for atom 3, and the correspondence
    [{'x': 3}]. *)
Theorem merge_molecule_appends :
  (∀ (K FF : Type) `{Countable K} `{EqDecision FF}
     (self : Molecule Z FF) (other : Molecule K FF)
     (last_id : Z) (last_attrs : gmap string value) (resid_last : Z),
     keys_unique self ->
     list.last (nodes self) = Some (last_id, last_attrs) ->
     (∀ k, k ∈ (nodes self).*1 -> (k ≤ last_id)%Z) ->
     last_attrs !! "resid" = Some (VInt resid_last) ->
     int_or_absent last_attrs "charge_group" ->
     force_field self = force_field other ->
     nrexcl self = nrexcl other ->
     Molecule_wf other ->
     atoms_passable other ->
     ∃ correspondence self',
       merge_molecule other self = (Ok correspondence, self')
       ∧ (∀ (i : nat) k, (nodes other).*1 !! i = Some k ->
            correspondence !! k = Some (last_id + 1 + Z.of_nat i)%Z)
       ∧ (∀ k, k ∉ (nodes other).*1 -> correspondence !! k = None)
       ∧ nodes self'
         = nodes self
             ++ imap (fun i ka =>
                        ((last_id + 1 + Z.of_nat i)%Z,
                         merged_atom resid_last
                           (attr_int last_attrs "charge_group") ka.2))
                  (nodes other))
  ∧ (∀ (K FF : Type) `{Countable K} `{EqDecision FF}
       (self : Molecule Z FF) (other : Molecule K FF)
       (last_id : Z) (last_attrs : gmap string value),
       keys_unique self ->
       list.last (nodes self) = Some (last_id, last_attrs) ->
       (∀ k, k ∈ (nodes self).*1 -> (k ≤ last_id)%Z) ->
       last_attrs !! "resid" = None ->
       force_field self = force_field other ->
       nrexcl self = nrexcl other ->
       merge_molecule other self = (Err KeyError, self))
  ∧ (∃ self',
       merge_molecule Examples.mol_B Examples.mol_A
       = (Ok {["x" := 3%Z]}, self')
       ∧ (nodes self').*1 = [1; 2; 3]%Z
       ∧ ∃ attrs, od_get (nodes self') 3%Z = Some attrs
                  ∧ attrs !! "resid" = Some (VInt 2)).
Proof.
  split; [|split].
  - intros. by eapply merge_molecule_nonempty.
  - intros. by eapply merge_molecule_no_resid.
  - exists (merge_molecule Examples.mol_B Examples.mol_A).2.
    split; [vm_compute; reflexivity|]. split; [vm_compute; reflexivity|].
    exists {["resid" := VInt 2; "charge_group" := VInt 2]}.
    split; vm_compute; reflexivity.
Qed.

(** * The properties at concrete inputs *)

Lemma Molecule_wf_mol_B : Molecule_wf Examples.mol_B.
Proof.
  split; [|split; [|split]].
  - apply (bool_decide_unpack _). vm_compute. exact I.
  - intros u v Hin. by apply elem_of_nil in Hin.
  - intros type_ l interaction atom Hin. by apply elem_of_nil in Hin.
  - intros k attrs Hin. apply list_elem_of_singleton in Hin.
    injection Hin as -> ->. split; [right; by exists 1%Z | by left].
Defined.

Lemma Molecule_wf_mol_C : Molecule_wf Examples.mol_C.
Proof.
  split; [|split; [|split]].
  - apply (bool_decide_unpack _). vm_compute. exact I.
  - intros u v Hin. by apply elem_of_nil in Hin.
  - intros type_ l interaction atom Hin. by apply elem_of_nil in Hin.
  - intros k attrs Hin. apply list_elem_of_singleton in Hin.
    injection Hin as -> ->.
    split; right; [by exists 5%Z | by exists 2%Z].
Defined.

Lemma atoms_passable_mol_B : atoms_passable Examples.mol_B.
Proof.
  intros k attrs Hin. apply list_elem_of_singleton in Hin.
  injection Hin as -> ->. reflexivity.
Defined.

Lemma atoms_passable_mol_C : atoms_passable Examples.mol_C.
Proof.
  intros k attrs Hin. apply list_elem_of_singleton in Hin.
  injection Hin as -> ->. reflexivity.
Defined.

(** The spec's example of a merge, from the general statement. *)
Lemma merge_molecule_appends_witness :
  ∃ correspondence self',
    merge_molecule Examples.mol_B Examples.mol_A = (Ok correspondence, self')
    ∧ correspondence !! "x" = Some 3%Z
    ∧ (nodes self').*1 = [1; 2; 3]%Z.
Proof.
  destruct (proj1 merge_molecule_appends string string _ _ _
              Examples.mol_A Examples.mol_B 2%Z {["resid" := VInt 1]} 1%Z)
    as (correspondence & self' & Hrun & Hcorr & _ & Hnodes).
  - apply (bool_decide_unpack _). vm_compute. exact I.
  - reflexivity.
  - intros k Hk. simpl in Hk.
    apply elem_of_cons in Hk as [->|Hk]; [lia|].
    apply list_elem_of_singleton in Hk as ->. lia.
  - reflexivity.
  - by left.
  - reflexivity.
  - reflexivity.
  - exact Molecule_wf_mol_B.
  - exact atoms_passable_mol_B.
  - exists correspondence, self'. split; [exact Hrun|]. split.
    + exact (Hcorr 0%nat "x" eq_refl).
    + rewrite Hnodes. reflexivity.
Defined.

(** C1 as first stated fails: the molecule has an atom, its last node
    holds the largest id, force field and [nrexcl] agree, and the merge
    raises KeyError, the last atom having no [resid]; so it does, with
    TypeError, when the atom that comes in has a [resid] that is a string,
    or an attribute named ['self']. *)
Lemma merge_molecule_last_atom_without_resid :
  nodes Examples.mol_no_resid = [(1%Z, ∅)]
  ∧ force_field Examples.mol_no_resid = force_field Examples.mol_B
  ∧ nrexcl Examples.mol_no_resid = nrexcl Examples.mol_B
  ∧ merge_molecule Examples.mol_B Examples.mol_no_resid
    = (Err KeyError, Examples.mol_no_resid)
  ∧ (merge_molecule Examples.mol_resid_str Examples.mol_A).1 = Err TypeError
  ∧ (merge_molecule Examples.mol_attr_self Examples.mol_A).1 = Err TypeError.
Proof. vm_compute. repeat split. Qed.

(** A molecule with one atom merged into [Molecule()]. *)
Lemma merge_molecule_into_empty_witness :
  ∃ correspondence self',
    merge_molecule Examples.mol_C Examples.mol_empty
    = (Ok correspondence, self')
    ∧ correspondence !! "y" = Some 1%Z
    ∧ nodes self'
      = [(1%Z, {["resid" := VInt 5; "charge_group" := VInt 2]})]
    ∧ nrexcl self' = Some 1%Z.
Proof.
  destruct (merge_molecule_into_empty Examples.mol_empty Examples.mol_C)
    as (correspondence & self' & Hrun & Hcorr & _ & Hnodes & _ & Hnrexcl).
  - reflexivity.
  - reflexivity.
  - reflexivity.
  - exact Molecule_wf_mol_C.
  - exact atoms_passable_mol_C.
  - exists correspondence, self'. split; [exact Hrun|]. split; [|split].
    + exact (Hcorr 0%nat "y" eq_refl).
    + rewrite Hnodes. vm_compute. reflexivity.
    + exact Hnrexcl.
Defined.

(** C10 as first stated fails: [Molecule()] has no atom and no [nrexcl],
    the force fields agree, and the merge of a molecule whose atom has
    the [resid] ['A'] raises TypeError (['A' + 0]) where the atom was to
    keep its [resid]; so does the merge of a molecule whose atom has an
    attribute named ['self']. *)
Lemma merge_molecule_into_empty_resid_str :
  nodes Examples.mol_empty = []
  ∧ nrexcl Examples.mol_empty = None
  ∧ force_field Examples.mol_empty = force_field Examples.mol_resid_str
  ∧ (merge_molecule Examples.mol_resid_str Examples.mol_empty).1
    = Err TypeError
  ∧ (merge_molecule Examples.mol_attr_self Examples.mol_empty).1
    = Err TypeError.
Proof. vm_compute. repeat split. Qed.

(** C6 as first stated fails: [Molecule(nrexcl=3)] has no atom, the force
    fields agree, and merging a molecule with [nrexcl] 1 into it raises
    NrexclMismatch instead of taking that [nrexcl]. *)
Lemma merge_molecule_empty_self_nrexcl_set :
  nodes Examples.mol_empty_nrexcl3 = []
  ∧ force_field Examples.mol_empty_nrexcl3
    = force_field Examples.mol_empty_nrexcl1
  ∧ merge_molecule Examples.mol_empty_nrexcl1 Examples.mol_empty_nrexcl3
    = (Err NrexclMismatch, Examples.mol_empty_nrexcl3).
Proof. repeat split. Qed.

(** The three cases of the amended C6: "ff-a" against "ff-b"; [nrexcl] 3
    against 1; [Molecule()] taking [nrexcl] 1. *)
Lemma merge_molecule_mismatch_witness :
  merge_molecule Examples.mol_ff_b Examples.mol_ff_a
  = (Err ForceFieldMismatch, Examples.mol_ff_a)
  ∧ merge_molecule Examples.mol_B Examples.mol_empty_nrexcl3
    = (Err NrexclMismatch, Examples.mol_empty_nrexcl3)
  ∧ nrexcl (merge_molecule Examples.mol_C Examples.mol_empty).2 = Some 1%Z.
Proof.
  split; [|split].
  - apply (proj1 (merge_molecule_mismatch Examples.mol_ff_a Examples.mol_ff_b)).
    discriminate.
  - apply (proj1 (proj2 (merge_molecule_mismatch
                           Examples.mol_empty_nrexcl3 Examples.mol_B))).
    + reflexivity.
    + discriminate.
    + intros [Hnone _]. discriminate Hnone.
  - apply (proj2 (proj2 (merge_molecule_mismatch
                           Examples.mol_empty Examples.mol_C))); reflexivity.
Defined.

(** An atom that is no node, and atoms that are nodes. *)
Lemma add_interaction_atomic_witness :
  add_interaction "bonds" [1%Z; 3%Z] [] None Examples.mol_A
  = (Err AtomNotFound, Examples.mol_A)
  ∧ ∃ self',
      add_interaction "bonds" [1%Z; 2%Z] [] None Examples.mol_A
      = (Ok tt, self')
      ∧ interactions_get self' "bonds" = [mkInteraction [1%Z; 2%Z] [] ∅].
Proof.
  split.
  - apply (proj1 (add_interaction_atomic Examples.mol_A "bonds"
                    [1%Z; 3%Z] [] None)).
    exists 3%Z. split.
    + apply elem_of_cons. right. apply elem_of_cons. by left.
    + simpl. intros Hin.
      apply elem_of_cons in Hin as [Hin|Hin]; [lia|].
      apply list_elem_of_singleton in Hin. lia.
  - destruct (proj2 (add_interaction_atomic Examples.mol_A "bonds"
                       [1%Z; 2%Z] [] None))
      as (self' & Hrun & Hlist & _).
    + intros atom Hin. exact Hin.
    + exists self'. split; [exact Hrun | exact Hlist].
Defined.

(** The bond with the default version stays when the bond over the same
    atoms is removed. *)
Lemma remove_interaction_keeps_version_0_witness :
  ∃ r self',
    remove_interaction "bonds" (PyTuple [1%Z; 2%Z]) (VInt 0) Examples.mol_bonds
    = (r, self')
    ∧ Examples.bond_v0 ∈ interactions_get self' "bonds".
Proof.
  destruct (remove_interaction_keeps_version_0 Examples.mol_bonds "bonds"
              (PyTuple [1%Z; 2%Z]) (VInt 0) Examples.bond_v0)
    as (r & self' & Hrun & Hin & _).
  - apply elem_of_cons. by left.
  - reflexivity.
  - reflexivity.
  - exists r, self'. split; [exact Hrun | exact Hin].
Defined.

(** What [remove_interaction] does to the two bonds: the one with version
    1 goes, and once it is gone the call raises, with the bond of version 0
    still there. *)
Example remove_interaction_bonds :
  let after :=
    (remove_interaction "bonds" (PyTuple [1%Z; 2%Z]) (VInt 0) Examples.mol_bonds).2 in
  remove_interaction "bonds" (PyTuple [1%Z; 2%Z]) (VInt 0) Examples.mol_bonds
  = (Ok tt, after)
  ∧ interactions_get after "bonds" = [Examples.bond_v0]
  ∧ remove_interaction "bonds" (PyTuple [1%Z; 2%Z]) (VInt 0) after
    = (Err NoMatchFound, after).
Proof. vm_compute. repeat split. Qed.

(** C7 as first stated fails: in a molecule without atoms, the
    interaction over the atom 1 meets the four conditions with the
    template of the same atoms, and [interaction_match] raises KeyError
    where it was to return [True]. *)
Lemma interaction_match_atom_not_in_molecule :
  interaction_match_conditions Examples.mol_empty Examples.lone
    Examples.lone_template
  ∧ interaction_match Examples.mol_empty Examples.lone Examples.lone_template
    = Err KeyError.
Proof.
  split; [|reflexivity].
  split; [reflexivity|]. split; [by left|]. split; [|reflexivity].
  intros atom_attrs Hattrs. discriminate Hattrs.
Qed.

(** A [DeleteInteraction] matched against the bond of version 1, whose
    atoms are nodes of the molecule. *)
Lemma interaction_match_spec_witness :
  (∀ atom, atom ∈ atoms Examples.bond_v1 ->
     atom ∈ (nodes Examples.mol_bonds).*1)
  ∧ interaction_match Examples.mol_bonds Examples.bond_v1
      Examples.delete_bond = Ok true
  ∧ interaction_match_conditions Examples.mol_bonds Examples.bond_v1
      Examples.delete_bond.
Proof.
  assert (∀ atom, atom ∈ atoms Examples.bond_v1 ->
            atom ∈ (nodes Examples.mol_bonds).*1) as Hin.
  { intros atom Hin. exact Hin. }
  split; [exact Hin|].
  destruct (proj1 (proj2 (proj2 (interaction_match_spec Examples.mol_bonds
                                   Examples.bond_v1 Examples.delete_bond)))
              Hin)
    as (b & Hrun & Hiff).
  assert (b = true) as ->.
  { vm_compute in Hrun. by injection Hrun. }
  split; [exact Hrun | by apply Hiff].
Defined.

(** * Further properties *)

(** ** Finding atoms *)

Section find_facts.
Context {K FF : Type} `{EqDecision K}.
Implicit Types (self : Molecule K FF).



(** ** Edges between two bunches of nodes *)

Lemma has_edge_sym self (u v : K) : has_edge self u v = has_edge self v u.
Proof. unfold has_edge. apply orb_comm. Qed.

(** X5: [edges_between] returns a pair exactly when its first node is in
    the first bunch, its second in the second, and the two share an edge;
    swapping the bunches swaps the pairs. *)
Theorem edges_between_spec self (n_bunch1 n_bunch2 : list K) (u v : K) :
  ((u, v) ∈ edges_between self n_bunch1 n_bunch2 <->
     u ∈ n_bunch1 ∧ v ∈ n_bunch2 ∧ has_edge self u v = true)
  ∧ ((u, v) ∈ edges_between self n_bunch1 n_bunch2 <->
       (v, u) ∈ edges_between self n_bunch2 n_bunch1).
Proof.
  assert (∀ b1 b2 (x y : K),
            (x, y) ∈ edges_between self b1 b2 <->
            x ∈ b1 ∧ y ∈ b2 ∧ has_edge self x y = true) as Hspec.
  { intros b1 b2 x y. unfold edges_between.
    rewrite list_elem_of_In, filter_In, in_prod_iff, <- !list_elem_of_In.
    simpl. tauto. }
  split; [apply Hspec|].
  rewrite !Hspec, (has_edge_sym self v u). tauto.
Qed.

End find_facts.

(** ** Attribute names that stand for interactions *)

Lemma str_app_nil_l s : "" +:+ s = s.
Proof. reflexivity. Qed.

Lemma prefix_nil s : String.prefix "" s = true.
Proof. by destruct s. Qed.

Lemma str_endswith_char_app c t :
  str_endswith_char c (t +:+ String c "") = true.
Proof.
  induction t as [|a t IH]; simpl.
  - by apply bool_decide_eq_true_2.
  - destruct (t +:+ String c "") eqn:Ht; [by destruct t|]. done.
Qed.

Lemma str_removelast_app c t : str_removelast (t +:+ String c "") = t.
Proof.
  induction t as [|a t IH]; simpl; [done|].
  destruct (t +:+ String c "") eqn:Ht; [by destruct t|]. by rewrite IH.
Qed.

(** X6: [__getattr__], called for a name that no attribute is found
    under, answers [add_<t>] with [add_interaction] for the type [<t>],
    [remove_<t>] with [remove_interaction] for the type [<t>], and
    [get_<t>s] with [get_interaction] for the type [<t>]: the type an
    [add_] or [remove_] name writes is read under the name with one more
    [s], so [get_bonds] reads what [add_bond] wrote and not what
    [add_bonds] wrote. *)
Theorem Molecule_getattr_names (t : string) :
  Molecule_getattr ("add_" +:+ t) = Ok (AddInteraction t)
  ∧ Molecule_getattr ("remove_" +:+ t) = Ok (RemoveInteraction t)
  ∧ Molecule_getattr ("get_" +:+ t +:+ "s") = Ok (GetInteraction t).
Proof.
  unfold Molecule_getattr. simpl. rewrite !str_app_nil_l, !prefix_nil. simpl.
  split; [done|]. split; [done|].
  change (t +:+ "s") with (t +:+ String char_s "").
  rewrite str_removelast_app.
  destruct (t +:+ String char_s "") eqn:Ht; [by destruct t|].
  rewrite <- Ht. by rewrite str_endswith_char_app.
Qed.

(** ** Adding or replacing an interaction *)

Section replace_facts.
Context {K FF : Type} `{EqDecision K}.
Implicit Types (self : Molecule K FF).

(** The state after [self.interactions[type_]] was evaluated. *)
Lemma interactions_getitem_run self (type_ : string) :
  ∃ self1,
    interactions_getitem type_ self = (Ok (interactions_get self type_), self1)
    ∧ (∀ t, interactions_get self1 t = interactions_get self t)
    ∧ od_get (interactions self1) type_ = Some (interactions_get self type_)
    ∧ nodes self1 = nodes self ∧ edges self1 = edges self
    ∧ nrexcl self1 = nrexcl self ∧ force_field self1 = force_field self
    ∧ mol_meta self1 = mol_meta self.
Proof.
  unfold interactions_getitem, interactions_get.
  destruct (od_get (interactions self) type_) as [l|] eqn:Hget.
  - exists self. by rewrite Hget.
  - eexists. split; [done|]. simpl. split; [|by rewrite od_get_set_eq].
    intros t. destruct (decide (type_ = t)) as [<-|Hne].
    + by rewrite od_get_set_eq, Hget.
    + by rewrite od_get_set_ne.
Qed.

Lemma interactions_store_run self (type_ : string) (l : list (Interaction K)) :
  ∃ self',
    interactions_store type_ l self = (Ok tt, self')
    ∧ (∀ t, interactions_get self' t
            = if decide (type_ = t) then l else interactions_get self t)
    ∧ nodes self' = nodes self ∧ edges self' = edges self
    ∧ nrexcl self' = nrexcl self ∧ force_field self' = force_field self
    ∧ mol_meta self' = mol_meta self.
Proof.
  eexists. split; [reflexivity|]. simpl. split; [|done].
  intros t. unfold interactions_get. simpl.
  destruct (decide (type_ = t)) as [<-|Hne].
  - by rewrite od_get_set_eq.
  - by rewrite od_get_set_ne.
Qed.

Lemma first_index_app_None {A} (test : A -> bool) (l1 l2 : list A) :
  (∀ y, y ∈ l1 -> test y = false) ->
  first_index test (l1 ++ l2) = (fun i => length l1 + i)%nat <$> first_index test l2.
Proof.
  induction l1 as [|y l1 IH]; intros Hall; simpl.
  - by destruct (first_index test l2).
  - rewrite (Hall y) by (apply elem_of_cons; by left).
    rewrite IH by (intros z Hz; apply Hall, elem_of_cons; by right).
    by destruct (first_index test l2).
Qed.

(** The entry found by the loop is overwritten where it stands. *)
Lemma add_or_replace_interaction_at self (type_ : string)
    (atoms_ : list K) (parameters_ : list value)
    (meta_ : option (gmap string value))
    (l1 l2 : list (Interaction K)) (x : Interaction K) :
  interactions_get self type_ = l1 ++ x :: l2 ->
  atoms x = atoms_ ->
  py_eq (default (VInt 0) (meta x !! "version"))
    (default (VInt 0) (default ∅ meta_ !! "version")) = true ->
  (∀ y, y ∈ l1 -> add_or_replace_test atoms_ (default ∅ meta_) y = false) ->
  ∃ self',
    add_or_replace_interaction type_ atoms_ parameters_ meta_ self
    = (Ok tt, self')
    ∧ interactions_get self' type_
      = l1 ++ mkInteraction atoms_ parameters_ (default ∅ meta_) :: l2
    ∧ (∀ t, t ≠ type_ -> interactions_get self' t = interactions_get self t)
    ∧ nodes self' = nodes self ∧ edges self' = edges self.
Proof.
  intros Hl Hatoms Hversion Hl1.
  destruct (interactions_getitem_run self type_)
    as (self1 & Hrun & Hget & _ & Hnodes & Hedges & _).
  unfold add_or_replace_interaction. rewrite (bind_Ok _ _ _ _ _ Hrun).
  rewrite Hl, (first_index_app_None _ _ _ Hl1). simpl.
  unfold add_or_replace_test at 1.
  rewrite (bool_decide_eq_true_2 _ Hatoms), Hversion. simpl.
  destruct (interactions_store_run self1 type_
              (<[(length l1 + 0)%nat :=
                   mkInteraction atoms_ parameters_ (default ∅ meta_)]>
                 (l1 ++ x :: l2)))
    as (self' & Hstore & Hget' & Hnodes' & Hedges' & _).
  exists self'. split; [done|]. split; [|split; [|split]].
  - rewrite Hget', decide_True by done. by rewrite insert_app_r.
  - intros t Hne. rewrite Hget', decide_False by done. apply Hget.
  - congruence.
  - congruence.
Qed.

(** X7: when the list of the type holds an interaction with these atoms
    and this version, [add_or_replace_interaction] overwrites the first
    such entry where it stands: the list keeps its length and its other
    entries, the lists of the other types and the graph are as they were;
    the atoms are not looked up in the molecule. *)
Theorem add_or_replace_interaction_replaces self (type_ : string)
    (atoms_ : list K) (parameters_ : list value)
    (meta_ : option (gmap string value))
    (l1 l2 : list (Interaction K)) (x : Interaction K) :
  interactions_get self type_ = l1 ++ x :: l2 ->
  atoms x = atoms_ ->
  py_eq (default (VInt 0) (meta x !! "version"))
    (default (VInt 0) (default ∅ meta_ !! "version")) = true ->
  (∀ y, y ∈ l1 -> add_or_replace_test atoms_ (default ∅ meta_) y = false) ->
  ∃ self',
    add_or_replace_interaction type_ atoms_ parameters_ meta_ self
    = (Ok tt, self')
    ∧ interactions_get self' type_
      = l1 ++ mkInteraction atoms_ parameters_ (default ∅ meta_) :: l2
    ∧ (∀ t, t ≠ type_ -> interactions_get self' t = interactions_get self t)
    ∧ nodes self' = nodes self ∧ edges self' = edges self.
Proof. apply add_or_replace_interaction_at. Qed.

(** What [add_or_replace_interaction] does when the loop finds nothing. *)
Lemma add_or_replace_interaction_adds self (type_ : string)
    (atoms_ : list K) (parameters_ : list value)
    (meta_ : option (gmap string value)) :
  (∀ atom, atom ∈ atoms_ -> atom ∈ (nodes self).*1) ->
  (∀ y, y ∈ interactions_get self type_ ->
     add_or_replace_test atoms_ (default ∅ meta_) y = false) ->
  ∃ self',
    add_or_replace_interaction type_ atoms_ parameters_ meta_ self
    = (Ok tt, self')
    ∧ interactions_get self' type_
      = interactions_get self type_
          ++ [mkInteraction atoms_ parameters_ (default ∅ meta_)]
    ∧ (∀ t, t ≠ type_ -> interactions_get self' t = interactions_get self t)
    ∧ nodes self' = nodes self ∧ edges self' = edges self.
Proof.
  intros Hatoms Hnone.
  destruct (interactions_getitem_run self type_)
    as (self1 & Hrun & Hget & _ & Hnodes & Hedges & _).
  unfold add_or_replace_interaction. rewrite (bind_Ok _ _ _ _ _ Hrun).
  rewrite (proj2 (first_index_None _ _) Hnone).
  rewrite add_interaction_unfold.
  rewrite (proj2 (forallb_contains self1 atoms_)); cycle 1.
  { intros atom Hin. rewrite Hnodes. by apply Hatoms. }
  eexists. split; [reflexivity|]. simpl. split; [|split; [|done]].
  - unfold interactions_get at 1. simpl. by rewrite od_get_set_eq, Hget.
  - intros t Hne. unfold interactions_get at 1. simpl.
    rewrite od_get_set_ne by done. apply Hget.
Qed.

(** X8: two calls of [add_or_replace_interaction] with the same atoms and
    the same version, on a molecule that holds the atoms and no
    interaction of the type over them yet, leave one entry for them, last
    in the list, with the parameters and the [meta] of the second call. *)
Theorem add_or_replace_interaction_twice self (type_ : string)
    (atoms_ : list K) (parameters1 parameters2 : list value)
    (meta1 meta2 : option (gmap string value)) :
  (∀ atom, atom ∈ atoms_ -> atom ∈ (nodes self).*1) ->
  (∀ y, y ∈ interactions_get self type_ -> atoms y ≠ atoms_) ->
  py_eq (default (VInt 0) (default ∅ meta1 !! "version"))
    (default (VInt 0) (default ∅ meta2 !! "version")) = true ->
  ∃ self1 self2,
    add_or_replace_interaction type_ atoms_ parameters1 meta1 self
    = (Ok tt, self1)
    ∧ add_or_replace_interaction type_ atoms_ parameters2 meta2 self1
      = (Ok tt, self2)
    ∧ interactions_get self1 type_
      = interactions_get self type_
          ++ [mkInteraction atoms_ parameters1 (default ∅ meta1)]
    ∧ interactions_get self2 type_
      = interactions_get self type_
          ++ [mkInteraction atoms_ parameters2 (default ∅ meta2)].
Proof.
  intros Hatoms Hfresh Hversion.
  assert (∀ m y, y ∈ interactions_get self type_ ->
            add_or_replace_test atoms_ m y = false) as Hnone.
  { intros m y Hy. unfold add_or_replace_test.
    by rewrite (bool_decide_eq_false_2 _ (Hfresh y Hy)). }
  destruct (add_or_replace_interaction_adds self type_ atoms_ parameters1
              meta1 Hatoms (Hnone _))
    as (self1 & Hrun1 & Hlist1 & _).
  destruct (add_or_replace_interaction_at self1 type_ atoms_ parameters2
              meta2 (interactions_get self type_) []
              (mkInteraction atoms_ parameters1 (default ∅ meta1))
              Hlist1 eq_refl Hversion (Hnone _))
    as (self2 & Hrun2 & Hlist2 & _).
  by exists self1, self2.
Qed.

End replace_facts.

(** ** Removing the interaction that matches a template *)

Section remove_matching_facts.
Context {K FF : Type} `{EqDecision K}.
Implicit Types (self : Molecule K FF).

Lemma interaction_match_nodes (m1 m2 : Molecule K FF)
    (interaction : Interaction K) (t : template K) :
  nodes m1 = nodes m2 ->
  interaction_match m1 interaction t = interaction_match m2 interaction t.
Proof. unfold interaction_match. by intros ->. Qed.

Lemma first_match_nodes (m1 m2 : Molecule K FF) (t : template K)
    (l : list (Interaction K)) :
  nodes m1 = nodes m2 -> first_match m1 t l = first_match m2 t l.
Proof.
  intros Hnodes. induction l as [|x l IH]; simpl; [done|].
  by rewrite IH, (interaction_match_nodes m1 m2).
Qed.

Lemma first_match_run (m : Molecule K FF) (t : template K)
    (l : list (Interaction K)) :
  match first_match m t l with
  | Ok (Some idx) =>
      ∃ l1 x l2,
        l = l1 ++ x :: l2 ∧ length l1 = idx
        ∧ interaction_match m x t = Ok true
        ∧ ∀ y, y ∈ l1 -> interaction_match m y t = Ok false
  | Ok None => ∀ y, y ∈ l -> interaction_match m y t = Ok false
  | Err e => ∃ y, y ∈ l ∧ interaction_match m y t = Err e
  end.
Proof.
  induction l as [|x l IH]; simpl.
  - intros y Hy. by apply elem_of_nil in Hy.
  - destruct (interaction_match m x t) as [[|]|e] eqn:Hx; simpl.
    + exists [], x, l. repeat split; try done.
      intros y Hy. by apply elem_of_nil in Hy.
    + destruct (first_match m t l) as [[idx|]|e]; simpl.
      * destruct IH as (l1 & z & l2 & -> & <- & Hz & Hl1).
        exists (x :: l1), z, l2. repeat split; try done.
        intros y [->|Hy]%elem_of_cons; auto.
      * intros y [->|Hy]%elem_of_cons; auto.
      * destruct IH as (y & Hy & Hey). exists y.
        split; [apply elem_of_cons; by right | done].
    + exists x. split; [apply elem_of_cons; by left | done].
Qed.

Lemma first_match_app (m : Molecule K FF) (t : template K)
    (l1 l2 : list (Interaction K)) (x : Interaction K) :
  (∀ y, y ∈ l1 -> interaction_match m y t = Ok false) ->
  interaction_match m x t = Ok true ->
  first_match m t (l1 ++ x :: l2) = Ok (Some (length l1)).
Proof.
  intros Hl1 Hx. induction l1 as [|y l1 IH]; simpl.
  - by rewrite Hx.
  - rewrite (Hl1 y) by (apply elem_of_cons; by left). simpl.
    rewrite IH; [done|]. intros z Hz. apply Hl1, elem_of_cons. by right.
Qed.

Lemma remove_matching_interaction_unfold self (type_ : string)
    (t : template K) :
  ∃ self1,
    (∀ t', interactions_get self1 t' = interactions_get self t')
    ∧ nodes self1 = nodes self ∧ edges self1 = edges self
    ∧ remove_matching_interaction type_ t self =
      match first_match self t (interactions_get self type_) with
      | Ok (Some idx) =>
          interactions_store type_
            (delete idx (interactions_get self type_)) self1
      | Ok None => (Err NoMatchFound, self1)
      | Err e => (Err e, self1)
      end.
Proof.
  destruct (interactions_getitem_run self type_)
    as (self1 & Hrun & Hget & _ & Hnodes & Hedges & _).
  exists self1. split; [done|]. split; [done|]. split; [done|].
  unfold remove_matching_interaction.
  rewrite (bind_Ok _ _ _ _ _ Hrun). unfold bind at 1. unfold get at 1.
  unfold bind at 1. unfold lift at 1.
  rewrite (first_match_nodes self1 self) by done.
  by destruct (first_match self t _) as [[idx|]|e].
Qed.

(** X9: [remove_matching_interaction] removes the first interaction of
    the type that [interaction_match] accepts and nothing else; when the
    loop ends without a match it raises (ValueError) and the list is as it
    was, and so it is when [interaction_match] raises on the way.  The
    lists of the other types and the nodes are never changed. *)
Theorem remove_matching_interaction_spec self (type_ : string)
    (t : template K) :
  ∃ r self',
    remove_matching_interaction type_ t self = (r, self')
    ∧ nodes self' = nodes self
    ∧ (∀ t', t' ≠ type_ -> interactions_get self' t' = interactions_get self t')
    ∧ ((r = Ok tt
        ∧ ∃ l1 x l2,
            interactions_get self type_ = l1 ++ x :: l2
            ∧ interactions_get self' type_ = l1 ++ l2
            ∧ interaction_match self x t = Ok true
            ∧ ∀ y, y ∈ l1 -> interaction_match self y t = Ok false)
       ∨ (r = Err NoMatchFound
          ∧ interactions_get self' type_ = interactions_get self type_
          ∧ ∀ y, y ∈ interactions_get self type_ ->
              interaction_match self y t = Ok false)
       ∨ (∃ e y,
            r = Err e
            ∧ interactions_get self' type_ = interactions_get self type_
            ∧ y ∈ interactions_get self type_
            ∧ interaction_match self y t = Err e)).
Proof.
  destruct (remove_matching_interaction_unfold self type_ t)
    as (self1 & Hget & Hnodes & Hedges & ->).
  pose proof (first_match_run self t (interactions_get self type_)) as Hfirst.
  destruct (first_match self t _) as [[idx|]|e].
  - destruct Hfirst as (l1 & x & l2 & Hl & <- & Hx & Hl1).
    destruct (interactions_store_run self1 type_
                (delete (length l1) (interactions_get self type_)))
      as (self' & -> & Hget' & Hnodes' & _).
    exists (Ok tt), self'. split; [done|]. split; [congruence|]. split.
    + intros t' Hne. rewrite Hget', decide_False by done. apply Hget.
    + left. split; [done|]. exists l1, x, l2. split; [done|].
      split; [|done].
      rewrite Hget', decide_True by done. rewrite Hl. apply delete_middle.
  - exists (Err NoMatchFound), self1. split; [done|]. split; [done|].
    split; [by intros t' _|]. right. left. by rewrite Hget.
  - destruct Hfirst as (y & Hy & Hey).
    exists (Err e), self1. split; [done|]. split; [done|].
    split; [by intros t' _|]. right. right. exists e, y. by rewrite Hget.
Qed.

Lemma py_eq_seq_refl (l : list value) : py_seq_eq l l = true.
Proof. induction l as [|x l IH]; simpl; [done|]. by rewrite py_eq_refl. Qed.

(** An interaction added without [meta] matches the template made of its
    atoms and parameters. *)
Lemma interaction_match_own self (atoms_ : list K) (parameters_ : list value) :
  (∀ atom, atom ∈ atoms_ -> atom ∈ (nodes self).*1) ->
  interaction_match self (mkInteraction atoms_ parameters_ ∅)
    (TInteraction atoms_ parameters_ ∅) = Ok true.
Proof.
  intros Hatoms. unfold interaction_match. simpl.
  rewrite bool_decide_eq_true_2 by done. rewrite py_eq_seq_refl, orb_true_r.
  simpl.
  destruct (result_map_od_getitem (nodes self) atoms_ Hatoms) as (vs & ->).
  simpl. rewrite attributes_match_empty.
  assert (atom_attrs_match (zip vs (replicate (length atoms_) ∅)) = true)
    as ->; [|done].
  apply atom_attrs_match_spec, list.Forall_forall.
  intros [node constraints] Hin. simpl.
  apply elem_of_zip_r, elem_of_replicate in Hin as [-> _].
  apply attributes_match_empty.
Qed.

(** X10: [remove_matching_interaction] with the template made of the
    atoms and parameters undoes [add_interaction]: on a molecule that holds
    the atoms and whose list of the type has no interaction matching the
    template, adding and then removing gives the list back. *)
Theorem add_then_remove_matching_interaction self (type_ : string)
    (atoms_ : list K) (parameters_ : list value) :
  (∀ atom, atom ∈ atoms_ -> atom ∈ (nodes self).*1) ->
  (∀ y, y ∈ interactions_get self type_ ->
     interaction_match self y (TInteraction atoms_ parameters_ ∅) = Ok false) ->
  ∃ self1 self2,
    add_interaction type_ atoms_ parameters_ None self = (Ok tt, self1)
    ∧ remove_matching_interaction type_ (TInteraction atoms_ parameters_ ∅)
        self1 = (Ok tt, self2)
    ∧ (∀ t, interactions_get self2 t = interactions_get self t)
    ∧ nodes self2 = nodes self ∧ edges self2 = edges self.
Proof.
  intros Hatoms Hnone.
  set (t := TInteraction atoms_ parameters_ ∅).
  rewrite add_interaction_unfold, (proj2 (forallb_contains self atoms_ ) Hatoms).
  set (self1 := set_interactions _ self).
  assert (interactions_get self1 type_
          = interactions_get self type_ ++ [mkInteraction atoms_ parameters_ ∅])
    as Hlist1.
  { unfold interactions_get at 1. simpl. by rewrite od_get_set_eq. }
  assert (∀ t', t' ≠ type_ ->
            interactions_get self1 t' = interactions_get self t') as Hother1.
  { intros t' Hne. unfold interactions_get at 1. simpl.
    by rewrite od_get_set_ne. }
  exists self1.
  destruct (remove_matching_interaction_unfold self1 type_ t)
    as (self1' & Hget & Hnodes & Hedges & ->).
  rewrite Hlist1, (first_match_app self1 t _ []).
  - rewrite delete_middle, app_nil_r.
    destruct (interactions_store_run self1' type_ (interactions_get self type_))
      as (self2 & -> & Hget2 & Hnodes2 & Hedges2 & _).
    exists self2. split; [done|]. split; [done|]. split; [|split].
    + intros t'. rewrite Hget2. destruct (decide (type_ = t')) as [<-|Hne].
      * done.
      * rewrite Hget. by apply Hother1.
    + by rewrite Hnodes2, Hnodes.
    + by rewrite Hedges2, Hedges.
  - intros y Hy. rewrite (interaction_match_nodes self1 self) by done.
    by apply Hnone.
  - by apply interaction_match_own.
Qed.

(** X11: [remove_interaction] does not undo [add_interaction]: after an
    interaction was added with a [meta] whose version is not truthy (no
    [meta] at all, for one), on a list with no interaction over these
    atoms of a truthy version, [remove_interaction] for these atoms,
    handed in as a tuple or as a list, raises NoMatchFound (KeyError) and
    the interaction added stays. *)
Theorem add_then_remove_interaction_raises self (type_ : string)
    (atoms_ : sequence K) (parameters_ : list value)
    (meta_ : option (gmap string value)) (version : value) :
  (∀ atom, atom ∈ seq_items atoms_ -> atom ∈ (nodes self).*1) ->
  py_truthy (default (VInt 0) (default ∅ meta_ !! "version")) = false ->
  (∀ y, y ∈ interactions_get self type_ ->
     tuple_eq_seq (atoms y) atoms_ = true ->
     py_truthy (default (VInt 0) (meta y !! "version")) = false) ->
  ∃ self1,
    add_interaction type_ (seq_items atoms_) parameters_ meta_ self
    = (Ok tt, self1)
    ∧ remove_interaction type_ atoms_ version self1
      = (Err NoMatchFound, self1)
    ∧ interactions_get self1 type_
      = interactions_get self type_
          ++ [mkInteraction (seq_items atoms_) parameters_ (default ∅ meta_)].
Proof.
  intros Hatoms Hmeta Hnone.
  rewrite add_interaction_unfold,
    (proj2 (forallb_contains self (seq_items atoms_)) Hatoms).
  set (self1 := set_interactions _ self).
  assert (interactions_get self1 type_
          = interactions_get self type_
              ++ [mkInteraction (seq_items atoms_) parameters_
                    (default ∅ meta_)])
    as Hlist1.
  { unfold interactions_get at 1. simpl. by rewrite od_get_set_eq. }
  exists self1. split; [done|]. split; [|done].
  rewrite remove_interaction_unfold.
  assert (first_index (remove_interaction_test atoms_)
            (interactions_get self1 type_) = None) as ->.
  { apply first_index_None. rewrite Hlist1.
    intros y [Hy|Hy%list_elem_of_singleton]%elem_of_app;
      unfold remove_interaction_test.
    - destruct (tuple_eq_seq (atoms y) atoms_) eqn:Hay; [|done].
      by rewrite (Hnone y Hy Hay).
    - subst y. simpl. by rewrite Hmeta, andb_false_r. }
  f_equal. unfold self1 at 1. simpl. by rewrite od_get_set_eq.
Qed.

End remove_matching_facts.

(** ** Edges made from interactions *)

Section edge_facts.
Context {K FF : Type} `{EqDecision K}.
Implicit Types (self s : Molecule K FF).

Lemma has_edge_true s (a b : K) :
  has_edge s a b = true <-> (a, b) ∈ edges s ∨ (b, a) ∈ edges s.
Proof.
  unfold has_edge. by rewrite orb_true_iff, !bool_decide_eq_true.
Qed.

Lemma graph_extends_refl s : graph_extends s s.
Proof.
  repeat split; try done.
  - exists []. split; [by rewrite app_nil_r|]. by intros p ?%elem_of_nil.
  - exists []. by rewrite app_nil_r.
Qed.

Lemma graph_extends_trans s1 s2 s3 :
  graph_extends s1 s2 -> graph_extends s2 s3 -> graph_extends s1 s3.
Proof.
  intros (Hi & Hn & Hf & Hm & (x1 & Hx1 & He1) & (m1 & Hm1))
         (Hi' & Hn' & Hf' & Hm' & (x2 & Hx2 & He2) & (m2 & Hm2)).
  repeat split; try congruence.
  - exists (x1 ++ x2). split; [by rewrite Hx2, Hx1, app_assoc|].
    intros p [?|?]%elem_of_app; auto.
  - exists (m1 ++ m2). by rewrite Hm2, Hm1, app_assoc.
Qed.

(** The atoms view of a block does not show placeholder nodes. *)
Lemma graph_extends_Block_atoms s s' (n n' : option string) :
  graph_extends s s' -> Block_atoms (mkBlock s' n') = Block_atoms (mkBlock s n).
Proof.
  intros (_ & _ & _ & _ & (extra & Hextra & Hempty) & _).
  unfold Block_atoms. simpl. rewrite Hextra, omap_app.
  assert (omap (fun item : K * gmap string value =>
                  if bool_decide (item.2 = ∅) then None else Some item.2)
            extra = []) as ->; [|by rewrite app_nil_r].
  clear Hextra. induction extra as [|p extra IH]; simpl; [done|].
  rewrite bool_decide_eq_true_2 by (apply Hempty, elem_of_cons; by left).
  apply IH. intros q Hq. apply Hempty, elem_of_cons. by right.
Qed.

(** [add_edge] never raises; it adds the edge, with its end points if
    need be, and touches nothing else. *)
Lemma add_edge_run (u v : K) s :
  ∃ s',
    add_edge u v s = (Ok tt, s')
    ∧ graph_extends s s'
    ∧ u ∈ (nodes s').*1 ∧ v ∈ (nodes s').*1
    ∧ ∀ a b, has_edge s' a b = true <->
        has_edge s a b = true ∨ (a = u ∧ b = v) ∨ (a = v ∧ b = u).
Proof.
  unfold add_edge, modify.
  set (s1 := if Molecule_contains s u then s
             else set_nodes (nodes s ++ [(u, ∅)]) s).
  set (s2 := if Molecule_contains s1 v then s1
             else set_nodes (nodes s1 ++ [(v, ∅)]) s1).
  assert (graph_extends s s1 ∧ u ∈ (nodes s1).*1 ∧ edges s1 = edges s)
    as (Hext1 & Hu1 & Hedges1).
  { subst s1. destruct (Molecule_contains s u) eqn:Hu.
    - split; [apply graph_extends_refl|]. split; [|done].
      by apply od_contains_true in Hu.
    - split; [|split; [|done]].
      + repeat split; try done.
        * exists [(u, ∅)]. split; [done|].
          by intros p ->%list_elem_of_singleton.
        * exists []. simpl. by rewrite app_nil_r.
      + simpl. rewrite fmap_app. apply elem_of_app. right.
        by apply list_elem_of_singleton. }
  assert (graph_extends s1 s2 ∧ u ∈ (nodes s2).*1 ∧ v ∈ (nodes s2).*1
          ∧ edges s2 = edges s1) as (Hext2 & Hu2 & Hv2 & Hedges2).
  { subst s2. destruct (Molecule_contains s1 v) eqn:Hv.
    - split; [apply graph_extends_refl|]. split; [done|]. split; [|done].
      by apply od_contains_true in Hv.
    - split; [|split; [|split; [|done]]].
      + repeat split; try done.
        * exists [(v, ∅)]. split; [done|].
          by intros p ->%list_elem_of_singleton.
        * exists []. simpl. by rewrite app_nil_r.
      + simpl. rewrite fmap_app. apply elem_of_app. by left.
      + simpl. rewrite fmap_app. apply elem_of_app. right.
        by apply list_elem_of_singleton. }
  pose proof (graph_extends_trans _ _ _ Hext1 Hext2) as Hext.
  assert (∀ a b, has_edge s2 a b = has_edge s a b) as Hsame.
  { intros a b. unfold has_edge. by rewrite Hedges2, Hedges1. }
  destruct (has_edge s2 u v) eqn:Huv.
  - exists s2. split; [done|]. split; [done|]. split; [done|]. split; [done|].
    intros a b. rewrite Hsame. split; [by left|].
    intros [?|[[-> ->]|[-> ->]]]; [done| |].
    + by rewrite <- Hsame.
    + by rewrite has_edge_sym, <- Hsame.
  - exists (set_edges (edges s2 ++ [(u, v)]) s2).
    split; [done|]. split; [|split; [done|split; [done|]]].
    + eapply graph_extends_trans; [exact Hext|].
      repeat split; try done.
      * exists []. simpl. split; [by rewrite app_nil_r|].
        by intros p ?%elem_of_nil.
      * by exists [(u, v)].
    + intros a b. rewrite <- Hsame, !has_edge_true. simpl.
      rewrite !elem_of_app, !list_elem_of_singleton.
      split.
      * intros [[?|[= -> ->]]|[?|[= -> ->]]]; auto.
      * intros [[?|?]|[[-> ->]|[-> ->]]]; auto.
Qed.

Lemma add_edges_from_run (ebunch : list (K * K)) s :
  ∃ s',
    add_edges_from ebunch s = (Ok tt, s')
    ∧ graph_extends s s'
    ∧ ∀ a b, has_edge s' a b = true <->
        has_edge s a b = true ∨ (a, b) ∈ ebunch ∨ (b, a) ∈ ebunch.
Proof.
  unfold add_edges_from. revert s.
  induction ebunch as [|[u v] ebunch IH]; intros s; simpl.
  - exists s. split; [done|]. split; [apply graph_extends_refl|].
    intros a b. split; [by left|].
    by intros [?|[?%elem_of_nil|?%elem_of_nil]].
  - destruct (add_edge_run u v s) as (s1 & Hrun1 & Hext1 & _ & _ & Hedge1).
    destruct (IH s1) as (s' & Hrun & Hext & Hedge).
    exists s'. split; [by rewrite (bind_Ok _ _ _ _ _ Hrun1)|].
    split; [by eapply graph_extends_trans|].
    intros a b. rewrite Hedge, Hedge1, !elem_of_cons. split.
    + intros [[?|[[-> ->]|[-> ->]]]|[?|?]]; auto.
    + intros [?|[[[= -> ->]|?]|[[= -> ->]|?]]]; auto.
Qed.

Lemma elem_of_consecutive_pairs {A} (l : list A) (u v : A) :
  (u, v) ∈ consecutive_pairs l <->
  ∃ j : nat, l !! j = Some u ∧ l !! S j = Some v.
Proof.
  unfold consecutive_pairs. rewrite elem_of_lookup_zip_with. split.
  - intros (j & x & y & [= -> ->] & Hx & Hy). exists j.
    apply lookup_take_Some in Hx as [Hx _]. by rewrite lookup_drop in Hy.
  - intros (j & Hu & Hv). exists j, u, v. split; [done|].
    rewrite lookup_drop. split; [|done].
    apply lookup_take_Some. split; [done|].
    apply lookup_lt_Some in Hv. lia.
Qed.

(** The loop of [make_edges_from_interaction_type]. *)
Lemma make_edges_loop (l : list (Interaction K)) s :
  ∃ s',
    for_each l (fun interaction =>
      if py_truthy (default (VBool true) (meta interaction !! "edge")) then
        add_edges_from (consecutive_pairs (atoms interaction))
      else ret tt) s = (Ok tt, s')
    ∧ graph_extends s s'
    ∧ ∀ a b, has_edge s' a b = true <->
        has_edge s a b = true
        ∨ ∃ interaction (j : nat),
            interaction ∈ l
            ∧ py_truthy (default (VBool true) (meta interaction !! "edge"))
              = true
            ∧ ((atoms interaction !! j = Some a
                ∧ atoms interaction !! S j = Some b)
               ∨ (atoms interaction !! j = Some b
                  ∧ atoms interaction !! S j = Some a)).
Proof.
  revert s. induction l as [|x l IH]; intros s; simpl.
  - exists s. split; [done|]. split; [apply graph_extends_refl|].
    intros a b. split; [by left|].
    by intros [?|(i & j & ?%elem_of_nil & _)].
  - assert (∃ s1,
              (if py_truthy (default (VBool true) (meta x !! "edge")) then
                 add_edges_from (consecutive_pairs (atoms x))
               else ret tt) s = (Ok tt, s1)
              ∧ graph_extends s s1
              ∧ ∀ a b, has_edge s1 a b = true <->
                  has_edge s a b = true
                  ∨ (py_truthy (default (VBool true) (meta x !! "edge"))
                     = true
                     ∧ ∃ j : nat,
                         (atoms x !! j = Some a ∧ atoms x !! S j = Some b)
                         ∨ (atoms x !! j = Some b ∧ atoms x !! S j = Some a)))
      as (s1 & Hrun1 & Hext1 & Hedge1).
    { destruct (py_truthy _).
      - destruct (add_edges_from_run (consecutive_pairs (atoms x)) s)
          as (s1 & Hrun1 & Hext1 & Hedge1).
        exists s1. split; [done|]. split; [done|].
        intros a b. rewrite Hedge1, !elem_of_consecutive_pairs. split.
        + intros [?|[(j & ?)|(j & ?)]]; [by left|right..];
            (split; [done|]); exists j; auto.
        + intros [?|[_ (j & [?|?])]]; [by left|right..];
            [left|right]; by exists j.
      - exists s. split; [done|]. split; [apply graph_extends_refl|].
        intros a b. split; [by left|]. by intros [?|[? _]]. }
    destruct (IH s1) as (s' & Hrun & Hext & Hedge).
    exists s'. split; [by rewrite (bind_Ok _ _ _ _ _ Hrun1)|].
    split; [by eapply graph_extends_trans|].
    intros a b. rewrite Hedge, Hedge1. split.
    + intros [[?|[Ht (j & Hj)]]|(i & j & Hi & Ht & Hj)].
      * by left.
      * right. exists x, j. split; [apply elem_of_cons; by left | done].
      * right. exists i, j. split; [apply elem_of_cons; by right | done].
    + intros [?|(i & j & [->|Hi]%elem_of_cons & Ht & Hj)].
      * left. by left.
      * left. right. split; [done|]. by exists j.
      * right. by exists i, j.
Qed.

(** X12: [make_edges_from_interaction_type] never raises.  Afterwards two
    nodes share an edge exactly when they did before or are consecutive
    atoms, in either order, of an interaction of the type whose [meta]
    does not set [edge] to a false value; a type without interactions
    changes nothing.  Nodes are only added, without attributes, for the
    atoms the graph did not hold, so the atoms view of the block, like the
    interactions, is as before. *)
Theorem make_edges_from_interaction_type_spec self (type_ : string) :
  ∃ self',
    make_edges_from_interaction_type type_ self = (Ok tt, self')
    ∧ graph_extends self self'
    ∧ (∀ n n', Block_atoms (mkBlock self' n') = Block_atoms (mkBlock self n))
    ∧ (interactions_get self type_ = [] -> self' = self)
    ∧ ∀ a b, has_edge self' a b = true <->
        has_edge self a b = true
        ∨ ∃ interaction (j : nat),
            interaction ∈ interactions_get self type_
            ∧ py_truthy (default (VBool true) (meta interaction !! "edge"))
              = true
            ∧ ((atoms interaction !! j = Some a
                ∧ atoms interaction !! S j = Some b)
               ∨ (atoms interaction !! j = Some b
                  ∧ atoms interaction !! S j = Some a)).
Proof.
  destruct (make_edges_loop (interactions_get self type_) self)
    as (self' & Hrun & Hext & Hedge).
  exists self'. split; [exact Hrun|]. split; [done|].
  split; [intros n n'; by apply graph_extends_Block_atoms|].
  split; [|done].
  intros Hnil. unfold make_edges_from_interaction_type, bind, get in Hrun.
  rewrite Hnil in Hrun. simpl in Hrun. by injection Hrun.
Qed.

Lemma graph_extends_interactions_get s s' (type_ : string) :
  graph_extends s s' -> interactions_get s' type_ = interactions_get s type_.
Proof. intros (Hi & _). unfold interactions_get. by rewrite Hi. Qed.

(** X13: [make_edges_from_interactions] never raises and makes the edges
    of the types bonds, angles, dihedrals, cmap and constraints, and of
    no other type: afterwards two nodes share an edge exactly when they
    did before or are consecutive atoms, in either order, of an
    interaction of one of these types whose [meta] does not set [edge] to
    a false value.  The interactions and the atoms view are as before. *)
Theorem make_edges_from_interactions_spec self :
  ∃ self',
    make_edges_from_interactions self = (Ok tt, self')
    ∧ graph_extends self self'
    ∧ (∀ n n', Block_atoms (mkBlock self' n') = Block_atoms (mkBlock self n))
    ∧ ∀ a b, has_edge self' a b = true <->
        has_edge self a b = true
        ∨ ∃ type_ interaction (j : nat),
            type_ ∈ ["bonds"; "angles"; "dihedrals"; "cmap"; "constraints"]
            ∧ interaction ∈ interactions_get self type_
            ∧ py_truthy (default (VBool true) (meta interaction !! "edge"))
              = true
            ∧ ((atoms interaction !! j = Some a
                ∧ atoms interaction !! S j = Some b)
               ∨ (atoms interaction !! j = Some b
                  ∧ atoms interaction !! S j = Some a)).
Proof.
  unfold make_edges_from_interactions.
  generalize ["bonds"; "angles"; "dihedrals"; "cmap"; "constraints"].
  intros types.
  assert (∃ self',
            for_each types make_edges_from_interaction_type self
            = (Ok tt, self')
            ∧ graph_extends self self'
            ∧ ∀ a b, has_edge self' a b = true <->
                has_edge self a b = true
                ∨ ∃ type_ interaction (j : nat),
                    type_ ∈ types
                    ∧ interaction ∈ interactions_get self type_
                    ∧ py_truthy
                        (default (VBool true) (meta interaction !! "edge"))
                      = true
                    ∧ ((atoms interaction !! j = Some a
                        ∧ atoms interaction !! S j = Some b)
                       ∨ (atoms interaction !! j = Some b
                          ∧ atoms interaction !! S j = Some a)))
    as (self' & Hrun & Hext & Hedge).
  { revert self. induction types as [|type_ types IH]; intros self; simpl.
    - exists self. split; [done|]. split; [apply graph_extends_refl|].
      intros a b. split; [by left|].
      by intros [?|(t & i & j & ?%elem_of_nil & _)].
    - destruct (make_edges_loop (interactions_get self type_) self)
        as (s1 & Hrun1 & Hext1 & Hedge1).
      destruct (IH s1) as (self' & Hrun & Hext & Hedge).
      exists self'. split.
      { assert (make_edges_from_interaction_type type_ self = (Ok tt, s1))
          as Hrun1' by exact Hrun1.
        rewrite (bind_Ok _ _ _ _ _ Hrun1'). exact Hrun. }
      split; [by eapply graph_extends_trans|].
      intros a b. rewrite Hedge, Hedge1.
      setoid_rewrite (graph_extends_interactions_get self s1 _ Hext1).
      split.
      + intros [[?|(i & j & Hi & Ht & Hj)]|(t & i & j & Hin & Hi & Ht & Hj)].
        * by left.
        * right. exists type_, i, j.
          split; [apply elem_of_cons; by left | done].
        * right. exists t, i, j.
          split; [apply elem_of_cons; by right | done].
      + intros [?|(t & i & j & [->|Hin]%elem_of_cons & Hi & Ht & Hj)].
        * left. by left.
        * left. right. by exists i, j.
        * right. by exists t, i, j. }
  exists self'. split; [done|]. split; [done|]. split; [|done].
  intros n n'. by apply graph_extends_Block_atoms.
Qed.

End edge_facts.

(** ** Guessing angles and dihedrals *)

Section guess_facts.
Context {K FF : Type} `{EqDecision K}.
Implicit Types (self : Molecule K FF).

Lemma neighbors_Some self (n : K) :
  n ∈ (nodes self).*1 ->
  ∃ nbrs, neighbors self n = Some nbrs
          ∧ ∀ x, x ∈ nbrs <-> has_edge self n x = true.
Proof.
  intros Hn. unfold neighbors, Molecule_contains.
  rewrite (proj2 (od_contains_true _ _) Hn).
  eexists. split; [reflexivity|].
  intros x. rewrite list_elem_of_omap, has_edge_true. split.
  - intros ([u v] & Hin & Hsome). simpl in Hsome.
    destruct (decide (u = n)) as [->|Hu].
    + injection Hsome as ->. by left.
    + destruct (decide (v = n)) as [->|Hv]; [|done].
      injection Hsome as ->. by right.
  - intros [Hin|Hin].
    + exists (n, x). split; [done|]. simpl. by rewrite decide_True.
    + exists (x, n). split; [done|]. simpl.
      destruct (decide (x = n)) as [->|Hx]; [done|].
      by rewrite decide_True.
Qed.

Lemma neighbors_None self (n : K) :
  n ∉ (nodes self).*1 -> neighbors self n = None.
Proof.
  intros Hn. unfold neighbors, Molecule_contains.
  destruct (od_contains (nodes self) n) eqn:Hc; [|done].
  by apply od_contains_true in Hc.
Qed.

Lemma option_concat_map_Some {A B} (f : A -> option (list B)) (l : list A) :
  (∀ x, x ∈ l -> is_Some (f x)) ->
  ∃ zs, option_concat_map f l = Some zs
        ∧ ∀ z, z ∈ zs <-> ∃ x ys, x ∈ l ∧ f x = Some ys ∧ z ∈ ys.
Proof.
  induction l as [|x l IH]; intros Hall; simpl.
  - exists []. split; [done|]. intros z. split; [by intros ?%elem_of_nil|].
    by intros (x & ys & ?%elem_of_nil & _).
  - destruct (Hall x) as [ys Hys]; [apply elem_of_cons; by left|].
    destruct IH as (zs & -> & Hzs).
    { intros y Hy. apply Hall, elem_of_cons. by right. }
    rewrite Hys. exists (ys ++ zs). split; [done|].
    intros z. rewrite elem_of_app, Hzs. split.
    + intros [Hz|(y & ys' & Hy & Hf & Hz)].
      * exists x, ys. split; [apply elem_of_cons; by left | done].
      * exists y, ys'. split; [apply elem_of_cons; by right | done].
    + intros (y & ys' & [->|Hy]%elem_of_cons & Hf & Hz).
      * left. congruence.
      * right. by exists y, ys'.
Qed.

Lemma option_concat_map_None {A B} (f : A -> option (list B)) (l : list A) x :
  x ∈ l -> f x = None -> option_concat_map f l = None.
Proof.
  intros Hx Hf. induction l as [|y l IH]; [by apply elem_of_nil in Hx|].
  simpl. apply elem_of_cons in Hx as [<-|Hx].
  - by rewrite Hf.
  - rewrite IH by done. by destruct (f y).
Qed.

Lemma has_edge_nodes self (a b : K) :
  edges_closed self -> has_edge self a b = true ->
  a ∈ (nodes self).*1 ∧ b ∈ (nodes self).*1.
Proof.
  intros Hclosed [Hin|Hin]%has_edge_true; apply Hclosed in Hin; tauto.
Qed.

Lemma guess_angles_run self :
  edges_closed self ->
  ∃ angles,
    guess_angles self = Some angles
    ∧ ∀ a b c, (a, b, c) ∈ angles <->
        has_edge self a b = true ∧ has_edge self b c = true ∧ c ≠ a.
Proof.
  intros Hclosed. unfold guess_angles.
  set (inner := fun a b =>
         match neighbors self b with
         | Some nbrs_b =>
             Some (omap (fun c => if decide (c = a) then None
                                  else Some (a, b, c)) nbrs_b)
         | None => None
         end).
  set (outer := fun a =>
         match neighbors self a with
         | Some nbrs_a => option_concat_map (inner a) nbrs_a
         | None => None
         end).
  assert (∀ a b, has_edge self a b = true ->
            ∃ ys, inner a b = Some ys
                  ∧ ∀ z, z ∈ ys <->
                      ∃ c, z = (a, b, c)
                           ∧ has_edge self b c = true ∧ c ≠ a) as Hinner.
  { intros a b Hab. subst inner. simpl.
    destruct (neighbors_Some self b) as (nbrs & -> & Hnbrs).
    { by apply (has_edge_nodes self a b). }
    eexists. split; [reflexivity|].
    intros z. rewrite list_elem_of_omap. split.
    - intros (c & Hc & Hsome). destruct (decide (c = a)); [done|].
      injection Hsome as <-. exists c. by rewrite <- Hnbrs.
    - intros (c & -> & Hbc & Hca). exists c. rewrite Hnbrs.
      split; [done|]. by rewrite decide_False. }
  assert (∀ a, a ∈ (nodes self).*1 ->
            ∃ ys, outer a = Some ys
                  ∧ ∀ z, z ∈ ys <->
                      ∃ b c, z = (a, b, c) ∧ has_edge self a b = true
                             ∧ has_edge self b c = true ∧ c ≠ a) as Houter.
  { intros a Ha. subst outer. simpl.
    destruct (neighbors_Some self a Ha) as (nbrs & -> & Hnbrs).
    destruct (option_concat_map_Some (inner a) nbrs) as (ys & -> & Hys).
    { intros b Hb. apply Hnbrs in Hb.
      destruct (Hinner a b Hb) as (zs & -> & _). by eexists. }
    exists ys. split; [done|]. intros z. rewrite Hys. split.
    - intros (b & zs & Hb & Hzs & Hz). apply Hnbrs in Hb.
      destruct (Hinner a b Hb) as (zs' & Hzs' & Hin).
      assert (zs' = zs) as -> by congruence.
      apply Hin in Hz as (c & -> & ? & ?). by exists b, c.
    - intros (b & c & -> & Hab & Hbc & Hca).
      destruct (Hinner a b Hab) as (zs & Hzs & Hin).
      exists b, zs. rewrite Hnbrs. split; [done|]. split; [done|].
      apply Hin. by exists c. }
  destruct (option_concat_map_Some outer (nodes self).*1)
    as (angles & Hrun & Hangles).
  { intros a Ha. destruct (Houter a Ha) as (ys & -> & _). by eexists. }
  exists angles. split; [exact Hrun|]. intros a b c. rewrite Hangles. split.
  - intros (a' & ys & Ha' & Hys & Hz).
    destruct (Houter a' Ha') as (ys' & Hys' & Hin).
    assert (ys' = ys) as -> by congruence.
    apply Hin in Hz as (b' & c' & [= -> -> ->] & ?). done.
  - intros (Hab & Hbc & Hca).
    assert (a ∈ (nodes self).*1) as Ha by by apply (has_edge_nodes self a b).
    destruct (Houter a Ha) as (ys & Hys & Hin).
    exists a, ys. split; [done|]. split; [done|]. apply Hin. by exists b, c.
Qed.

(** X14: on a graph whose edges join its nodes, [guess_angles] yields
    [(a, b, c)] exactly when [a] and [b] share an edge, [b] and [c] share
    an edge, and [c] is not [a]; so every angle is yielded in both
    directions. *)
Theorem guess_angles_spec self :
  edges_closed self ->
  ∃ angles,
    guess_angles self = Some angles
    ∧ (∀ a b c, (a, b, c) ∈ angles <->
         has_edge self a b = true ∧ has_edge self b c = true ∧ c ≠ a)
    ∧ (∀ a b c, (a, b, c) ∈ angles -> (c, b, a) ∈ angles).
Proof.
  intros Hclosed. destruct (guess_angles_run self Hclosed) as (angles & Hrun & Hin).
  exists angles. split; [done|]. split; [done|].
  intros a b c (Hab & Hbc & Hca)%Hin. apply Hin.
  rewrite (has_edge_sym self c b), (has_edge_sym self b a). auto.
Qed.

Lemma guess_dihedrals_given self (angles : list (K * K * K)) :
  (∀ a b c, (a, b, c) ∈ angles -> c ∈ (nodes self).*1) ->
  ∃ dihedrals,
    guess_dihedrals self (Some angles) = Some dihedrals
    ∧ ∀ a b c d, (a, b, c, d) ∈ dihedrals <->
        (a, b, c) ∈ angles ∧ has_edge self c d = true ∧ d ≠ a ∧ d ≠ b.
Proof.
  intros Hnodes. unfold guess_dihedrals.
  set (f := fun abc : K * K * K =>
         let '(a, b, c) := abc in
         match neighbors self c with
         | Some nbrs_c =>
             Some (omap (fun d => if bool_decide (d = a ∨ d = b) then None
                                  else Some (a, b, c, d)) nbrs_c)
         | None => None
         end).
  assert (∀ a b c, (a, b, c) ∈ angles ->
            ∃ ys, f (a, b, c) = Some ys
                  ∧ ∀ z, z ∈ ys <->
                      ∃ d, z = (a, b, c, d) ∧ has_edge self c d = true
                           ∧ d ≠ a ∧ d ≠ b) as Hf.
  { intros a b c Habc. subst f. simpl.
    destruct (neighbors_Some self c (Hnodes a b c Habc)) as (nbrs & -> & Hnbrs).
    eexists. split; [reflexivity|].
    intros z. rewrite list_elem_of_omap. split.
    - intros (d & Hd & Hsome). case_bool_decide as Hdab; [done|].
      injection Hsome as <-. exists d. rewrite <- Hnbrs.
      split; [done|]. split; [done|]. split; intros ->; apply Hdab; auto.
    - intros (d & -> & Hcd & Hda & Hdb). exists d. rewrite Hnbrs.
      split; [done|]. rewrite bool_decide_eq_false_2; [done|].
      by intros [?|?]. }
  destruct (option_concat_map_Some f angles) as (dihedrals & Hrun & Hd).
  { intros [[a b] c] Habc. destruct (Hf a b c Habc) as (ys & -> & _).
    by eexists. }
  exists dihedrals. split; [exact Hrun|]. intros a b c d. rewrite Hd. split.
  - intros ([[a' b'] c'] & ys & Habc & Hys & Hz).
    destruct (Hf a' b' c' Habc) as (ys' & Hys' & Hin).
    assert (ys' = ys) as -> by congruence.
    apply Hin in Hz as (d' & [= -> -> -> ->] & ?). done.
  - intros (Habc & Hcd & Hda & Hdb).
    destruct (Hf a b c Habc) as (ys & Hys & Hin).
    exists (a, b, c), ys. split; [done|]. split; [done|].
    apply Hin. by exists d.
Qed.

(** X15: on a graph whose edges join its nodes, [guess_dihedrals()] yields
    [(a, b, c, d)] exactly when [a]-[b], [b]-[c] and [c]-[d] are edges,
    [c] is not [a], and [d] is neither [a] nor [b]; every dihedral is
    yielded in both directions, and on a graph without an edge from a node
    to itself its four atoms are pairwise distinct. *)
Theorem guess_dihedrals_spec self :
  edges_closed self ->
  ∃ dihedrals,
    guess_dihedrals self None = Some dihedrals
    ∧ (∀ a b c d, (a, b, c, d) ∈ dihedrals <->
         has_edge self a b = true ∧ has_edge self b c = true
         ∧ has_edge self c d = true ∧ c ≠ a ∧ d ≠ a ∧ d ≠ b)
    ∧ (∀ a b c d, (a, b, c, d) ∈ dihedrals -> (d, c, b, a) ∈ dihedrals)
    ∧ ((∀ n, has_edge self n n = false) ->
       ∀ a b c d, (a, b, c, d) ∈ dihedrals ->
         a ≠ b ∧ a ≠ c ∧ a ≠ d ∧ b ≠ c ∧ b ≠ d ∧ c ≠ d).
Proof.
  intros Hclosed.
  destruct (guess_angles_run self Hclosed) as (angles & Hrun & Hangles).
  destruct (guess_dihedrals_given self angles) as (dihedrals & Hd & Hin).
  { intros a b c (_ & Hbc & _)%Hangles. by apply (has_edge_nodes self b c). }
  assert (∀ a b c d, (a, b, c, d) ∈ dihedrals <->
            has_edge self a b = true ∧ has_edge self b c = true
            ∧ has_edge self c d = true ∧ c ≠ a ∧ d ≠ a ∧ d ≠ b) as Hspec.
  { intros a b c d. rewrite Hin, Hangles. tauto. }
  exists dihedrals. split; [|split; [done|split]].
  - unfold guess_dihedrals in *. by rewrite Hrun.
  - intros a b c d (Hab & Hbc & Hcd & Hca & Hda & Hdb)%Hspec. apply Hspec.
    rewrite (has_edge_sym self d c), (has_edge_sym self c b),
      (has_edge_sym self b a). auto 10.
  - intros Hloop a b c d (Hab & Hbc & Hcd & Hca & Hda & Hdb)%Hspec.
    repeat split; try done; intros ->; congruence.
Qed.

(** X16: with angles handed in, [guess_dihedrals] extends each angle
    [(a, b, c)] by every neighbour [d] of [c] that is neither [a] nor [b],
    and raises (NetworkXError, from [neighbors]) when the last atom of one
    of the angles is not a node of the graph. *)
Theorem guess_dihedrals_angles self (angles : list (K * K * K)) :
  ((∀ a b c, (a, b, c) ∈ angles -> c ∈ (nodes self).*1) ->
   ∃ dihedrals,
     guess_dihedrals self (Some angles) = Some dihedrals
     ∧ ∀ a b c d, (a, b, c, d) ∈ dihedrals <->
         (a, b, c) ∈ angles ∧ has_edge self c d = true ∧ d ≠ a ∧ d ≠ b)
  ∧ ((∃ a b c, (a, b, c) ∈ angles ∧ c ∉ (nodes self).*1) ->
     guess_dihedrals self (Some angles) = None).
Proof.
  split; [apply guess_dihedrals_given|].
  intros (a & b & c & Hin & Hc). unfold guess_dihedrals.
  apply (option_concat_map_None _ _ (a, b, c)); [done|].
  simpl. by rewrite neighbors_None.
Qed.

End guess_facts.

(** ** Interactions and edges carried over by a merge *)

Section carry_facts.
Context {K FF : Type} `{Countable K} `{EqDecision FF}.
Implicit Types (s self : Molecule Z FF) (other : Molecule K FF).

Lemma same_graph_refl s : same_graph s s.
Proof. by repeat split. Qed.

Lemma same_graph_trans s1 s2 s3 :
  same_graph s1 s2 -> same_graph s2 s3 -> same_graph s1 s3.
Proof.
  intros (? & ? & ? & ? & ?) (? & ? & ? & ? & ?). repeat split; congruence.
Qed.

Lemma result_map_correspondence (corr : gmap K Z) (l : list K) zs :
  result_map (correspondence_getitem corr) l = Ok zs ->
  zs = (fun k => default 0%Z (corr !! k)) <$> l
  ∧ ∀ k, k ∈ l -> is_Some (corr !! k).
Proof.
  revert zs. induction l as [|k l IH]; intros zs; simpl.
  - intros [= <-]. split; [done|]. by intros k ?%elem_of_nil.
  - unfold correspondence_getitem at 1.
    destruct (corr !! k) as [z|] eqn:Hk; [|done]. simpl.
    destruct (result_map _ l) as [zs'|]; [|done]. simpl. intros [= <-].
    destruct (IH zs' eq_refl) as [-> Hall]. split; [done|].
    intros k' [->|Hk']%elem_of_cons; [by eexists | by apply Hall].
Qed.

(** The loop over the interactions of one type. *)
Lemma add_remapped_inner
    (meta_of : Interaction K -> option (gmap string value))
    (corr : gmap K Z) (name : string) (l : list (Interaction K)) s :
  match
    for_each l (fun interaction =>
      atoms_ <- lift (result_map (correspondence_getitem corr)
                        (atoms interaction)) ;;
      add_interaction name atoms_ (parameters interaction)
        (meta_of interaction)) s
  with
  | (Ok _, s') =>
      same_graph s s'
      ∧ (∀ t, interactions_get s' t
              = interactions_get s t
                  ++ if decide (name = t)
                     then (fun i => remap_interaction corr
                                      (default ∅ (meta_of i)) i) <$> l
                     else [])
      ∧ ∀ i k, i ∈ l -> k ∈ atoms i -> is_Some (corr !! k)
  | (Err _, _) => True
  end.
Proof.
  revert s. induction l as [|x l IH]; intros s; simpl.
  - split; [apply same_graph_refl|]. split.
    + intros t. destruct (decide _); simpl; by rewrite app_nil_r.
    + by intros i k ?%elem_of_nil.
  - unfold bind at 1. unfold bind at 1. unfold lift at 1.
    destruct (result_map _ (atoms x)) as [zs|] eqn:Hzs; [|done].
    apply result_map_correspondence in Hzs as [-> Hsome].
    rewrite add_interaction_unfold. destruct (forallb _ _); [|done].
    set (s1 := set_interactions _ s).
    specialize (IH s1). destruct (for_each l _ s1) as [[[]|] s']; [|done].
    destruct IH as (Hsame & Hget & Hall).
    split; [|split].
    + destruct Hsame as (? & ? & ? & ? & ?). by repeat split.
    + intros t. rewrite Hget. unfold interactions_get at 1. simpl.
      destruct (decide (name = t)) as [<-|Hne].
      * rewrite od_get_set_eq. simpl. by rewrite <- app_assoc.
      * rewrite od_get_set_ne by done. by rewrite !app_nil_r.
    + intros i k [->|Hi]%elem_of_cons; [apply Hsome | by apply Hall].
Qed.

(** The loops over the registry of the other molecule: if they end, the
    list of every type got the interactions of that type, renamed. *)
Lemma add_remapped_run
    (meta_of : Interaction K -> option (gmap string value))
    (corr : gmap K Z) (registry : list (string * list (Interaction K))) s :
  NoDup registry.*1 ->
  match add_remapped meta_of corr registry s with
  | (Ok _, s') =>
      same_graph s s'
      ∧ (∀ t, interactions_get s' t
              = interactions_get s t
                  ++ ((fun i => remap_interaction corr
                                  (default ∅ (meta_of i)) i)
                        <$> default [] (od_get registry t)))
      ∧ ∀ name l i k, (name, l) ∈ registry -> i ∈ l -> k ∈ atoms i ->
          is_Some (corr !! k)
  | (Err _, _) => True
  end.
Proof.
  unfold add_remapped. revert s.
  induction registry as [|[name l] registry IH]; intros s Hnd; simpl.
  - split; [apply same_graph_refl|]. split.
    + intros t. by rewrite app_nil_r.
    + by intros name l i k ?%elem_of_nil.
  - apply list.NoDup_cons in Hnd as [Hname Hnd].
    unfold bind at 1.
    pose proof (add_remapped_inner meta_of corr name l s) as Hinner.
    destruct (for_each l _ s) as [[[]|] s1]; [|done].
    destruct Hinner as (Hsame1 & Hget1 & Hall1).
    specialize (IH s1 Hnd).
    destruct (for_each registry _ s1) as [[[]|] s']; [|done].
    destruct IH as (Hsame & Hget & Hall).
    split; [by eapply same_graph_trans|]. split.
    + intros t. rewrite Hget, Hget1.
      destruct (decide (t = name)) as [->|Hne].
      * rewrite decide_True by done.
        assert (od_get registry name = None) as ->
          by by apply od_get_None.
        simpl. by rewrite app_nil_r.
      * rewrite decide_False by done. by rewrite app_nil_r.
    + intros name' l' i k [[= -> ->]|Hin]%elem_of_cons Hi Hk.
      * by apply (Hall1 i).
      * by apply (Hall name' l' i).
Qed.

Lemma merge_nodes_frame (l : list (K * gmap string value)) :
  ∀ idx roff cgoff (corr : gmap K Z) s,
    match merge_nodes idx l roff cgoff corr s with
    | (Ok _, s') => interactions s' = interactions s ∧ edges s' = edges s
    | (Err _, _) => True
    end.
Proof.
  induction l as [|[k attrs] l IH]; intros idx roff cgoff corr s; simpl.
  - done.
  - unfold bind at 1. unfold lift at 1.
    destruct (py_add _ roff) as [resid|]; [|done].
    unfold bind at 1. unfold lift at 1.
    destruct (py_add _ cgoff) as [charge_group|]; [|done].
    unfold bind at 1. unfold add_node at 1.
    destruct (keyword_clash _); [done|]. unfold modify at 1.
    match goal with
    | |- match merge_nodes _ _ _ _ _ ?s1 with _ => _ end =>
        specialize (IH (idx + 1)%Z roff cgoff (<[k:=idx]> corr) s1);
        destruct (merge_nodes (idx + 1) l roff cgoff (<[k:=idx]> corr) s1)
          as [[c|] s']; [|done];
        destruct IH as [-> ->]
    end.
    by destruct (od_get (nodes s) idx).
Qed.

(** The loop over the edges of the other molecule. *)
Lemma merge_edges_run other (corr : gmap K Z) s :
  match merge_edges other corr s with
  | (Ok _, s') =>
      graph_extends s s'
      ∧ ∀ a b, has_edge s' a b = true <->
          has_edge s a b = true
          ∨ ∃ u v, (u, v) ∈ edges other ∧ a ≠ b
                   ∧ ((corr !! u = Some a ∧ corr !! v = Some b)
                      ∨ (corr !! u = Some b ∧ corr !! v = Some a))
  | (Err _, _) => True
  end.
Proof.
  unfold merge_edges. revert s.
  induction (edges other) as [|[u v] l IH]; intros s; simpl.
  - split; [apply graph_extends_refl|]. intros a b. split; [by left|].
    by intros [?|(u & v & ?%elem_of_nil & _)].
  - unfold bind at 1. unfold bind at 1. unfold lift at 1.
    unfold correspondence_getitem at 1.
    destruct (corr !! u) as [c1|] eqn:Hu; [|done].
    unfold bind at 1. unfold lift at 1. unfold correspondence_getitem at 1.
    destruct (corr !! v) as [c2|] eqn:Hv; [|done].
    assert (∃ s1,
              (if negb (bool_decide (c1 = c2)) then add_edge c1 c2
               else ret tt) s = (Ok tt, s1)
              ∧ graph_extends s s1
              ∧ ∀ a b, has_edge s1 a b = true <->
                  has_edge s a b = true
                  ∨ (a ≠ b ∧ ((a = c1 ∧ b = c2) ∨ (a = c2 ∧ b = c1))))
      as (s1 & -> & Hext1 & Hedge1).
    { case_bool_decide as Hc; simpl.
      - exists s. split; [done|]. split; [apply graph_extends_refl|].
        intros a b. split; [by left|].
        intros [?|[Hab [[-> ->]|[-> ->]]]]; done.
      - destruct (add_edge_run c1 c2 s) as (s1 & -> & Hext1 & _ & _ & Hedge1).
        exists s1. split; [done|]. split; [done|].
        intros a b. rewrite Hedge1. split.
        + intros [?|[[-> ->]|[-> ->]]]; [by left|right..];
            (split; [congruence | auto]).
        + intros [?|[_ [?|?]]]; auto. }
    specialize (IH s1). destruct (for_each l _ s1) as [[[]|] s']; [|done].
    destruct IH as (Hext & Hedge).
    split; [by eapply graph_extends_trans|].
    intros a b. rewrite Hedge, Hedge1. split.
    + intros [[?|[Hab Hc]]|(u' & v' & Hin & Hab & Hc)].
      * by left.
      * right. exists u, v. split; [apply elem_of_cons; by left|].
        split; [done|]. destruct Hc as [[-> ->]|[-> ->]]; auto.
      * right. exists u', v'. split; [apply elem_of_cons; by right | done].
    + intros [?|(u' & v' & [[= -> ->]|Hin]%elem_of_cons & Hab & Hc)].
      * left. by left.
      * left. right. split; [done|].
        destruct Hc as [[Hu' Hv']|[Hu' Hv']]; [left|right]; split; congruence.
      * right. by exists u', v'.
Qed.

(** A merge that ends went through the three loops. *)
Lemma merge_molecule_Ok self other (corr : gmap K Z) self' :
  merge_molecule other self = (Ok corr, self') ->
  ∃ s1 s2,
    interactions s1 = interactions self ∧ edges s1 = edges self
    ∧ merge_interactions other corr s1 = (Ok tt, s2)
    ∧ merge_edges other corr s2 = (Ok tt, self').
Proof.
  rewrite merge_molecule_unfold.
  destruct (bool_decide (force_field self = force_field other)); [|done].
  simpl.
  set (self1 := if bool_decide (nrexcl self = None)
                   && bool_decide (length (nodes self) = 0%nat)
                then set_nrexcl (nrexcl other) self else self).
  assert (interactions self1 = interactions self ∧ edges self1 = edges self)
    as [Hi1 He1] by (subst self1; by destruct (_ && _)).
  destruct (bool_decide (nrexcl self1 = nrexcl other)); [|done].
  unfold merge_body. unfold bind at 1. unfold get at 1.
  unfold bind at 1. unfold lift at 1.
  destruct (merge_offsets self1) as [[[offset roff] cgoff]|]; [|done].
  unfold bind at 1.
  pose proof (merge_nodes_frame (nodes other) (offset + 1)%Z roff cgoff ∅ self1)
    as Hframe.
  destruct (merge_nodes _ _ _ _ _ self1) as [[c|] s1]; [|done].
  destruct Hframe as [Hi He].
  unfold bind at 1.
  destruct (merge_interactions other c s1) as [[[]|] s2] eqn:Hints; [|done].
  unfold bind at 1.
  destruct (merge_edges other c s2) as [[[]|] s3] eqn:Hedges; [|done].
  intros [= <- <-]. exists s1, s2. split; [congruence|]. split; [congruence|].
  done.
Qed.

(** X17: when [merge_molecule] returns, the list of every interaction
    type of [self] is the former list followed by the interactions of
    that type of the other molecule, in their order, each with its atoms
    renamed by the correspondence returned and with its parameters and
    [meta]; every atom of these interactions is in the correspondence.
    (The types of the other molecule are the keys of a dict: they are
    distinct.) *)
Theorem merge_molecule_interactions self other (corr : gmap K Z) self' :
  NoDup (interactions other).*1 ->
  merge_molecule other self = (Ok corr, self') ->
  (∀ t, interactions_get self' t
        = interactions_get self t
            ++ ((fun i => remap_interaction corr (meta i) i)
                  <$> interactions_get other t))
  ∧ ∀ t i k, i ∈ interactions_get other t -> k ∈ atoms i ->
      is_Some (corr !! k).
Proof.
  intros Hnd (s1 & s2 & Hi1 & He1 & Hints & Hedges)%merge_molecule_Ok.
  pose proof (add_remapped_run (fun i => Some (meta i)) corr
                (interactions other) s1 Hnd) as Hrun.
  change (add_remapped (fun i => Some (meta i)) corr (interactions other) s1)
    with (merge_interactions other corr s1) in Hrun.
  rewrite Hints in Hrun. destruct Hrun as (_ & Hget & Hall).
  pose proof (merge_edges_run other corr s2) as Hrun.
  rewrite Hedges in Hrun. destruct Hrun as [Hext _].
  split.
  - intros t. rewrite (graph_extends_interactions_get s2 self' t Hext), Hget.
    unfold interactions_get at 1. by rewrite Hi1.
  - intros t i k Hi Hk. unfold interactions_get in Hi.
    destruct (od_get (interactions other) t) as [l|] eqn:Hl;
      [|by apply elem_of_nil in Hi].
    apply (Hall t l i k); [|done..].
    clear -Hl. induction (interactions other) as [|[t' l'] reg IH];
      [done|]. simpl in Hl. destruct (decide (t = t')) as [->|Hne].
    + injection Hl as ->. apply elem_of_cons. by left.
    + apply elem_of_cons. right. by apply IH.
Qed.

(** X18: when [merge_molecule] returns, two nodes of [self] share an edge
    exactly when they did before or are the images, by the correspondence
    returned, of the two ends of an edge of the other molecule and are
    not one node. *)
Theorem merge_molecule_edges self other (corr : gmap K Z) self' :
  merge_molecule other self = (Ok corr, self') ->
  ∀ a b, has_edge self' a b = true <->
    has_edge self a b = true
    ∨ ∃ u v, (u, v) ∈ edges other ∧ a ≠ b
             ∧ ((corr !! u = Some a ∧ corr !! v = Some b)
                ∨ (corr !! u = Some b ∧ corr !! v = Some a)).
Proof.
  intros (s1 & s2 & Hi1 & He1 & Hints & Hedges)%merge_molecule_Ok a b.
  pose proof (add_remapped_run (fun i => Some (meta i)) corr
                (interactions other) s1) as Hrun.
  pose proof (add_remapped_inner (fun i => Some (meta i)) corr) as Hinner.
  assert (edges s2 = edges s1) as He2.
  { clear -Hints Hinner. unfold merge_interactions in Hints.
    revert s1 Hints. induction (interactions other) as [|[name l] reg IH];
      intros s1; simpl.
    - by intros [= ->].
    - unfold bind at 1. specialize (Hinner name l s1).
      destruct (for_each l _ s1) as [[[]|] s1']; [|done].
      destruct Hinner as ((_ & He & _) & _).
      intros Hrest%IH. congruence. }
  pose proof (merge_edges_run other corr s2) as Hrun'.
  rewrite Hedges in Hrun'. destruct Hrun' as [_ Hedge].
  rewrite Hedge. unfold has_edge. by rewrite He2, He1.
Qed.

End carry_facts.

(** ** A block turned into a molecule *)

Section to_molecule_facts.
Context {K FF : Type} `{Countable K} `{EqDecision FF}.
Implicit Types (s mol : Molecule Z FF) (self : Block K FF).

Lemma keyword_clash_to_molecule_atom self (roff cgoff : Z)
    (attrs : gmap string value) :
  keyword_clash (to_molecule_atom self roff cgoff attrs) = keyword_clash attrs.
Proof.
  unfold keyword_clash, to_molecule_atom. simpl.
  by rewrite !lookup_insert_ne by done.
Qed.

(** The nodes made for the atoms [l], numbered from [idx] on. *)
Lemma to_molecule_nodes_spec self (roff cgoff : Z)
    (l : list (K * gmap string value)) :
  ∀ (idx : Z) (name_to_idx : gmap K Z) s,
    (∀ k, k ∈ (nodes s).*1 -> (k < idx)%Z) ->
    (∀ k attrs, (k, attrs) ∈ l ->
       int_or_absent attrs "resid" ∧ int_or_absent attrs "charge_group") ->
    (∀ k attrs, (k, attrs) ∈ l -> keyword_clash attrs = false) ->
    NoDup l.*1 ->
    ∃ name_to_idx',
      to_molecule_nodes self idx l roff cgoff name_to_idx s
      = (Ok name_to_idx',
         set_nodes
           (nodes s
              ++ imap (fun i ka => ((idx + Z.of_nat i)%Z,
                                    to_molecule_atom self roff cgoff ka.2)) l)
           s)
      ∧ (∀ k, k ∉ l.*1 -> name_to_idx' !! k = name_to_idx !! k)
      ∧ (∀ (i : nat) k,
           l.*1 !! i = Some k -> name_to_idx' !! k = Some (idx + Z.of_nat i)%Z).
Proof.
  induction l as [|[k attrs] l IH]; intros idx corr s Hlt Htyped Hpass Hnd.
  - exists corr. simpl. rewrite app_nil_r. split; [by destruct s|].
    split; [done|]. intros i k Hi. by rewrite lookup_nil in Hi.
  - simpl in Hnd. apply list.NoDup_cons in Hnd as [Hk Hnd].
    destruct (Htyped k attrs) as [Hr Hc]; [apply elem_of_cons; by left|].
    simpl. unfold bind at 1. unfold lift at 1.
    rewrite (py_add_int _ _ _ Hr).
    unfold bind at 1. unfold lift at 1.
    rewrite !lookup_insert_ne by done.
    rewrite (py_add_int _ _ _ Hc).
    fold (to_molecule_atom self roff cgoff attrs).
    unfold bind at 1. unfold add_node at 1.
    rewrite keyword_clash_to_molecule_atom, (Hpass k attrs)
      by (apply elem_of_cons; by left).
    unfold modify at 1.
    assert (od_get (nodes s) idx = None) as ->.
    { apply od_get_None. intros Hin. apply Hlt in Hin. lia. }
    edestruct (IH (idx + 1)%Z (<[k:=idx]> corr)
                 (set_nodes
                    (nodes s ++ [(idx, to_molecule_atom self roff cgoff attrs)])
                    s)) as (corr' & -> & Hout & Hin).
    { simpl. intros k'. rewrite fmap_app, elem_of_app. simpl.
      intros [Hk'|Hk'%list_elem_of_singleton]; [apply Hlt in Hk'|]; lia. }
    { intros k' attrs' Hin. apply (Htyped k' attrs'), elem_of_cons. by right. }
    { intros k' attrs' Hin. apply (Hpass k' attrs'), elem_of_cons. by right. }
    { done. }
    exists corr'. split; [|split].
    + f_equal. unfold set_nodes. simpl. f_equal.
      rewrite <- app_assoc. simpl. f_equal. f_equal.
      * f_equal. lia.
      * apply imap_ext. intros i ka _. simpl. f_equal. lia.
    + intros k' Hk'. simpl in Hk'. apply not_elem_of_cons in Hk' as [Hne Hk'].
      rewrite Hout by done. by rewrite lookup_insert_ne.
    + intros [|i] k' Hi; simpl in Hi.
      * injection Hi as <-. rewrite Hout by done.
        rewrite lookup_insert_eq. f_equal. lia.
      * rewrite (Hin i k' Hi). f_equal. lia.
Qed.

(** The loops over a registry end when every atom is renamed to a node. *)
Lemma add_remapped_total
    (meta_of : Interaction K -> option (gmap string value))
    (corr : gmap K Z) (registry : list (string * list (Interaction K))) s :
  (∀ name l i k, (name, l) ∈ registry -> i ∈ l -> k ∈ atoms i ->
     ∃ z, corr !! k = Some z ∧ z ∈ (nodes s).*1) ->
  ∃ s', add_remapped meta_of corr registry s = (Ok tt, s').
Proof.
  intros Hclosed.
  destruct (hoare_total (fun s' : Molecule Z FF => nodes s' = nodes s)
              (add_remapped meta_of corr registry)
              (fun _ s' => nodes s' = nodes s) s) as ([] & s' & Hrun & _);
    [|done|by exists s'].
  apply hoare_for_each. intros [name l] Hl.
  apply hoare_for_each. intros i Hi s0 Hs0.
  destruct (result_map_Ok (correspondence_getitem corr)
              (fun z => z ∈ (nodes s).*1) (atoms i)) as (zs & Hzs & Hin).
  { intros k Hk. destruct (Hclosed name l i k Hl Hi Hk) as (z & Hz & HzN).
    exists z. unfold correspondence_getitem. by rewrite Hz. }
  unfold bind at 1, lift at 1. rewrite Hzs, add_interaction_unfold.
  rewrite (proj2 (forallb_contains s0 zs)); [done|].
  intros k Hk. rewrite Hs0. by apply Hin.
Qed.

(** The loop over the edges of the block: both ends of every edge are
    renamed, and no edge is left out. *)
Lemma to_molecule_edges_run (corr : gmap K Z) (l : list (K * K)) :
  ∀ s,
    (∀ u v, (u, v) ∈ l ->
       ∃ a b, corr !! u = Some a ∧ corr !! v = Some b
              ∧ a ∈ (nodes s).*1 ∧ b ∈ (nodes s).*1) ->
    ∃ s',
      for_each l (fun edge =>
        c1 <- lift (correspondence_getitem corr edge.1) ;;
        c2 <- lift (correspondence_getitem corr edge.2) ;;
        add_edge c1 c2) s = (Ok tt, s')
      ∧ nodes s' = nodes s ∧ interactions s' = interactions s
      ∧ nrexcl s' = nrexcl s ∧ force_field s' = force_field s
      ∧ ∀ a b, has_edge s' a b = true <->
          has_edge s a b = true
          ∨ ∃ u v, (u, v) ∈ l
                   ∧ ((corr !! u = Some a ∧ corr !! v = Some b)
                      ∨ (corr !! u = Some b ∧ corr !! v = Some a)).
Proof.
  induction l as [|[u v] l IH]; intros s Hclosed; simpl.
  - exists s. repeat split; try done; [by left|].
    by intros [?|(u & v & ?%elem_of_nil & _)].
  - destruct (Hclosed u v) as (c1 & c2 & Hu & Hv & Hc1 & Hc2);
      [apply elem_of_cons; by left|].
    destruct (add_edge_run c1 c2 s)
      as (s1 & Hrun1 & (Hi1 & Hn1 & Hf1 & _) & _ & _ & Hedge1).
    assert (nodes s1 = nodes s) as Hnodes1.
    { unfold add_edge, modify, Molecule_contains in Hrun1.
      rewrite (proj2 (od_contains_true (nodes s) c1)) in Hrun1 by done.
      rewrite (proj2 (od_contains_true (nodes s) c2)) in Hrun1 by done.
      injection Hrun1 as <-. by destruct (has_edge s c1 c2). }
    destruct (IH s1) as (s' & Hrun & Hnodes & Hi & Hn & Hf & Hedge).
    { intros u' v' Hin. rewrite Hnodes1. apply Hclosed, elem_of_cons.
      by right. }
    exists s'. split; [|repeat split; try congruence].
    + unfold bind at 1.
      assert ((c1 <- lift (correspondence_getitem corr u) ;;
               c2 <- lift (correspondence_getitem corr v) ;;
               add_edge c1 c2) s = (Ok tt, s1)) as Hbody.
      { unfold bind, lift, correspondence_getitem. rewrite Hu, Hv.
        exact Hrun1. }
      simpl. rewrite Hbody. exact Hrun.
    + rewrite Hedge, Hedge1.
      intros [[?|Hc]|(u' & v' & Hin & Hc)].
      * by left.
      * right. exists u, v. split; [apply elem_of_cons; by left|].
        destruct Hc as [[-> ->]|[-> ->]]; auto.
      * right. exists u', v'. split; [apply elem_of_cons; by right | done].
    + rewrite Hedge, Hedge1.
      intros [?|(u' & v' & [[= -> ->]|Hin]%elem_of_cons & Hc)].
      * left. by left.
      * left. right.
        destruct Hc as [[Hu' Hv']|[Hu' Hv']]; [left|right]; split; congruence.
      * right. by exists u', v'.
Qed.

Lemma to_molecule_body_unfold self (atom_offset roff cgoff : Z) :
  to_molecule_body self atom_offset roff cgoff
  = (name_to_idx <-
       to_molecule_nodes self atom_offset (nodes (block_molecule self))
         roff cgoff ∅ ;;
     add_remapped (fun _ => None) name_to_idx
       (interactions (block_molecule self)) ;;;
     for_each (edges (block_molecule self)) (fun edge =>
       c1 <- lift (correspondence_getitem name_to_idx edge.1) ;;
       c2 <- lift (correspondence_getitem name_to_idx edge.2) ;;
       add_edge c1 c2) ;;;
     modify (set_nrexcl (nrexcl (block_molecule self)))).
Proof. reflexivity. Qed.

(** X19: a block that meets the data model (distinct atom names, edges
    and interactions over its own atoms, int [resid] and [charge_group]
    where present, distinct interaction types) and whose atoms have no
    attribute named as a parameter of [add_node] is turned into a molecule
    without an exception.  The atoms are numbered from [atom_offset] in
    the order of the block; each keeps its attributes, with [resid] and
    [charge_group] (1 when absent) raised by the offsets and [resname]
    set to the name of the block when absent.  The interactions of every
    type are those of the block in their order, their atoms renamed to
    the numbers, their parameters kept and their [meta] dropped.  Every
    edge of the block is carried over, [nrexcl] is that of the block, and
    the force field is the one given, or that of the block when none is
    given. *)
Theorem to_molecule_spec self (atom_offset offset_resid offset_charge_group : Z)
    (force_field_ : option FF) :
  Molecule_wf (block_molecule self) ->
  atoms_passable (block_molecule self) ->
  NoDup (interactions (block_molecule self)).*1 ->
  ∃ mol (name_to_idx : gmap K Z),
    to_molecule self atom_offset offset_resid offset_charge_group force_field_
    = Ok mol
    ∧ (∀ (i : nat) k, (nodes (block_molecule self)).*1 !! i = Some k ->
         name_to_idx !! k = Some (atom_offset + Z.of_nat i)%Z)
    ∧ nodes mol
      = imap (fun i ka => ((atom_offset + Z.of_nat i)%Z,
                           to_molecule_atom self offset_resid
                             offset_charge_group ka.2))
          (nodes (block_molecule self))
    ∧ (∀ t, interactions_get mol t
            = remap_interaction name_to_idx ∅
                <$> interactions_get (block_molecule self) t)
    ∧ (∀ a b, has_edge mol a b = true <->
         ∃ u v, (u, v) ∈ edges (block_molecule self)
                ∧ ((name_to_idx !! u = Some a ∧ name_to_idx !! v = Some b)
                   ∨ (name_to_idx !! u = Some b ∧ name_to_idx !! v = Some a)))
    ∧ nrexcl mol = nrexcl (block_molecule self)
    ∧ force_field mol
      = match force_field_ with
        | None => force_field (block_molecule self)
        | Some ff => Some ff
        end.
Proof.
  intros (Hnd & Hedges & Hints & Htyped) Hpass Hreg.
  pose (mol0 := Molecule_init (K:=Z) ∅
                  match force_field_ with
                  | None => force_field (block_molecule self)
                  | Some ff => Some ff
                  end None).
  destruct (to_molecule_nodes_spec self offset_resid offset_charge_group
              (nodes (block_molecule self)) atom_offset ∅ mol0)
    as (corr & Hnodes & Hout & Hin);
    [| exact Htyped | exact Hpass | exact Hnd |].
  { by intros k ?%elem_of_nil. }
  simpl in Hnodes.
  match type of Hnodes with _ = (_, ?s) => pose (s1 := s) end.
  assert (∀ node, node ∈ (nodes (block_molecule self)).*1 ->
            ∃ z, corr !! node = Some z ∧ z ∈ (nodes s1).*1) as Hmapped.
  { intros node (i & Hi)%list_elem_of_lookup_1.
    exists (atom_offset + Z.of_nat i)%Z. split; [by apply Hin|].
    rewrite list_lookup_fmap in Hi.
    destruct (nodes (block_molecule self) !! i) as [[k attrs]|] eqn:Hi';
      [|done].
    apply list_elem_of_fmap.
    exists ((atom_offset + Z.of_nat i)%Z,
            to_molecule_atom self offset_resid offset_charge_group attrs).
    split; [done|]. apply list_elem_of_lookup_2 with i. simpl.
    by rewrite list_lookup_imap, Hi'. }
  destruct (add_remapped_total (fun _ => None) corr
              (interactions (block_molecule self)) s1) as [s2 Hs2].
  { intros name l i k Hl Hi Hk. apply Hmapped. by eapply Hints. }
  pose proof (add_remapped_run (fun _ => None) corr
                (interactions (block_molecule self)) s1 Hreg) as Hrun.
  rewrite Hs2 in Hrun. destruct Hrun as ((Hn2 & He2 & Hx2 & Hf2 & _) & Hget & _).
  destruct (to_molecule_edges_run corr (edges (block_molecule self)) s2)
    as (s3 & Hs3 & Hn3 & Hi3 & Hx3 & Hf3 & Hedge).
  { intros u v Huv. destruct (Hedges u v Huv) as [Hu Hv].
    destruct (Hmapped u Hu) as (a & Ha & Has).
    destruct (Hmapped v Hv) as (b & Hb & Hbs).
    exists a, b. rewrite Hn2. by repeat split. }
  exists (set_nrexcl (nrexcl (block_molecule self)) s3), corr.
  split; [|split; [exact Hin|]].
  { unfold to_molecule. fold mol0. rewrite to_molecule_body_unfold.
    rewrite (bind_Ok _ _ _ _ _ Hnodes). fold s1.
    rewrite (bind_Ok _ _ _ _ _ Hs2).
    by rewrite (bind_Ok _ _ _ _ _ Hs3). }
  simpl. split; [by rewrite Hn3, Hn2|]. split.
  { intros t. unfold interactions_get at 1. simpl. rewrite Hi3.
    fold (interactions_get s2 t). by rewrite Hget. }
  split.
  { intros a b.
    change (has_edge (set_nrexcl (nrexcl (block_molecule self)) s3) a b)
      with (has_edge s3 a b).
    rewrite Hedge. unfold has_edge at 1. rewrite He2. simpl. split.
    - by intros [?|?].
    - by right. }
  split; [done|]. by rewrite Hf3, Hf2.
Qed.

End to_molecule_facts.

(** * The further properties at concrete inputs *)

Lemma edges_closed_path4 : edges_closed MoreExamples.path4.
Proof.
  intros u v Hin. simpl in Hin.
  repeat (apply elem_of_cons in Hin as [[= -> ->]|Hin];
          [split; apply (bool_decide_unpack _); vm_compute; exact I|]).
  by apply elem_of_nil in Hin.
Defined.

Lemma Molecule_wf_block_ab :
  Molecule_wf (block_molecule MoreExamples.block_ab).
Proof.
  split; [|split; [|split]].
  - apply (bool_decide_unpack _). vm_compute. exact I.
  - intros u v [= -> ->]%list_elem_of_singleton.
    split; apply (bool_decide_unpack _); vm_compute; exact I.
  - intros type_ l interaction atom [= -> ->]%list_elem_of_singleton
      ->%list_elem_of_singleton Hatom. simpl in Hatom.
    repeat (apply elem_of_cons in Hatom as [->|Hatom];
            [apply (bool_decide_unpack _); vm_compute; exact I|]).
    by apply elem_of_nil in Hatom.
  - intros k attrs Hin. simpl in Hin.
    apply elem_of_cons in Hin as [[= -> ->]|Hin]; [split; by left|].
    apply list_elem_of_singleton in Hin. injection Hin as -> ->.
    split; [right; by exists 4%Z | by left].
Defined.

Lemma atoms_passable_block_ab :
  atoms_passable (block_molecule MoreExamples.block_ab).
Proof.
  intros k attrs Hin. simpl in Hin.
  apply elem_of_cons in Hin as [[= -> ->]|Hin]; [reflexivity|].
  apply list_elem_of_singleton in Hin. injection Hin as -> ->. reflexivity.
Defined.

Lemma atoms_1_2_in_mol_A (atom : Z) :
  atom ∈ [1%Z; 2%Z] -> atom ∈ (nodes Examples.mol_A).*1.
Proof. intros Hin. exact Hin. Defined.

(** The bond of version 1 is overwritten, the one of version 0 stays. *)
Lemma add_or_replace_interaction_replaces_witness :
  ∃ self',
    add_or_replace_interaction "bonds" [1%Z; 2%Z] [VStr "k"]
      (Some {["version" := VInt 1]}) Examples.mol_bonds = (Ok tt, self')
    ∧ interactions_get self' "bonds"
      = [Examples.bond_v0;
         mkInteraction [1%Z; 2%Z] [VStr "k"] {["version" := VInt 1]}].
Proof.
  destruct (add_or_replace_interaction_replaces Examples.mol_bonds "bonds"
              [1%Z; 2%Z] [VStr "k"] (Some {["version" := VInt 1]})
              [Examples.bond_v0] [] Examples.bond_v1)
    as (self' & Hrun & Hget & _).
  - reflexivity.
  - reflexivity.
  - vm_compute. reflexivity.
  - intros y ->%list_elem_of_singleton. vm_compute. reflexivity.
  - exists self'. split; [exact Hrun | exact Hget].
Defined.

(** Two calls for the bond 1 - 2 leave the entry of the second. *)
Lemma add_or_replace_interaction_twice_witness :
  ∃ self1 self2,
    add_or_replace_interaction "bonds" [1%Z; 2%Z] [] None Examples.mol_A
    = (Ok tt, self1)
    ∧ add_or_replace_interaction "bonds" [1%Z; 2%Z] [VInt 5] None self1
      = (Ok tt, self2)
    ∧ interactions_get self2 "bonds" = [mkInteraction [1%Z; 2%Z] [VInt 5] ∅].
Proof.
  destruct (add_or_replace_interaction_twice Examples.mol_A "bonds"
              [1%Z; 2%Z] [] [VInt 5] None None)
    as (self1 & self2 & Hrun1 & Hrun2 & _ & Hget).
  - exact atoms_1_2_in_mol_A.
  - by intros y ?%elem_of_nil.
  - vm_compute. reflexivity.
  - exists self1, self2. split; [exact Hrun1|]. split; [exact Hrun2|].
    exact Hget.
Defined.

(** A bond added to a molecule without interactions and removed again. *)
Lemma add_then_remove_matching_interaction_witness :
  ∃ self1 self2,
    add_interaction "bonds" [1%Z; 2%Z] [VStr "p"] None Examples.mol_A
    = (Ok tt, self1)
    ∧ remove_matching_interaction "bonds"
        (TInteraction [1%Z; 2%Z] [VStr "p"] ∅) self1 = (Ok tt, self2)
    ∧ interactions_get self2 "bonds" = [].
Proof.
  destruct (add_then_remove_matching_interaction Examples.mol_A "bonds"
              [1%Z; 2%Z] [VStr "p"])
    as (self1 & self2 & Hrun1 & Hrun2 & Hget & _).
  - exact atoms_1_2_in_mol_A.
  - by intros y ?%elem_of_nil.
  - exists self1, self2. split; [exact Hrun1|]. split; [exact Hrun2|].
    by rewrite Hget.
Defined.

(** A bond added without [meta] is not found by [remove_interaction]. *)
Lemma add_then_remove_interaction_raises_witness :
  ∃ self1,
    add_interaction "bonds" [1%Z; 2%Z] [] None Examples.mol_A = (Ok tt, self1)
    ∧ remove_interaction "bonds" (PyTuple [1%Z; 2%Z]) (VInt 0) self1
      = (Err NoMatchFound, self1)
    ∧ interactions_get self1 "bonds" = [mkInteraction [1%Z; 2%Z] [] ∅].
Proof.
  destruct (add_then_remove_interaction_raises Examples.mol_A "bonds"
              (PyTuple [1%Z; 2%Z]) [] None (VInt 0))
    as (self1 & Hrun1 & Hrun2 & Hget).
  - exact atoms_1_2_in_mol_A.
  - vm_compute. reflexivity.
  - by intros y ?%elem_of_nil.
  - exists self1. split; [exact Hrun1|]. split; [exact Hrun2 | exact Hget].
Defined.

(** The angles of the path 1 - 2 - 3 - 4. *)
Lemma guess_angles_spec_witness :
  ∃ angles,
    guess_angles MoreExamples.path4 = Some angles
    ∧ (1%Z, 2%Z, 3%Z) ∈ angles ∧ (3%Z, 2%Z, 1%Z) ∈ angles
    ∧ (1%Z, 2%Z, 1%Z) ∉ angles.
Proof.
  destruct (guess_angles_spec MoreExamples.path4 edges_closed_path4)
    as (angles & Hrun & Hin & Hrev).
  exists angles. split; [exact Hrun|].
  assert ((1%Z, 2%Z, 3%Z) ∈ angles) as H123.
  { apply Hin. by repeat split. }
  split; [exact H123|]. split; [by apply Hrev|].
  intros (_ & _ & Hne)%Hin. by apply Hne.
Defined.

(** The dihedrals of the path 1 - 2 - 3 - 4. *)
Lemma guess_dihedrals_spec_witness :
  ∃ dihedrals,
    guess_dihedrals MoreExamples.path4 None = Some dihedrals
    ∧ (1%Z, 2%Z, 3%Z, 4%Z) ∈ dihedrals ∧ (4%Z, 3%Z, 2%Z, 1%Z) ∈ dihedrals.
Proof.
  destruct (guess_dihedrals_spec MoreExamples.path4 edges_closed_path4)
    as (dihedrals & Hrun & Hin & Hrev & _).
  exists dihedrals. split; [exact Hrun|].
  assert ((1%Z, 2%Z, 3%Z, 4%Z) ∈ dihedrals) as H1234.
  { apply Hin. by repeat split. }
  split; [exact H1234 | by apply Hrev].
Defined.

(** The bond of the block, merged into [Molecule(nrexcl=3)]. *)
Lemma merge_molecule_interactions_witness :
  ∃ correspondence self',
    merge_molecule (block_molecule MoreExamples.block_ab)
      Examples.mol_empty_nrexcl3 = (Ok correspondence, self')
    ∧ interactions_get self' "bonds"
      = [mkInteraction
           [default 0%Z (correspondence !! "a");
            default 0%Z (correspondence !! "b")]
           [VStr "1"] {["comment" := VStr "c"]}]
    ∧ is_Some (correspondence !! "a").
Proof.
  assert (∃ correspondence self',
            merge_molecule (block_molecule MoreExamples.block_ab)
              Examples.mol_empty_nrexcl3 = (Ok correspondence, self'))
    as (correspondence & self' & Hrun).
  { vm_compute. eexists _, _. reflexivity. }
  destruct (merge_molecule_interactions Examples.mol_empty_nrexcl3
              (block_molecule MoreExamples.block_ab) correspondence self')
    as [Hget Hall].
  - apply (bool_decide_unpack _). vm_compute. exact I.
  - exact Hrun.
  - exists correspondence, self'. split; [exact Hrun|]. split.
    + by rewrite Hget.
    + apply (Hall "bonds" (mkInteraction ["a"; "b"] [VStr "1"]
                             {["comment" := VStr "c"]})).
      * by apply list_elem_of_singleton.
      * apply elem_of_cons. by left.
Defined.

(** The edge of the block, merged into [Molecule(nrexcl=3)]. *)
Lemma merge_molecule_edges_witness :
  ∃ correspondence self',
    merge_molecule (block_molecule MoreExamples.block_ab)
      Examples.mol_empty_nrexcl3 = (Ok correspondence, self')
    ∧ ∀ a b, has_edge self' a b = true ->
        a ≠ b
        ∧ ((correspondence !! "a" = Some a ∧ correspondence !! "b" = Some b)
           ∨ (correspondence !! "a" = Some b ∧ correspondence !! "b" = Some a)).
Proof.
  assert (∃ correspondence self',
            merge_molecule (block_molecule MoreExamples.block_ab)
              Examples.mol_empty_nrexcl3 = (Ok correspondence, self'))
    as (correspondence & self' & Hrun).
  { vm_compute. eexists _, _. reflexivity. }
  pose proof (merge_molecule_edges Examples.mol_empty_nrexcl3
                (block_molecule MoreExamples.block_ab) correspondence self'
                Hrun) as Hedge.
  exists correspondence, self'. split; [exact Hrun|].
  intros a b [Hab|(u & v & [= -> ->]%list_elem_of_singleton & Hne & Hc)]%Hedge.
  - discriminate Hab.
  - by split.
Defined.

(** The block with atoms [a] and [b], numbered from 10 on. *)
Lemma to_molecule_spec_witness :
  ∃ mol,
    to_molecule MoreExamples.block_ab 10%Z 1%Z 0%Z None = Ok mol
    ∧ (nodes mol).*1 = [10%Z; 11%Z]
    ∧ nrexcl mol = Some 3%Z
    ∧ has_edge mol 10%Z 11%Z = true.
Proof.
  destruct (to_molecule_spec MoreExamples.block_ab 10%Z 1%Z 0%Z None
              Molecule_wf_block_ab atoms_passable_block_ab)
    as (mol & name_to_idx & Hrun & Hidx & Hnodes & _ & Hedge & Hnrexcl & _).
  - apply (bool_decide_unpack _). vm_compute. exact I.
  - exists mol. split; [exact Hrun|]. split; [by rewrite Hnodes|].
    split; [exact Hnrexcl|].
    apply Hedge. exists "a", "b". split; [by apply list_elem_of_singleton|].
    left. split.
    + exact (Hidx 0%nat "a" eq_refl).
    + exact (Hidx 1%nat "b" eq_refl).
Defined.
